(** * Super Snake: the grid logic of [super_snake.py] and [super_snake_V1.1.py]

    Both programs are a single [main] function: a start-screen loop followed by
    the game loop.  One iteration of the game loop drains the pending input
    events, advances the snake by one cell unless the game is over, and draws.
    The local variables of [main] that carry the game ([snake], [direction],
    [next_direction], [food], [score], [game_over]) become the record [game];
    an iteration of the loop becomes the function [frame] of each variant.

    Python integers are unbounded, hence [Z].  The global generator of the
    [random] module is a stream of raw draws together with a cursor that is
    threaded through every function that samples.  A [while True] loop takes
    fuel and answers [Timeout] when the fuel is spent. *)

From Stdlib Require Import ZArith List Bool Lia Floats Uint63 Reals Lra.
Import ListNotations.
Open Scope Z_scope.
Set Warnings "-inexact-float".

(** ** What a piece of the program can come to *)

Inductive exn : Type :=
| IndexError        (* [snake[-1]] on an empty list *)
| OverflowError     (* [int] of an infinity *)
| ValueError.       (* [int] of a NaN *)

Inductive result (A : Type) : Type :=
| Done (a : A)      (* ran to completion *)
| Exit              (* the process or the game loop ended *)
| Raise (e : exn)   (* an uncaught exception *)
| Timeout.          (* the fuel of a [while True] loop is spent *)
Arguments Done {A} a.
Arguments Exit {A}.
Arguments Raise {A} e.
Arguments Timeout {A}.

Definition bind {A B : Type} (r : result A) (f : A -> result B) : result B :=
  match r with
  | Done a => f a
  | Exit => Exit
  | Raise e => Raise e
  | Timeout => Timeout
  end.

Notation "x <- c1 ;; c2" := (bind c1 (fun x => c2))
  (at level 61, c1 at next level, right associativity).
Notation "' pat <- c1 ;; c2" := (bind c1 (fun x => match x with pat => c2 end))
  (at level 61, pat pattern, c1 at next level, right associativity).

(** ** Configuration *)

Definition CELL_SIZE : Z := 20.
Definition GRID_WIDTH : Z := 30.
Definition GRID_HEIGHT : Z := 30.
Definition WIDTH : Z := CELL_SIZE * GRID_WIDTH.
Definition HEIGHT : Z := CELL_SIZE * GRID_HEIGHT.

(** ** Grid positions, tuples of two integers *)

Definition pos : Type := (Z * Z)%type.

(** [p == q] on tuples. *)
Definition pos_eqb (p q : pos) : bool :=
  (fst p =? fst q) && (snd p =? snd q).

(** [p in l] on a list of tuples. *)
Definition contains (p : pos) (l : list pos) : bool :=
  existsb (pos_eqb p) l.

(** [l[-1]]: the last element, none for the empty list. *)
Fixpoint last_segment (l : list pos) : option pos :=
  match l with
  | [] => None
  | [p] => Some p
  | _ :: l' => last_segment l'
  end.

(** [0 <= p[0] < GRID_WIDTH and 0 <= p[1] < GRID_HEIGHT]. *)
Definition in_grid (p : pos) : bool :=
  ((0 <=? fst p) && (fst p <? GRID_WIDTH)) &&
  ((0 <=? snd p) && (snd p <? GRID_HEIGHT)).

(** ** The random source

    [random.randint(a, b)] answers an integer [N] with [a <= N <= b]; the raw
    draw is reduced into that range. *)

Definition entropy : Type := nat -> Z.

Definition randint (a b raw : Z) : Z := a + raw mod (b - a + 1).

(** ** Input events *)

Inductive key : Type :=
| K_UP | K_w | K_DOWN | K_s | K_LEFT | K_a | K_RIGHT | K_d
| K_ESCAPE | K_SPACE | K_r | K_other.

Inductive event : Type :=
| QUIT
| KEYDOWN (k : key)
| OTHER_EVENT.

Definition key_eqb (a b : key) : bool :=
  match a, b with
  | K_UP, K_UP | K_w, K_w | K_DOWN, K_DOWN | K_s, K_s
  | K_LEFT, K_LEFT | K_a, K_a | K_RIGHT, K_RIGHT | K_d, K_d
  | K_ESCAPE, K_ESCAPE | K_SPACE, K_SPACE | K_r, K_r | K_other, K_other => true
  | _, _ => false
  end.

(** [k in (k1, k2)]. *)
Definition key_in (k : key) (ks : list key) : bool := existsb (key_eqb k) ks.

(** ** The game variables of [main] *)

Record game : Type := mkGame {
  snake : list pos;          (* tail first, head last *)
  direction : pos;           (* committed on the last tick *)
  next_direction : pos;      (* latest request *)
  food : pos;
  score : Z;
  game_over : bool
}.

Definition set_next_direction (d : pos) (g : game) : game :=
  mkGame (snake g) (direction g) d (food g) (score g) (game_over g).

(** ** The start screen, the same loop body in both files

    SPACE leaves the start screen, ESC and the window's QUIT end the process,
    every other event is skipped. *)

Inductive start_step : Type := StayOnStart | StartGame | ExitProcess.

Definition start_screen_event (ev : event) : start_step :=
  match ev with
  | QUIT => ExitProcess
  | KEYDOWN k =>
      if key_eqb k K_SPACE then StartGame
      else if key_eqb k K_ESCAPE then ExitProcess
      else StayOnStart
  | OTHER_EVENT => StayOnStart
  end.

(** The [for event in pygame.event.get()] of the start screen: an exit ends
    the process at once; SPACE clears [in_start_screen] and the remaining
    events of the batch are still read. *)
Fixpoint start_screen_events (evs : list event) (in_start : bool) : result bool :=
  match evs with
  | [] => Done in_start
  | ev :: rest =>
      match start_screen_event ev with
      | ExitProcess => Exit
      | StartGame => start_screen_events rest false
      | StayOnStart => start_screen_events rest in_start
      end
  end.

(** * super_snake.py *)

Module V1.

(** [random_food_position(snake)], lines 32-38. *)
Fixpoint random_food_position (fuel : nat) (rng : entropy) (k : nat)
    (snake : list pos) : result (pos * nat) :=
  match fuel with
  | O => Timeout
  | S fuel' =>
      let x := randint 0 (GRID_WIDTH - 1) (rng k) in
      let y := randint 0 (GRID_HEIGHT - 1) (rng (S k)) in
      if negb (contains (x, y) snake) then Done ((x, y), S (S k))
      else random_food_position fuel' rng (S (S k)) snake
  end.

(** [[(GRID_WIDTH // 2 + i, GRID_HEIGHT // 2) for i in range(3)][::-1]]. *)
Definition initial_snake : list pos :=
  rev (map (fun i => (GRID_WIDTH / 2 + i, GRID_HEIGHT / 2)) [0; 1; 2]).

(** Lines 79-85: the game variables as [main] first builds them. *)
Definition init (fuel : nat) (rng : entropy) (k : nat) : result (game * nat) :=
  let snake := initial_snake in
  let direction := (-1, 0) in
  let next_direction := direction in
  '(food, k') <- random_food_position fuel rng k snake ;;
  Done (mkGame snake direction next_direction food 0 false, k').

(** Lines 109-114: the body of the restart branch. *)
Definition restart (fuel : nat) (rng : entropy) (k : nat) : result (game * nat) :=
  let snake := rev (map (fun i => (GRID_WIDTH / 2 + i, GRID_HEIGHT / 2)) [0; 1; 2]) in
  let direction := (-1, 0) in
  let next_direction := direction in
  '(food, k') <- random_food_position fuel rng k snake ;;
  let score := 0 in
  let game_over := false in
  Done (mkGame snake direction next_direction food score game_over, k').

(** One event of the game loop, lines 89-114.  The boolean is [running]:
    [false] stands for [running = False; break]. *)
Definition on_event (fuel : nat) (rng : entropy) (ev : event) (k : nat) (g : game)
    : result (bool * game * nat) :=
  match ev with
  | QUIT => Done (false, g, k)
  | KEYDOWN key =>
      if key_in key [K_UP; K_w] then Done (true, set_next_direction (0, -1) g, k)
      else if key_in key [K_DOWN; K_s] then Done (true, set_next_direction (0, 1) g, k)
      else if key_in key [K_LEFT; K_a] then Done (true, set_next_direction (-1, 0) g, k)
      else if key_in key [K_RIGHT; K_d] then Done (true, set_next_direction (1, 0) g, k)
      else if key_eqb key K_ESCAPE then Done (false, g, k)
      else if key_eqb key K_SPACE && negb (game_over g) then
        Done (true, g, k)                       (* prints SPACE_PRESSED_IN_GAME *)
      else if key_eqb key K_r && game_over g then
        '(g', k') <- restart fuel rng k ;;
        Done (true, g', k')
      else Done (true, g, k)
  | OTHER_EVENT => Done (true, g, k)
  end.

(** The [for event in pygame.event.get()] loop with its [break]s. *)
Fixpoint poll (fuel : nat) (rng : entropy) (evs : list event) (k : nat) (g : game)
    : result (bool * game * nat) :=
  match evs with
  | [] => Done (true, g, k)
  | ev :: rest =>
      '(running, g', k') <- on_event fuel rng ev k g ;;
      if running then poll fuel rng rest k' g' else Done (false, g', k')
  end.

(** Lines 129-133: wall test first, then the snake itself. *)
Definition collides (new_head : pos) (snake : list pos) : bool :=
  if negb (((0 <=? fst new_head) && (fst new_head <? GRID_WIDTH)) &&
           ((0 <=? snd new_head) && (snd new_head <? GRID_HEIGHT)))
  then true
  else if contains new_head snake then true
  else false.

(** Lines 121-122: the committed direction of this tick. *)
Definition commit_direction (g : game) : pos :=
  if negb (pos_eqb (fst (next_direction g) * -1, snd (next_direction g) * -1)
                   (direction g))
  then next_direction g
  else direction g.

(** Lines 119-141: one tick. *)
Definition update (fuel : nat) (rng : entropy) (k : nat) (g : game)
    : result (game * nat) :=
  if negb (game_over g) then
    let direction := commit_direction g in
    match last_segment (snake g) with
    | None => Raise IndexError
    | Some (head_x, head_y) =>
        let new_head := (head_x + fst direction, head_y + snd direction) in
        if collides new_head (snake g) then
          Done (mkGame (snake g) direction (next_direction g) (food g) (score g) true, k)
        else
          let snake' := snake g ++ [new_head] in
          if pos_eqb new_head (food g) then
            '(food', k') <- random_food_position fuel rng k snake' ;;
            Done (mkGame snake' direction (next_direction g) food' (score g + 1) false, k')
          else
            Done (mkGame (tl snake') direction (next_direction g) (food g) (score g) false, k)
    end
  else Done (g, k).

(** One iteration of [while running]; [Exit] when the loop is left. *)
Definition frame (fuel : nat) (rng : entropy) (evs : list event) (k : nat) (g : game)
    : result (game * nat) :=
  '(running, g1, k1) <- poll fuel rng evs k g ;;
  if negb running then Exit
  else update fuel rng k1 g1.

(** Successive iterations, one batch of events each. *)
Fixpoint frames (fuel : nat) (rng : entropy) (batches : list (list event))
    (k : nat) (g : game) : result (game * nat) :=
  match batches with
  | [] => Done (g, k)
  | evs :: rest =>
      '(g', k') <- frame fuel rng evs k g ;;
      frames fuel rng rest k' g'
  end.

(** The games [main] can hold: built by [init], changed by an event of the
    loop or by a tick. *)
Inductive reachable : game -> Prop :=
| reach_init fuel rng k g k' :
    init fuel rng k = Done (g, k') -> reachable g
| reach_event fuel rng ev k g running g' k' :
    reachable g -> on_event fuel rng ev k g = Done (running, g', k') -> reachable g'
| reach_update fuel rng k g g' k' :
    reachable g -> update fuel rng k g = Done (g', k') -> reachable g'.

End V1.

(** * super_snake_V1.1.py *)

(** ** Python floats, which are binary64 like the primitive floats *)

(** [float(n)] for an integer of at most 63 bits in magnitude. *)
Definition float_of_int (n : Z) : float :=
  if n <? 0 then (- of_uint63 (Uint63.of_Z (- n)))%float
  else of_uint63 (Uint63.of_Z n).

(** [int(x)]: the integer part, rounding toward zero. *)
Definition int_of_float (x : float) : result Z :=
  match Prim2SF x with
  | S754_zero _ => Done 0
  | S754_finite s m e => Done (cond_Zopp s (Z.shiftl (Zpos m) e))
  | S754_infinity _ => Raise OverflowError
  | S754_nan => Raise ValueError
  end.

(** [random.random()]: CPython builds a 53-bit integer from two words of the
    generator and scales it by [2**-53]. *)
Definition random_random (raw : Z) : float :=
  (of_uint63 (Uint63.of_Z (raw mod 2 ^ 53)) * 0x1p-53)%float.

(** [random.uniform(a, b)] is [a + (b - a) * self.random()]. *)
Definition random_uniform (a b : float) (raw : Z) : float :=
  (a + (b - a) * random_random raw)%float.

(** [max(0.0, x)]: the second argument when it is greater than the first. *)
Definition max_zero (x : float) : float :=
  if (0 <? x)%float then x else 0%float.

Module V11.

Definition SHAKE_DURATION : float := 0.3%float.
Definition SHAKE_INTENSITY : Z := 100.

(** [random_food(snake)], lines 51-55. *)
Fixpoint random_food (fuel : nat) (rng : entropy) (k : nat)
    (snake : list pos) : result (pos * nat) :=
  match fuel with
  | O => Timeout
  | S fuel' =>
      let pos := (randint 0 (GRID_WIDTH - 1) (rng k),
                  randint 0 (GRID_HEIGHT - 1) (rng (S k))) in
      if negb (contains pos snake) then Done (pos, S (S k))
      else random_food fuel' rng (S (S k)) snake
  end.

(** Line 135. *)
Definition initial_snake : list pos :=
  [(GRID_WIDTH / 2 - 1, GRID_HEIGHT / 2); (GRID_WIDTH / 2, GRID_HEIGHT / 2)].

(** The state of the loop: the game variables and [shake_time]. *)
Record state : Type := mkState {
  the_game : game;
  shake_time : float
}.

(** Lines 133-145. *)
Definition init (fuel : nat) (rng : entropy) (k : nat) : result (state * nat) :=
  let snake := initial_snake in
  let direction := (1, 0) in
  let next_direction := direction in
  '(food, k') <- random_food fuel rng k snake ;;
  Done (mkState (mkGame snake direction next_direction food 0 false) 0%float, k').

(** Lines 163-168: the body of the restart branch. *)
Definition restart (fuel : nat) (rng : entropy) (k : nat) : result (game * nat) :=
  let snake := [(GRID_WIDTH / 2 - 1, GRID_HEIGHT / 2); (GRID_WIDTH / 2, GRID_HEIGHT / 2)] in
  let direction := (1, 0) in
  let next_direction := direction in
  '(food, k') <- random_food fuel rng k snake ;;
  let score := 0 in
  let game_over := false in
  Done (mkGame snake direction next_direction food score game_over, k').

(** One event of the game loop, lines 150-170. *)
Definition on_event (fuel : nat) (rng : entropy) (ev : event) (k : nat) (g : game)
    : result (game * nat) :=
  match ev with
  | QUIT => Exit
  | KEYDOWN key =>
      if key_in key [K_UP; K_w] then
        Done (if negb (pos_eqb (direction g) (0, 1))
              then set_next_direction (0, -1) g else g, k)
      else if key_in key [K_DOWN; K_s] then
        Done (if negb (pos_eqb (direction g) (0, -1))
              then set_next_direction (0, 1) g else g, k)
      else if key_in key [K_LEFT; K_a] then
        Done (if negb (pos_eqb (direction g) (1, 0))
              then set_next_direction (-1, 0) g else g, k)
      else if key_in key [K_RIGHT; K_d] then
        Done (if negb (pos_eqb (direction g) (-1, 0))
              then set_next_direction (1, 0) g else g, k)
      else if key_eqb key K_r && game_over g then restart fuel rng k
      else if key_eqb key K_ESCAPE then Exit
      else Done (g, k)
  | OTHER_EVENT => Done (g, k)
  end.

(** The [for event in pygame.event.get()] loop. *)
Fixpoint poll (fuel : nat) (rng : entropy) (evs : list event) (k : nat) (g : game)
    : result (game * nat) :=
  match evs with
  | [] => Done (g, k)
  | ev :: rest =>
      '(g', k') <- on_event fuel rng ev k g ;;
      poll fuel rng rest k' g'
  end.

(** Line 182: the snake itself first, then the walls. *)
Definition collides (new_head : pos) (snake : list pos) : bool :=
  contains new_head snake
  || negb ((0 <=? fst new_head) && (fst new_head <? GRID_WIDTH))
  || negb ((0 <=? snd new_head) && (snd new_head <? GRID_HEIGHT)).

(** Lines 175-176. *)
Definition commit_direction (g : game) : pos :=
  if negb (pos_eqb (fst (next_direction g) * -1, snd (next_direction g) * -1)
                   (direction g))
  then next_direction g
  else direction g.

(** Lines 173-199: one tick.  Eating also starts the shake. *)
Definition update (fuel : nat) (rng : entropy) (k : nat) (s : state)
    : result (state * nat) :=
  let g := the_game s in
  if negb (game_over g) then
    let direction := commit_direction g in
    match last_segment (snake g) with
    | None => Raise IndexError
    | Some (head_x, head_y) =>
        let new_head := (head_x + fst direction, head_y + snd direction) in
        if collides new_head (snake g) then
          Done (mkState (mkGame (snake g) direction (next_direction g) (food g)
                                (score g) true) (shake_time s), k)
        else
          let snake' := snake g ++ [new_head] in
          if pos_eqb new_head (food g) then
            '(food', k') <- random_food fuel rng k snake' ;;
            Done (mkState (mkGame snake' direction (next_direction g) food'
                                  (score g + 1) false) SHAKE_DURATION, k')
          else
            Done (mkState (mkGame (tl snake') direction (next_direction g) (food g)
                                  (score g) false) (shake_time s), k)
    end
  else Done (s, k).

(** Lines 202-203. *)
Definition decay_shake (shake_time dt : float) : float :=
  if (0 <? shake_time)%float then max_zero (shake_time - dt)%float
  else shake_time.

(** Lines 206-214: the offsets of this frame, two draws while shaking. *)
Definition shake_offset (rng : entropy) (k : nat) (shake_time : float)
    : result (Z * Z * nat) :=
  if (0 <? shake_time)%float then
    let amp := (float_of_int SHAKE_INTENSITY * 0.12)%float in
    offset_x <- int_of_float (random_uniform (-1.0) 1.0 (rng k) * amp)%float ;;
    offset_y <- int_of_float (random_uniform 1.0 (-1.0) (rng (S k)) * amp)%float ;;
    Done (offset_x, offset_y, S (S k))
  else Done (0, 0, k).

(** One iteration of [while True], lines 148-246: the state after it and the
    position at which the scene is blitted. *)
Definition frame (fuel : nat) (rng : entropy) (dt : float) (evs : list event)
    (k : nat) (s : state) : result (state * (Z * Z) * nat) :=
  '(g1, k1) <- poll fuel rng evs k (the_game s) ;;
  '(s2, k2) <- update fuel rng k1 (mkState g1 (shake_time s)) ;;
  let shake_time := decay_shake (shake_time s2) dt in
  '(offset_x, offset_y, k3) <- shake_offset rng k2 shake_time ;;
  Done (mkState (the_game s2) shake_time, (offset_x, offset_y), k3).

(** Successive iterations: the elapsed time and the events of each. *)
Fixpoint frames (fuel : nat) (rng : entropy) (inputs : list (float * list event))
    (k : nat) (s : state) : result (state * nat) :=
  match inputs with
  | [] => Done (s, k)
  | (dt, evs) :: rest =>
      '(s', _, k') <- frame fuel rng dt evs k s ;;
      frames fuel rng rest k' s'
  end.

(** The states [main] can hold: built by [init], changed by an event of the
    loop, by a tick or by a whole iteration. *)
Inductive reachable : state -> Prop :=
| reach_init fuel rng k s k' :
    init fuel rng k = Done (s, k') -> reachable s
| reach_event fuel rng ev k s g' k' :
    reachable s -> on_event fuel rng ev k (the_game s) = Done (g', k') ->
    reachable (mkState g' (shake_time s))
| reach_update fuel rng k s s' k' :
    reachable s -> update fuel rng k s = Done (s', k') -> reachable s'
| reach_frame fuel rng dt evs k s s' off k' :
    reachable s -> frame fuel rng dt evs k s = Done (s', off, k') -> reachable s'.

End V11.

(** * Notions the properties are stated with *)

(** The cell the food sampler tries at cursor [k]. *)
Definition food_draw (rng : entropy) (k : nat) : pos :=
  (randint 0 (GRID_WIDTH - 1) (rng k), randint 0 (GRID_HEIGHT - 1) (rng (S k))).

(** Every segment on the grid and no cell occupied twice. *)
Definition on_grid_and_simple (g : game) : Prop :=
  Forall (fun p => in_grid p = true) (snake g) /\ NoDup (snake g).

(** A snake that fills the grid: row after row, alternating the sense. *)
Definition grid_row (y : Z) : list pos :=
  map (fun x => (Z.of_nat x, y)) (seq 0 (Z.to_nat GRID_WIDTH)).

Definition full_snake : list pos :=
  flat_map (fun y => if Nat.even y then grid_row (Z.of_nat y)
                     else rev (grid_row (Z.of_nat y)))
           (seq 0 (Z.to_nat GRID_HEIGHT)).

(** The cell a tick tries to move the head to: the head plus the direction
    committed on this tick. *)
Definition attempted_head (g : game) (head : pos) : pos :=
  (fst head + fst (V1.commit_direction g), snd head + snd (V1.commit_direction g)).

(** A snake coiled in a square, its head just under its tail; the player has
    asked to go up. *)
Definition coiled_game : game :=
  mkGame [(5, 5); (6, 5); (6, 6); (5, 6)] (-1, 0) (0, -1) (0, 0) 0 false.

(** The additive inverse of a direction. *)
Definition opposite (d : pos) : pos := (- fst d, - snd d).

(** The direction a key asks for, if it is a directional key. *)
Definition key_direction (k : key) : option pos :=
  match k with
  | K_UP | K_w => Some (0, -1)
  | K_DOWN | K_s => Some (0, 1)
  | K_LEFT | K_a => Some (-1, 0)
  | K_RIGHT | K_d => Some (1, 0)
  | _ => None
  end.

Definition event_direction (ev : event) : option pos :=
  match ev with
  | KEYDOWN k => key_direction k
  | _ => None
  end.

(** The direction of the last directional key of a batch. *)
Fixpoint last_direction_key (evs : list event) : option pos :=
  match evs with
  | [] => None
  | ev :: rest =>
      match last_direction_key rest with
      | Some d => Some d
      | None => event_direction ev
      end
  end.

(** The events of a batch that do not ask for the reverse of [d]. *)
Definition not_reversing (d : pos) (evs : list event) : list event :=
  filter (fun ev => match event_direction ev with
                    | Some d' => negb (pos_eqb d (opposite d'))
                    | None => true
                    end) evs.

(** Snake, food and score of [g'] are those of [g]. *)
Definition same_board (g g' : game) : Prop :=
  snake g' = snake g /\ food g' = food g /\ score g' = score g.

(** ** The real number a float stands for *)

Abbreviation bpow e := (powerRZ 2 e).

Definition SF2R (x : spec_float) : R :=
  match x with
  | S754_finite s m e => (IZR (cond_Zopp s (Zpos m)) * bpow e)%R
  | _ => 0%R
  end.

Definition SF_finite (x : spec_float) : bool :=
  match x with
  | S754_zero _ | S754_finite _ _ _ => true
  | _ => false
  end.

Definition float_value (x : float) : R := SF2R (Prim2SF x).
Definition float_finite (x : float) : bool := SF_finite (Prim2SF x).

(** A slack that covers every rounding error met below: [2^-40]. *)
Definition eps : R := (/ 1099511627776)%R.


(** * Notions for the further properties *)

(** One of the four moves of the grid. *)
Definition unit_direction (d : pos) : Prop :=
  d = (0, -1) \/ d = (0, 1) \/ d = (-1, 0) \/ d = (1, 0).

(** Two cells side by side: at Manhattan distance 1. *)
Definition adjacent (p q : pos) : Prop :=
  Z.abs (fst p - fst q) + Z.abs (snd p - snd q) = 1.

(** Every segment touches the next one. *)
Fixpoint connected (l : list pos) : Prop :=
  match l with
  | p :: (q :: _) as rest => adjacent p q /\ connected rest
  | _ => True
  end.

(** No cell twice, as a test. *)
Fixpoint distinct (l : list pos) : bool :=
  match l with
  | [] => true
  | p :: rest => negb (contains p rest) && distinct rest
  end.

(** What holds of the game variables throughout a run; [n0] is the length of
    the snake the game starts with. *)
Definition game_invariant (n0 : Z) (g : game) : Prop :=
  Z.of_nat (length (snake g)) = score g + n0
  /\ 0 <= score g
  /\ in_grid (food g) = true
  /\ ~ In (food g) (snake g)
  /\ unit_direction (direction g)
  /\ unit_direction (next_direction g)
  /\ connected (snake g)
  /\ (game_over g = false ->
      exists l neck head,
        snake g = l ++ [neck; head]
        /\ head = (fst neck + fst (direction g), snd neck + snd (direction g))).

(** A snake one cell short of the whole grid, about to eat in the last free
    cell. *)
Definition last_bite_game : game :=
  mkGame (removelast full_snake) (-1, 0) (-1, 0) (0, 29) 896 false.

(** ** Drawing, the same [draw_cell] in both files

    A surface is the list of the rectangles drawn on it, each with its
    colour; a [pygame.Rect] is (left, top, width, height). *)

Definition color : Type := (Z * Z * Z)%type.
Definition rect : Type := (Z * Z * Z * Z)%type.

Definition GREEN : color := (0, 150, 0).
Definition DARK_GREEN : color := (0, 120, 0).
Definition RED : color := (200, 25, 0).

(** The fields of a [pygame.Rect] are C ints.  An integer argument goes
    through a C long (64 bits) and keeps its low 32 bits, as a signed number;
    one that does not fit the C long is refused, and the constructor raises
    TypeError ([None]). *)
Definition c_int (z : Z) : option Z :=
  if (- 2 ^ 63 <=? z) && (z <? 2 ^ 63)
  then Some ((z + 2 ^ 31) mod 2 ^ 32 - 2 ^ 31)
  else None.

Definition Rect (left top width height : Z) : option rect :=
  match c_int left, c_int top, c_int width, c_int height with
  | Some l, Some t, Some w, Some h => Some (l, t, w, h)
  | _, _, _, _ => None
  end.

(** [pygame.Rect(pos[0] * CELL_SIZE, pos[1] * CELL_SIZE, CELL_SIZE, CELL_SIZE)]. *)
Definition cell_rect (p : pos) : option rect :=
  Rect (fst p * CELL_SIZE) (snd p * CELL_SIZE) CELL_SIZE CELL_SIZE.

(** [draw_cell(surface, pos, color)]. *)
Definition draw_cell (surface : list (rect * color)) (p : pos) (c : color)
    : option (list (rect * color)) :=
  match cell_rect p with
  | Some r => Some (surface ++ [(r, c)])
  | None => None
  end.

(** [for i, part in enumerate(snake)]: the head colour for the last index,
    [body] for the others; [n] is [len(snake)]. *)
Fixpoint draw_parts (body : color) (n : nat) (surface : list (rect * color))
    (i : nat) (parts : list pos) : option (list (rect * color)) :=
  match parts with
  | [] => Some surface
  | part :: rest =>
      let c := if Z.of_nat i =? Z.of_nat n - 1 then GREEN else body in
      match draw_cell surface part c with
      | Some surface' => draw_parts body n surface' (S i) rest
      | None => None
      end
  end.

(** Lines 152-155 of [super_snake.py]: the food, then the snake, on the
    window itself. *)
Definition draw_scene_V1 (screen : list (rect * color)) (g : game)
    : option (list (rect * color)) :=
  match draw_cell screen (food g) RED with
  | Some screen' => draw_parts (0, 160, 0) (length (snake g)) screen' 0 (snake g)
  | None => None
  end.

(** Lines 227-230 of [super_snake_V1.1.py]: the same on [game_surf], the
    600 x 600 surface that line 245 then copies to the window at the shake
    offset. *)
Definition draw_scene_V11 (game_surf : list (rect * color)) (g : game)
    : option (list (rect * color)) :=
  match draw_cell game_surf (food g) RED with
  | Some game_surf' => draw_parts DARK_GREEN (length (snake g)) game_surf' 0 (snake g)
  | None => None
  end.

(** The pixel (px, py) lies in the rectangle. *)
Definition rect_covers (r : rect) (px py : Z) : Prop :=
  let '(x0, y0, w, h) := r in
  x0 <= px < x0 + w /\ y0 <= py < y0 + h.

(** The square of side [CELL_SIZE] whose corner is [CELL_SIZE] times the
    cell. *)
Definition cell_square (p : pos) : rect :=
  (fst p * CELL_SIZE, snd p * CELL_SIZE, CELL_SIZE, CELL_SIZE).

(** The game and the state each file starts with when the first two draws
    of the random source are 0. *)
Definition V1_first_game : game :=
  mkGame [(17, 15); (16, 15); (15, 15)] (-1, 0) (-1, 0) (0, 0) 0 false.

Definition V11_first_state : V11.state :=
  V11.mkState (mkGame [(14, 15); (15, 15)] (1, 0) (1, 0) (0, 0) 0 false) 0%float.

(** ** Playing: key presses and ticks, one after the other *)

Inductive move : Type :=
| Press (k : key)
| Tick.

Fixpoint V1_play (fuel : nat) (rng : entropy) (moves : list move) (k : nat) (g : game)
    : result (game * nat) :=
  match moves with
  | [] => Done (g, k)
  | Press key :: rest =>
      '(_, g', k') <- V1.on_event fuel rng (KEYDOWN key) k g ;;
      V1_play fuel rng rest k' g'
  | Tick :: rest =>
      '(g', k') <- V1.update fuel rng k g ;;
      V1_play fuel rng rest k' g'
  end.

Fixpoint V11_play (fuel : nat) (rng : entropy) (moves : list move) (k : nat)
    (s : V11.state) : result (V11.state * nat) :=
  match moves with
  | [] => Done (s, k)
  | Press key :: rest =>
      '(g', k') <- V11.on_event fuel rng (KEYDOWN key) k (V11.the_game s) ;;
      V11_play fuel rng rest k' (V11.mkState g' (V11.shake_time s))
  | Tick :: rest =>
      '(s', k') <- V11.update fuel rng k s ;;
      V11_play fuel rng rest k' s'
  end.

(** A random source whose draws are the cells of [cells], one after the
    other. *)
Definition draws_of (cells : list pos) : entropy :=
  fun n => let c := nth (Nat.div2 n) cells (0, 0) in
           if Nat.even n then fst c else snd c.

(** A game of [super_snake.py] after one bite: the snake has coiled in a
    square, its head just above its tail, and the player has asked to go
    down.  The moves that lead there from the start, the first food being
    drawn at (14, 15) and the second at (0, 0). *)
Definition V1_coiled_game : game :=
  mkGame [(15, 15); (14, 15); (14, 14); (15, 14)] (1, 0) (0, 1) (0, 0) 1 false.

Definition V1_coil_moves : list move :=
  [Tick; Press K_UP; Tick; Press K_RIGHT; Tick; Press K_DOWN].

(** The like in V1.1, after two bites (food drawn at (16, 15), (16, 14) and
    then (0, 0)). *)
Definition V11_coiled_state : V11.state :=
  V11.mkState (mkGame [(15, 15); (16, 15); (16, 14); (15, 14)] (-1, 0) (0, 1) (0, 0) 2 false)
              V11.SHAKE_DURATION.

Definition V11_coil_moves : list move :=
  [Tick; Press K_UP; Tick; Press K_LEFT; Tick; Press K_DOWN].

(** The keys and ticks that take the head along the rows of the grid, from
    (0, 0) to (1, 29). *)
Definition sweep_rows : list move :=
  flat_map (fun y =>
              Press (if Nat.even y then K_RIGHT else K_LEFT)
              :: repeat Tick (if (y =? 29)%nat then 28 else 29)
              ++ (if (y =? 29)%nat then [] else [Press K_DOWN; Tick]))
           (seq 0 30).

(** From the start of [super_snake.py] to the corner (0, 0), then along the
    rows; the food is drawn each time in the next cell of the way. *)
Definition V1_last_bite_moves : list move :=
  repeat Tick 15 ++ Press K_UP :: repeat Tick 15 ++ sweep_rows.

(** The like in V1.1, and the state it ends in. *)
Definition V11_last_bite_moves : list move :=
  Press K_UP :: Tick :: Press K_LEFT :: repeat Tick 15
  ++ Press K_UP :: repeat Tick 14 ++ sweep_rows.

Definition V11_last_bite_state : V11.state :=
  V11.mkState (mkGame (removelast full_snake) (-1, 0) (-1, 0) (0, 29) 897 false)
              V11.SHAKE_DURATION.

(** Two cursors that are equal up to arithmetic give the same draw. *)
Ltac same_draw H :=
  match goal with
  | |- In (food_draw ?r ?a) ?s =>
      match type of H with
      | In (food_draw r ?b) s => replace a with b by lia; exact H
      end
  | |- ~ In (food_draw ?r ?a) ?s =>
      match type of H with
      | ~ In (food_draw r ?b) s => replace a with b by lia; exact H
      end
  | |- ?p = food_draw ?r ?a =>
      match type of H with
      | p = food_draw r ?b => replace a with b by lia; exact H
      end
  end.

(** * Basic facts on positions, lists and results *)

Lemma pos_eqb_eq (p q : pos) : pos_eqb p q = true <-> p = q.
Proof.
  destruct p as [px py], q as [qx qy]; unfold pos_eqb; simpl.
  rewrite andb_true_iff, !Z.eqb_eq.
  split; [intros [-> ->]; reflexivity | intros H; inversion H; auto].
Qed.

Lemma pos_eqb_refl (p : pos) : pos_eqb p p = true.
Proof. apply pos_eqb_eq; reflexivity. Qed.

Lemma pos_eqb_neq (p q : pos) : pos_eqb p q = false <-> p <> q.
Proof.
  rewrite <- pos_eqb_eq. destruct (pos_eqb p q); split; congruence.
Qed.

Lemma contains_In (p : pos) (l : list pos) : contains p l = true <-> In p l.
Proof.
  unfold contains. rewrite existsb_exists. split.
  - intros [q [Hq Heq]]. apply pos_eqb_eq in Heq. subst; assumption.
  - intros H. exists p. split; [assumption | apply pos_eqb_refl].
Qed.

Lemma contains_not_In (p : pos) (l : list pos) : contains p l = false <-> ~ In p l.
Proof.
  rewrite <- contains_In. destruct (contains p l); split; congruence.
Qed.

Lemma last_segment_app (l : list pos) (p : pos) : last_segment (l ++ [p]) = Some p.
Proof.
  induction l as [|q l IH]; simpl; [reflexivity|].
  destruct (l ++ [p]) eqn:E; [destruct l; discriminate | exact IH].
Qed.

Lemma last_segment_In (l : list pos) (p : pos) : last_segment l = Some p -> In p l.
Proof.
  induction l as [|q l IH]; simpl; [discriminate|].
  destruct l as [|q' l'].
  - intros H; inversion H; auto.
  - intros H; right; apply IH; exact H.
Qed.

Lemma last_segment_tl_app (l : list pos) (p : pos) :
  l <> [] -> last_segment (tl (l ++ [p])) = Some p.
Proof.
  destruct l as [|q l]; [congruence|]. intros _. simpl. apply last_segment_app.
Qed.

Lemma last_segment_nonempty (l : list pos) (p : pos) : last_segment l = Some p -> l <> [].
Proof. destruct l; simpl; congruence. Qed.

Lemma randint_range (a b raw : Z) : a <= b -> a <= randint a b raw <= b.
Proof.
  intros H. unfold randint.
  pose proof (Z.mod_pos_bound raw (b - a + 1)). lia.
Qed.

Lemma in_grid_spec (p : pos) :
  in_grid p = true <-> 0 <= fst p < GRID_WIDTH /\ 0 <= snd p < GRID_HEIGHT.
Proof.
  unfold in_grid. rewrite !andb_true_iff, !Z.leb_le, !Z.ltb_lt. tauto.
Qed.

(** ** The two collision tests and the two food samplers coincide *)

Lemma V1_collides_spec (new_head : pos) (snake : list pos) :
  V1.collides new_head snake = negb (in_grid new_head) || contains new_head snake.
Proof.
  unfold V1.collides, in_grid.
  destruct (_ && _); simpl; [destruct (contains _ _)|]; reflexivity.
Qed.

Lemma V11_collides_spec (new_head : pos) (snake : list pos) :
  V11.collides new_head snake = negb (in_grid new_head) || contains new_head snake.
Proof.
  unfold V11.collides, in_grid.
  destruct (contains new_head snake), ((0 <=? fst new_head) && (fst new_head <? GRID_WIDTH)),
    ((0 <=? snd new_head) && (snd new_head <? GRID_HEIGHT)); reflexivity.
Qed.

Lemma collides_false_iff (new_head : pos) (snake : list pos) :
  V1.collides new_head snake = false <-> in_grid new_head = true /\ ~ In new_head snake.
Proof.
  rewrite V1_collides_spec, orb_false_iff, negb_false_iff, contains_not_In. tauto.
Qed.

Lemma collides_true_iff (new_head : pos) (snake : list pos) :
  V1.collides new_head snake = true <-> in_grid new_head = false \/ In new_head snake.
Proof.
  rewrite V1_collides_spec, orb_true_iff, negb_true_iff, contains_In. tauto.
Qed.

Lemma random_food_same fuel rng k snake :
  V11.random_food fuel rng k snake = V1.random_food_position fuel rng k snake.
Proof.
  revert k. induction fuel as [|fuel IH]; intros k; simpl; [reflexivity|].
  rewrite IH. reflexivity.
Qed.

Lemma commit_direction_same g : V11.commit_direction g = V1.commit_direction g.
Proof. reflexivity. Qed.

(** The tick of V1.1 is the tick of the first file, followed by the reset of
    [shake_time] when the snake has eaten. *)
Lemma V11_update_as_V1 fuel rng k (s : V11.state) :
  V11.update fuel rng k s =
  '(g', k') <- V1.update fuel rng k (V11.the_game s) ;;
  Done (V11.mkState g'
          (if score g' =? score (V11.the_game s) then V11.shake_time s
           else V11.SHAKE_DURATION), k').
Proof.
  destruct s as [g st]. unfold V11.update, V1.update. simpl.
  destruct (game_over g); simpl.
  - rewrite Z.eqb_refl. reflexivity.
  - rewrite commit_direction_same.
    destruct (last_segment (snake g)) as [[hx hy]|]; [|reflexivity].
    rewrite V11_collides_spec, <- V1_collides_spec.
    destruct (V1.collides _ _); simpl.
    + rewrite Z.eqb_refl. reflexivity.
    + destruct (pos_eqb _ (food g)); simpl.
      * rewrite random_food_same.
        destruct (V1.random_food_position _ _ _ _) as [[p k']| | |]; simpl; try reflexivity.
        replace (score g + 1 =? score g) with false by (symmetry; apply Z.eqb_neq; lia).
        reflexivity.
      * rewrite Z.eqb_refl. reflexivity.
Qed.

(** * Food placement *)

Lemma food_draw_in_grid rng k : in_grid (food_draw rng k) = true.
Proof.
  apply in_grid_spec. unfold food_draw. cbn [fst snd].
  pose proof (randint_range 0 (GRID_WIDTH - 1) (rng k)).
  pose proof (randint_range 0 (GRID_HEIGHT - 1) (rng (S k))).
  unfold GRID_WIDTH, GRID_HEIGHT in *. lia.
Qed.

Lemma random_food_position_unfold fuel rng k snake :
  V1.random_food_position (S fuel) rng k snake =
  if negb (contains (food_draw rng k) snake) then Done (food_draw rng k, S (S k))
  else V1.random_food_position fuel rng (S (S k)) snake.
Proof. reflexivity. Qed.

(** What the sampler returns is a free cell of the grid. *)
Lemma random_food_position_sound fuel rng snake : forall k p k',
  V1.random_food_position fuel rng k snake = Done (p, k') ->
  in_grid p = true /\ ~ In p snake.
Proof.
  induction fuel as [|fuel IH]; intros k p k' H; [discriminate|].
  rewrite random_food_position_unfold in H.
  destruct (contains (food_draw rng k) snake) eqn:E; simpl in H.
  - eapply IH; eassumption.
  - inversion H; subst. split; [apply food_draw_in_grid | apply contains_not_In; exact E].
Qed.

(** The sampler never raises and never ends the process. *)
Lemma random_food_position_outcome fuel rng snake : forall k,
  V1.random_food_position fuel rng k snake = Timeout \/
  exists p k', V1.random_food_position fuel rng k snake = Done (p, k').
Proof.
  induction fuel as [|fuel IH]; intros k; [left; reflexivity|].
  rewrite random_food_position_unfold.
  destruct (contains (food_draw rng k) snake); simpl; [apply IH | right; eauto].
Qed.

(** It returns as soon as a draw is free: the draw number [n] (from 0) is
    reached with fuel above [n]. *)
Lemma random_food_position_complete rng snake : forall n fuel k,
  (n < fuel)%nat ->
  ~ In (food_draw rng (k + 2 * n)) snake ->
  exists p k', V1.random_food_position fuel rng k snake = Done (p, k').
Proof.
  induction n as [|n IH]; intros fuel k Hlt Hfree.
  - destruct fuel as [|fuel]; [lia|].
    rewrite random_food_position_unfold.
    replace (k + 2 * 0)%nat with k in Hfree by lia.
    apply contains_not_In in Hfree. rewrite Hfree. simpl. eauto.
  - destruct fuel as [|fuel]; [lia|].
    rewrite random_food_position_unfold.
    destruct (contains (food_draw rng k) snake); simpl; [|eauto].
    apply IH; [lia|].
    replace (S (S k) + 2 * n)%nat with (k + 2 * S n)%nat by lia. exact Hfree.
Qed.

(** With no free cell the loop goes on whatever the fuel. *)
Lemma random_food_position_full rng snake :
  (forall p, in_grid p = true -> In p snake) ->
  forall fuel k, V1.random_food_position fuel rng k snake = Timeout.
Proof.
  intros Hfull. induction fuel as [|fuel IH]; intros k; [reflexivity|].
  rewrite random_food_position_unfold.
  pose proof (Hfull _ (food_draw_in_grid rng k)) as Hin.
  apply contains_In in Hin. rewrite Hin. simpl. apply IH.
Qed.

Lemma full_snake_covers_grid (p : pos) : in_grid p = true -> In p full_snake.
Proof.
  intros H. apply in_grid_spec in H. destruct p as [x y]. simpl in H.
  unfold GRID_WIDTH, GRID_HEIGHT in H.
  unfold full_snake. apply in_flat_map.
  exists (Z.to_nat y). split.
  - apply in_seq. unfold GRID_HEIGHT. simpl. lia.
  - assert (Hrow : In (x, y) (grid_row (Z.of_nat (Z.to_nat y)))).
    { unfold grid_row. apply in_map_iff. exists (Z.to_nat x). split.
      - f_equal; lia.
      - apply in_seq. unfold GRID_WIDTH. simpl. lia. }
    destruct (Nat.even (Z.to_nat y)); [exact Hrow | apply in_rev; rewrite rev_involutive; exact Hrow].
Qed.

(** * One tick *)

(** The tick of a game in play, case by case. *)
Lemma update_playing fuel rng k g head :
  game_over g = false ->
  last_segment (snake g) = Some head ->
  V1.update fuel rng k g =
  let d := V1.commit_direction g in
  let nh := attempted_head g head in
  if V1.collides nh (snake g) then
    Done (mkGame (snake g) d (next_direction g) (food g) (score g) true, k)
  else if pos_eqb nh (food g) then
    '(food', k') <- V1.random_food_position fuel rng k (snake g ++ [nh]) ;;
    Done (mkGame (snake g ++ [nh]) d (next_direction g) food' (score g + 1) false, k')
  else
    Done (mkGame (tl (snake g ++ [nh])) d (next_direction g) (food g) (score g) false, k).
Proof.
  intros Hplay Hhead. unfold V1.update, attempted_head.
  rewrite Hplay, Hhead. destruct head as [hx hy]. reflexivity.
Qed.

Lemma update_game_over fuel rng k g :
  game_over g = true -> V1.update fuel rng k g = Done (g, k).
Proof. intros H. unfold V1.update. rewrite H. reflexivity. Qed.

Lemma update_collision fuel rng k g head :
  game_over g = false ->
  last_segment (snake g) = Some head ->
  V1.collides (attempted_head g head) (snake g) = true ->
  V1.update fuel rng k g =
  Done (mkGame (snake g) (V1.commit_direction g) (next_direction g) (food g) (score g) true, k).
Proof.
  intros Hplay Hhead Hcol. rewrite (update_playing _ _ _ _ head Hplay Hhead).
  cbv zeta. rewrite Hcol. reflexivity.
Qed.

Lemma update_move fuel rng k g head :
  game_over g = false ->
  last_segment (snake g) = Some head ->
  V1.collides (attempted_head g head) (snake g) = false ->
  attempted_head g head <> food g ->
  V1.update fuel rng k g =
  Done (mkGame (tl (snake g ++ [attempted_head g head])) (V1.commit_direction g)
               (next_direction g) (food g) (score g) false, k).
Proof.
  intros Hplay Hhead Hcol Hfood. rewrite (update_playing _ _ _ _ head Hplay Hhead).
  cbv zeta. rewrite Hcol. apply pos_eqb_neq in Hfood. rewrite Hfood. reflexivity.
Qed.

Lemma update_eat fuel rng k g head :
  game_over g = false ->
  last_segment (snake g) = Some head ->
  V1.collides (attempted_head g head) (snake g) = false ->
  attempted_head g head = food g ->
  V1.update fuel rng k g =
  '(food', k') <- V1.random_food_position fuel rng k (snake g ++ [attempted_head g head]) ;;
  Done (mkGame (snake g ++ [attempted_head g head]) (V1.commit_direction g)
               (next_direction g) food' (score g + 1) false, k').
Proof.
  intros Hplay Hhead Hcol Hfood. rewrite (update_playing _ _ _ _ head Hplay Hhead).
  cbv zeta. rewrite Hcol. apply pos_eqb_eq in Hfood. rewrite Hfood. reflexivity.
Qed.

Lemma length_tl_app (l : list pos) (p : pos) : length (tl (l ++ [p])) = length l.
Proof. destruct l; simpl; [reflexivity | rewrite length_app; simpl; lia]. Qed.

(** ** States reached by play *)

Lemma V1_play_reachable fuel rng moves : forall k g g' k',
  V1.reachable g -> V1_play fuel rng moves k g = Done (g', k') -> V1.reachable g'.
Proof.
  induction moves as [|m moves IH]; intros k g g' k' Hg H.
  - inversion H; subst; assumption.
  - destruct m as [key|]; cbn [V1_play] in H.
    + destruct (V1.on_event fuel rng (KEYDOWN key) k g) as [[[running g1] k1]| | |] eqn:E;
        simpl in H; try discriminate.
      eapply IH; [|exact H]. eapply V1.reach_event; eassumption.
    + destruct (V1.update fuel rng k g) as [[g1 k1]| | |] eqn:E; simpl in H;
        try discriminate.
      eapply IH; [|exact H]. eapply V1.reach_update; eassumption.
Qed.

Lemma V11_play_reachable fuel rng moves : forall k s s' k',
  V11.reachable s -> V11_play fuel rng moves k s = Done (s', k') -> V11.reachable s'.
Proof.
  induction moves as [|m moves IH]; intros k s s' k' Hs H.
  - inversion H; subst; assumption.
  - destruct m as [key|]; cbn [V11_play] in H.
    + destruct (V11.on_event fuel rng (KEYDOWN key) k (V11.the_game s))
        as [[g1 k1]| | |] eqn:E; simpl in H; try discriminate.
      eapply IH; [|exact H]. eapply V11.reach_event; eassumption.
    + destruct (V11.update fuel rng k s) as [[s1 k1]| | |] eqn:E; simpl in H;
        try discriminate.
      eapply IH; [|exact H]. eapply V11.reach_update; eassumption.
Qed.

Lemma V1_coiled_game_reachable : V1.reachable V1_coiled_game.
Proof.
  apply (V1_play_reachable 1 (draws_of [(14, 15); (0, 0)]) V1_coil_moves 2%nat
           (mkGame [(17, 15); (16, 15); (15, 15)] (-1, 0) (-1, 0) (14, 15) 0 false)
           V1_coiled_game 4%nat).
  - apply (V1.reach_init 1 (draws_of [(14, 15); (0, 0)]) 0%nat _ 2%nat). reflexivity.
  - reflexivity.
Qed.

Lemma V11_coiled_state_reachable : V11.reachable V11_coiled_state.
Proof.
  apply (V11_play_reachable 1 (draws_of [(16, 15); (16, 14); (0, 0)]) V11_coil_moves 2%nat
           (V11.mkState (mkGame [(14, 15); (15, 15)] (1, 0) (1, 0) (16, 15) 0 false) 0%float)
           V11_coiled_state 6%nat).
  - apply (V11.reach_init 1 (draws_of [(16, 15); (16, 14); (0, 0)]) 0%nat _ 2%nat).
    reflexivity.
  - reflexivity.
Qed.

Lemma V1_last_bite_reachable : V1.reachable last_bite_game.
Proof.
  apply (V1_play_reachable 1 (draws_of (skipn 3 full_snake)) V1_last_bite_moves 2%nat
           (mkGame [(17, 15); (16, 15); (15, 15)] (-1, 0) (-1, 0) (3, 0) 0 false)
           last_bite_game 1794%nat).
  - apply (V1.reach_init 1 (draws_of (skipn 3 full_snake)) 0%nat _ 2%nat).
    vm_compute. reflexivity.
  - vm_compute. reflexivity.
Qed.

Lemma V11_last_bite_reachable : V11.reachable V11_last_bite_state.
Proof.
  apply (V11_play_reachable 1 (draws_of (skipn 2 full_snake)) V11_last_bite_moves 2%nat
           (V11.mkState (mkGame [(14, 15); (15, 15)] (1, 0) (1, 0) (2, 0) 0 false) 0%float)
           V11_last_bite_state 1796%nat).
  - apply (V11.reach_init 1 (draws_of (skipn 2 full_snake)) 0%nat _ 2%nat).
    vm_compute. reflexivity.
  - vm_compute. reflexivity.
Qed.

(** ** C9 *)

(** C9.  The collision test of [super_snake.py] (walls first, then the snake)
    and the one of [super_snake_V1.1.py] (the snake first, then the walls)
    give the same flag for every snake, every head, every direction and the
    new head computed from them; the snake need not even lie on the grid. *)
Theorem collision_tests_agree :
  forall (snake : list pos) (head direction : pos),
    let new_head := (fst head + fst direction, snd head + snd direction) in
    V1.collides new_head snake = V11.collides new_head snake.
Proof.
  intros snake head direction new_head.
  rewrite V1_collides_spec, V11_collides_spec. reflexivity.
Qed.

(** ** C1 *)

(** C1 (as amended).  A tick whose attempted head is the cell of the tail
    segment is a collision like any other occupied cell: the membership test
    runs on the whole snake before anything is removed, so the game is over
    and snake, food and score are left as they were.  Both files agree. *)
Theorem tail_cell_move_is_collision :
  forall fuel rng k (g : game) (st : float) (head tail : pos) (rest : list pos),
    game_over g = false ->
    snake g = tail :: rest ->
    last_segment (snake g) = Some head ->
    attempted_head g head = tail ->
    V1.update fuel rng k g =
      Done (mkGame (snake g) (V1.commit_direction g) (next_direction g)
                   (food g) (score g) true, k)
    /\ V11.update fuel rng k (V11.mkState g st) =
      Done (V11.mkState (mkGame (snake g) (V1.commit_direction g) (next_direction g)
                                (food g) (score g) true) st, k).
Proof.
  intros fuel rng k g st head tail rest Hplay Hsnake Hhead Htail.
  assert (Hcol : V1.collides (attempted_head g head) (snake g) = true).
  { apply collides_true_iff. right. rewrite Htail, Hsnake. left; reflexivity. }
  pose proof (update_collision fuel rng k g head Hplay Hhead Hcol) as H1.
  split; [exact H1|].
  rewrite V11_update_as_V1. cbn [V11.the_game V11.shake_time].
  rewrite H1. cbn. rewrite Z.eqb_refl. reflexivity.
Qed.

Lemma tail_cell_move_is_collision_witness :
  V1.update 1 (fun _ => 0) 0 V1_coiled_game =
    Done (mkGame [(15, 15); (14, 15); (14, 14); (15, 14)] (0, 1) (0, 1) (0, 0) 1 true, 0%nat)
  /\ V11.update 1 (fun _ => 0) 0 V11_coiled_state =
    Done (V11.mkState (mkGame [(15, 15); (16, 15); (16, 14); (15, 14)] (0, 1) (0, 1) (0, 0)
                              2 true)
                      V11.SHAKE_DURATION, 0%nat).
Proof.
  split.
  - apply (proj1 (tail_cell_move_is_collision 1 (fun _ => 0) 0%nat V1_coiled_game 0%float
                    (15, 14) (15, 15) [(14, 15); (14, 14); (15, 14)]
                    eq_refl eq_refl eq_refl eq_refl)).
  - apply (proj2 (tail_cell_move_is_collision 1 (fun _ => 0) 0%nat
                    (V11.the_game V11_coiled_state) V11.SHAKE_DURATION
                    (15, 14) (15, 15) [(16, 15); (16, 14); (15, 14)]
                    eq_refl eq_refl eq_refl eq_refl)).
Defined.

(** C1, the claim as worded fails, in each file on a game reached by play.
    In [super_snake.py] the snake has eaten once and coiled: its head (15,14)
    is asked to go down into (15,15), the cell its tail occupies; the food is
    elsewhere, at (0,0); the tick ends the game instead of advancing the
    snake.  The same in V1.1 after two bites. *)
Lemma tail_cell_move_ends_the_game :
  (V1.reachable V1_coiled_game
   /\ hd_error (snake V1_coiled_game) = Some (15, 15)
   /\ last_segment (snake V1_coiled_game) = Some (15, 14)
   /\ attempted_head V1_coiled_game (15, 14) = (15, 15)
   /\ food V1_coiled_game <> (15, 15)
   /\ game_over V1_coiled_game = false
   /\ exists g', V1.update 1 (fun _ => 0) 0 V1_coiled_game = Done (g', 0%nat)
                 /\ game_over g' = true /\ snake g' = snake V1_coiled_game)
  /\ (V11.reachable V11_coiled_state
      /\ hd_error (snake (V11.the_game V11_coiled_state)) = Some (15, 15)
      /\ last_segment (snake (V11.the_game V11_coiled_state)) = Some (15, 14)
      /\ attempted_head (V11.the_game V11_coiled_state) (15, 14) = (15, 15)
      /\ food (V11.the_game V11_coiled_state) <> (15, 15)
      /\ game_over (V11.the_game V11_coiled_state) = false
      /\ exists s', V11.update 1 (fun _ => 0) 0 V11_coiled_state = Done (s', 0%nat)
                    /\ game_over (V11.the_game s') = true
                    /\ snake (V11.the_game s') = snake (V11.the_game V11_coiled_state)).
Proof.
  split.
  - split; [exact V1_coiled_game_reachable|].
    repeat split; try reflexivity; try discriminate.
    eexists; repeat split; reflexivity.
  - split; [exact V11_coiled_state_reachable|].
    repeat split; try reflexivity; try discriminate.
    eexists; repeat split; reflexivity.
Qed.

(** ** C4 *)

Lemma opposite_involutive (d : pos) : opposite (opposite d) = d.
Proof. destruct d as [x y]; unfold opposite; simpl; f_equal; lia. Qed.


Lemma commit_direction_other (g : game) :
  next_direction g <> opposite (direction g) -> V1.commit_direction g = next_direction g.
Proof.
  intros H. unfold V1.commit_direction.
  destruct (pos_eqb _ (direction g)) eqn:E; [|reflexivity].
  apply pos_eqb_eq in E. exfalso. apply H. rewrite <- E.
  destruct (next_direction g) as [x y]. unfold opposite. simpl. f_equal; lia.
Qed.



(** ** C2 *)

(** The tick of V1.1 returns exactly when the tick of the first file does, and
    with the same game. *)
Lemma V11_update_game fuel rng k g st :
  (forall s' k', V11.update fuel rng k (V11.mkState g st) = Done (s', k') ->
     V1.update fuel rng k g = Done (V11.the_game s', k'))
  /\ (forall g' k', V1.update fuel rng k g = Done (g', k') ->
     exists st', V11.update fuel rng k (V11.mkState g st) = Done (V11.mkState g' st', k')).
Proof.
  split.
  - intros s' k' H. rewrite V11_update_as_V1 in H. cbn [V11.the_game] in H.
    destruct (V1.update fuel rng k g) as [[g1 k1]| | |]; simpl in H; try discriminate.
    inversion H; subst. reflexivity.
  - intros g' k' H. rewrite V11_update_as_V1. cbn [V11.the_game].
    rewrite H. simpl. eauto.
Qed.

(** The sampler returns exactly when one of the draws the fuel allows is
    free. *)
Lemma random_food_position_returns fuel rng snake : forall k,
  (exists p k', V1.random_food_position fuel rng k snake = Done (p, k')) <->
  (exists n, (n < fuel)%nat /\ ~ In (food_draw rng (k + 2 * n)) snake).
Proof.
  split.
  - revert k. induction fuel as [|fuel IH]; intros k [p [k' H]]; [discriminate|].
    rewrite random_food_position_unfold in H.
    destruct (contains (food_draw rng k) snake) eqn:E; simpl in H.
    + destruct (IH (S (S k)) (ex_intro _ p (ex_intro _ k' H))) as [n [Hn Hfree]].
      exists (S n). split; [lia|].
      replace (k + 2 * S n)%nat with (S (S k) + 2 * n)%nat by lia. exact Hfree.
    + exists 0%nat. split; [lia|].
      replace (k + 2 * 0)%nat with k by lia. apply contains_not_In. exact E.
  - intros [n [Hn Hfree]]. eapply random_food_position_complete; eassumption.
Qed.

(** A bite after which the snake covers the grid: the sampler has no cell to
    return, and neither tick completes. *)
Lemma full_grid_bite_times_out fuel rng k g st head :
  game_over g = false ->
  last_segment (snake g) = Some head ->
  V1.collides (attempted_head g head) (snake g) = false ->
  attempted_head g head = food g ->
  (forall p, in_grid p = true -> In p (snake g ++ [attempted_head g head])) ->
  V1.update fuel rng k g = Timeout
  /\ V11.update fuel rng k (V11.mkState g st) = Timeout.
Proof.
  intros Hplay Hhead Hcol Hfood Hfull.
  pose proof (update_eat fuel rng k g head Hplay Hhead Hcol Hfood) as H1.
  rewrite (random_food_position_full rng _ Hfull) in H1. simpl in H1.
  split; [exact H1|].
  rewrite V11_update_as_V1. cbn [V11.the_game]. rewrite H1. reflexivity.
Qed.

Lemma last_bite_covers_grid (p : pos) :
  in_grid p = true ->
  In p (snake last_bite_game ++ [attempted_head last_bite_game (1, 29)])
  /\ In p (snake (V11.the_game V11_last_bite_state)
             ++ [attempted_head (V11.the_game V11_last_bite_state) (1, 29)]).
Proof.
  intros Hp.
  replace (snake last_bite_game ++ [attempted_head last_bite_game (1, 29)])
    with full_snake by (vm_compute; reflexivity).
  replace (snake (V11.the_game V11_last_bite_state)
             ++ [attempted_head (V11.the_game V11_last_bite_state) (1, 29)])
    with full_snake by (vm_compute; reflexivity).
  split; apply full_snake_covers_grid; exact Hp.
Qed.

(** C2, the claim as worded fails on the bite that fills the grid.  Each file
    reaches by play a game whose snake holds 899 cells, all but (0, 29), with
    the food on that cell and the head next to it, heading there.  The tick
    is in play and passes the collision test, so the claim has it append the
    head and draw a new food; but the grown snake covers the grid, the
    sampler finds no cell, and the tick never returns: not with any fuel, not
    with any random source. *)
Lemma grid_filling_tick_never_returns :
  (V1.reachable last_bite_game
   /\ game_over last_bite_game = false
   /\ last_segment (snake last_bite_game) = Some (1, 29)
   /\ V1.collides (attempted_head last_bite_game (1, 29)) (snake last_bite_game) = false
   /\ attempted_head last_bite_game (1, 29) = food last_bite_game
   /\ ~ (exists fuel rng k g' k', V1.update fuel rng k last_bite_game = Done (g', k')))
  /\ (V11.reachable V11_last_bite_state
      /\ game_over (V11.the_game V11_last_bite_state) = false
      /\ last_segment (snake (V11.the_game V11_last_bite_state)) = Some (1, 29)
      /\ V11.collides (attempted_head (V11.the_game V11_last_bite_state) (1, 29))
                      (snake (V11.the_game V11_last_bite_state)) = false
      /\ attempted_head (V11.the_game V11_last_bite_state) (1, 29)
         = food (V11.the_game V11_last_bite_state)
      /\ ~ (exists fuel rng k s' k',
              V11.update fuel rng k V11_last_bite_state = Done (s', k'))).
Proof.
  split.
  - split; [exact V1_last_bite_reachable|].
    split; [reflexivity|]. split; [vm_compute; reflexivity|].
    split; [vm_compute; reflexivity|]. split; [vm_compute; reflexivity|].
    intros [fuel [rng [k [g' [k' H]]]]].
    destruct (full_grid_bite_times_out fuel rng k last_bite_game 0%float (1, 29))
      as [H1 _]; try (vm_compute; reflexivity).
    + intros p Hp. apply (proj1 (last_bite_covers_grid p Hp)).
    + rewrite H1 in H. discriminate.
  - split; [exact V11_last_bite_reachable|].
    split; [reflexivity|]. split; [vm_compute; reflexivity|].
    split; [vm_compute; reflexivity|]. split; [vm_compute; reflexivity|].
    intros [fuel [rng [k [s' [k' H]]]]].
    destruct (full_grid_bite_times_out fuel rng k (V11.the_game V11_last_bite_state)
                V11.SHAKE_DURATION (1, 29)) as [_ H1]; try (vm_compute; reflexivity).
    + intros p Hp. apply (proj2 (last_bite_covers_grid p Hp)).
    + change (V11.mkState (V11.the_game V11_last_bite_state) V11.SHAKE_DURATION)
        with V11_last_bite_state in H1.
      rewrite H1 in H. discriminate.
Qed.

(** C2 (as amended).  A tick in play that does not collide appends the new
    head.  When the new head is not the food, the tick returns with the tail
    removed: same length, same score, same food, the snake shifted by one
    cell.  When it is the food, the tick returns exactly when the sampler
    draws a free cell (draw number [n], with fuel above [n]); whenever it
    returns the snake is the old one with the new head appended (one segment
    longer), the score is one higher, and the new food is on the grid and
    outside the grown snake.  When the grown snake covers the grid there is
    no free cell, and the tick does not return, whatever the fuel.  Both
    files agree. *)
Theorem tick_without_collision :
  forall fuel rng k (g : game) (st : float) (head : pos),
    game_over g = false ->
    last_segment (snake g) = Some head ->
    V1.collides (attempted_head g head) (snake g) = false ->
    let nh := attempted_head g head in
    (nh <> food g ->
       exists g',
         V1.update fuel rng k g = Done (g', k)
         /\ (exists st', V11.update fuel rng k (V11.mkState g st)
                           = Done (V11.mkState g' st', k))
         /\ snake g' = tl (snake g ++ [nh])
         /\ length (snake g') = length (snake g)
         /\ last_segment (snake g') = Some nh
         /\ score g' = score g /\ food g' = food g /\ game_over g' = false)
    /\ (nh = food g ->
       (forall n, (n < fuel)%nat ->
          ~ In (food_draw rng (k + 2 * n)) (snake g ++ [nh]) ->
          exists g' k',
            V1.update fuel rng k g = Done (g', k')
            /\ exists st', V11.update fuel rng k (V11.mkState g st)
                             = Done (V11.mkState g' st', k'))
       /\ (forall g' k',
            V1.update fuel rng k g = Done (g', k')
            \/ (exists st', V11.update fuel rng k (V11.mkState g st)
                              = Done (V11.mkState g' st', k')) ->
            snake g' = snake g ++ [nh]
            /\ length (snake g') = S (length (snake g))
            /\ score g' = score g + 1
            /\ in_grid (food g') = true
            /\ ~ In (food g') (snake g')
            /\ game_over g' = false)
       /\ ((exists g' k', V1.update fuel rng k g = Done (g', k')) ->
           exists n, (n < fuel)%nat /\ ~ In (food_draw rng (k + 2 * n)) (snake g ++ [nh]))
       /\ ((exists s' k', V11.update fuel rng k (V11.mkState g st) = Done (s', k')) ->
           exists n, (n < fuel)%nat /\ ~ In (food_draw rng (k + 2 * n)) (snake g ++ [nh]))
       /\ ((forall p, in_grid p = true -> In p (snake g ++ [nh])) ->
           V1.update fuel rng k g = Timeout
           /\ V11.update fuel rng k (V11.mkState g st) = Timeout)).
Proof.
  intros fuel rng k g st head Hplay Hhead Hcol nh. split.
  - intros Hfood.
    pose proof (update_move fuel rng k g head Hplay Hhead Hcol Hfood) as H1.
    eexists. split; [exact H1|]. split.
    { apply (proj2 (V11_update_game fuel rng k g st)). exact H1. }
    cbn [snake score food game_over]. fold nh.
    repeat split.
    + apply length_tl_app.
    + apply last_segment_tl_app. eapply last_segment_nonempty; eassumption.
  - intros Hfood.
    pose proof (update_eat fuel rng k g head Hplay Hhead Hcol Hfood) as H1.
    fold nh in H1.
    assert (Hret : (exists g' k', V1.update fuel rng k g = Done (g', k')) ->
              exists n, (n < fuel)%nat
                        /\ ~ In (food_draw rng (k + 2 * n)) (snake g ++ [nh])).
    { intros [g' [k' H]]. apply (random_food_position_returns fuel rng _ k).
      rewrite H1 in H.
      destruct (V1.random_food_position fuel rng k (snake g ++ [nh]))
        as [[p k1]| | |]; simpl in H; try discriminate.
      eauto. }
    split; [|split; [|split; [exact Hret|split]]].
    + intros n Hn Hfree.
      destruct (random_food_position_complete rng (snake g ++ [nh]) n fuel k Hn Hfree)
        as [p [k' Hp]].
      rewrite Hp in H1. simpl in H1.
      eexists; eexists. split; [exact H1|].
      apply (proj2 (V11_update_game fuel rng k g st)). exact H1.
    + intros g' k' H.
      assert (H' : V1.update fuel rng k g = Done (g', k')).
      { destruct H as [H | [st' H]]; [exact H|].
        apply (proj1 (V11_update_game fuel rng k g st)) in H. exact H. }
      rewrite H1 in H'.
      destruct (V1.random_food_position fuel rng k (snake g ++ [nh]))
        as [[p k1]| | |] eqn:E; simpl in H'; try discriminate.
      inversion H'; subst. cbn [snake score food game_over].
      destruct (random_food_position_sound _ _ _ _ _ _ E) as [Hgrid Hfree].
      repeat split; try assumption.
      rewrite length_app. simpl. lia.
    + intros [s' [k' H]]. apply Hret.
      apply (proj1 (V11_update_game fuel rng k g st)) in H. eauto.
    + intros Hfull.
      exact (full_grid_bite_times_out fuel rng k g st head Hplay Hhead Hcol Hfood Hfull).
Qed.

(** A plain move, a bite at the start, and the bite that fills the grid. *)
Lemma tick_without_collision_witness :
  (exists g',
     V1.update 1 (fun _ => 0) 0
         (mkGame [(14, 15); (15, 15); (16, 15)] (1, 0) (1, 0) (3, 3) 0 false)
       = Done (g', 0%nat)
     /\ snake g' = [(15, 15); (16, 15); (17, 15)] /\ score g' = 0)
  /\ (exists g' k',
     V1.update 1 (fun _ => 0) 0
         (mkGame [(14, 15); (15, 15); (16, 15)] (1, 0) (1, 0) (17, 15) 0 false)
       = Done (g', k')
     /\ snake g' = [(14, 15); (15, 15); (16, 15); (17, 15)] /\ score g' = 1)
  /\ (V1.update 7 (fun _ => 0) 0 last_bite_game = Timeout
      /\ V11.update 7 (fun _ => 0) 0 V11_last_bite_state = Timeout).
Proof.
  split; [|split].
  - destruct (proj1 (tick_without_collision 1 (fun _ => 0) 0%nat
      (mkGame [(14, 15); (15, 15); (16, 15)] (1, 0) (1, 0) (3, 3) 0 false) 0%float (16, 15)
      eq_refl eq_refl eq_refl)) as [g' [H1 [_ [H3 [_ [_ [H6 _]]]]]]].
    + discriminate.
    + exists g'. repeat split; assumption.
  - destruct (proj2 (tick_without_collision 1 (fun _ => 0) 0%nat
      (mkGame [(14, 15); (15, 15); (16, 15)] (1, 0) (1, 0) (17, 15) 0 false) 0%float (16, 15)
      eq_refl eq_refl eq_refl) eq_refl) as [Hret [Hprop _]].
    destruct (Hret 0%nat) as [g' [k' [H1 _]]].
    + apply Nat.lt_0_1.
    + vm_compute. intros H. repeat (destruct H as [H | H]; [discriminate H|]). exact H.
    + exists g', k'. destruct (Hprop g' k' (or_introl H1)) as [H2 [_ [H4 _]]].
      repeat split; assumption.
  - split.
    + refine (proj1 (proj2 (proj2 (proj2 (proj2 (proj2
        (tick_without_collision 7 (fun _ => 0) 0%nat last_bite_game 0%float (1, 29)
           eq_refl _ _) _)))) _)).
      * vm_compute. reflexivity.
      * vm_compute. reflexivity.
      * vm_compute. reflexivity.
      * intros p Hp. apply (proj1 (last_bite_covers_grid p Hp)).
    + refine (proj2 (proj2 (proj2 (proj2 (proj2 (proj2
        (tick_without_collision 7 (fun _ => 0) 0%nat (V11.the_game V11_last_bite_state)
           V11.SHAKE_DURATION (1, 29) eq_refl _ _) _)))) _)).
      * vm_compute. reflexivity.
      * vm_compute. reflexivity.
      * vm_compute. reflexivity.
      * intros p Hp. apply (proj2 (last_bite_covers_grid p Hp)).
Defined.

(** ** C5 *)

Lemma on_grid_and_simple_snake (g g' : game) :
  snake g' = snake g -> on_grid_and_simple g -> on_grid_and_simple g'.
Proof. unfold on_grid_and_simple. intros ->. auto. Qed.

Lemma on_grid_and_simple_grow (l : list pos) (p : pos) :
  Forall (fun q => in_grid q = true) l -> NoDup l ->
  in_grid p = true -> ~ In p l ->
  Forall (fun q => in_grid q = true) (l ++ [p]) /\ NoDup (l ++ [p]).
Proof.
  intros Hall Hnd Hp Hnew. split.
  - apply Forall_app. split; [assumption | constructor; [assumption | constructor]].
  - apply NoDup_app; [assumption | constructor; [intros [] | constructor] |].
    intros a Ha [Heq | []]. subst. contradiction.
Qed.

Lemma on_grid_and_simple_tl (l : list pos) :
  Forall (fun q => in_grid q = true) l /\ NoDup l ->
  Forall (fun q => in_grid q = true) (tl l) /\ NoDup (tl l).
Proof.
  intros [Hall Hnd]. destruct l as [|q l]; simpl; [split; assumption|].
  inversion Hall; inversion Hnd; subst. split; assumption.
Qed.

Lemma V1_initial_snake_ok :
  Forall (fun q => in_grid q = true) V1.initial_snake /\ NoDup V1.initial_snake.
Proof.
  split.
  - repeat constructor.
  - repeat constructor; simpl; intuition discriminate.
Qed.

Lemma V11_initial_snake_ok :
  Forall (fun q => in_grid q = true) V11.initial_snake /\ NoDup V11.initial_snake.
Proof.
  split.
  - repeat constructor.
  - repeat constructor; simpl; intuition discriminate.
Qed.

Lemma V1_restart_is_init fuel rng k : V1.restart fuel rng k = V1.init fuel rng k.
Proof. reflexivity. Qed.

Lemma V1_init_shape fuel rng k g k' :
  V1.init fuel rng k = Done (g, k') ->
  snake g = V1.initial_snake /\ direction g = (-1, 0) /\ next_direction g = (-1, 0)
  /\ score g = 0 /\ game_over g = false
  /\ in_grid (food g) = true /\ ~ In (food g) (snake g).
Proof.
  unfold V1.init. intros H.
  destruct (V1.random_food_position fuel rng k V1.initial_snake) as [[p k1]| | |] eqn:E;
    simpl in H; try discriminate.
  inversion H; subst. cbn [snake direction next_direction score game_over food].
  destruct (random_food_position_sound _ _ _ _ _ _ E). repeat split; assumption.
Qed.

Lemma V11_restart_shape fuel rng k g k' :
  V11.restart fuel rng k = Done (g, k') ->
  snake g = V11.initial_snake /\ direction g = (1, 0) /\ next_direction g = (1, 0)
  /\ score g = 0 /\ game_over g = false
  /\ in_grid (food g) = true /\ ~ In (food g) (snake g).
Proof.
  unfold V11.restart. rewrite random_food_same. intros H.
  destruct (V1.random_food_position fuel rng k _) as [[p k1]| | |] eqn:E;
    simpl in H; try discriminate.
  inversion H; subst. cbn [snake direction next_direction score game_over food].
  destruct (random_food_position_sound _ _ _ _ _ _ E). repeat split; assumption.
Qed.

Lemma V11_init_as_restart fuel rng k :
  V11.init fuel rng k =
  '(g, k') <- V11.restart fuel rng k ;; Done (V11.mkState g 0%float, k').
Proof.
  unfold V11.init, V11.restart.
  destruct (V11.random_food fuel rng k _) as [[p k1]| | |]; reflexivity.
Qed.

Lemma V1_on_event_simple fuel rng ev k g running g' k' :
  V1.on_event fuel rng ev k g = Done (running, g', k') ->
  on_grid_and_simple g -> on_grid_and_simple g'.
Proof.
  intros H Hwf. destruct ev as [|key|]; simpl in H.
  - inversion H; subst; assumption.
  - destruct key; simpl in H;
      try (inversion H; subst; first [assumption | exact Hwf]).
    + destruct (game_over g); simpl in H; inversion H; subst; assumption.
    + destruct (game_over g); simpl in H; [|inversion H; subst; assumption].
      rewrite V1_restart_is_init in H.
      destruct (V1.init fuel rng k) as [[g1 k1]| | |] eqn:E; simpl in H; try discriminate.
      inversion H; subst.
      destruct (V1_init_shape _ _ _ _ _ E) as [Hs _].
      unfold on_grid_and_simple. rewrite Hs. apply V1_initial_snake_ok.
  - inversion H; subst; assumption.
Qed.

Lemma V1_update_simple fuel rng k g g' k' :
  V1.update fuel rng k g = Done (g', k') ->
  on_grid_and_simple g -> on_grid_and_simple g'.
Proof.
  intros H Hwf. destruct (game_over g) eqn:Hplay.
  - rewrite update_game_over in H by assumption. inversion H; subst; assumption.
  - destruct (last_segment (snake g)) as [head|] eqn:Hhead.
    + rewrite (update_playing _ _ _ _ head Hplay Hhead) in H. cbv zeta in H.
      destruct (V1.collides (attempted_head g head) (snake g)) eqn:Hcol.
      * inversion H; subst. exact Hwf.
      * apply collides_false_iff in Hcol. destruct Hcol as [Hgrid Hfree].
        destruct Hwf as [Hall Hnd].
        pose proof (on_grid_and_simple_grow _ _ Hall Hnd Hgrid Hfree) as Hgrow.
        destruct (pos_eqb (attempted_head g head) (food g)).
        -- destruct (V1.random_food_position _ _ _ _) as [[p k1]| | |]; simpl in H;
             try discriminate.
           inversion H; subst. exact Hgrow.
        -- inversion H; subst. apply on_grid_and_simple_tl in Hgrow. exact Hgrow.
    + unfold V1.update in H. rewrite Hplay, Hhead in H. discriminate.
Qed.

Lemma V11_on_event_simple fuel rng ev k g g' k' :
  V11.on_event fuel rng ev k g = Done (g', k') ->
  on_grid_and_simple g -> on_grid_and_simple g'.
Proof.
  intros H Hwf. destruct ev as [|key|]; simpl in H.
  - discriminate.
  - destruct key; simpl in H;
      try discriminate;
      try (match type of H with context [if negb ?b then _ else _] => destruct b end;
           simpl in H; inversion H; subst; exact Hwf);
      try (inversion H; subst; exact Hwf).
    destruct (game_over g); simpl in H; [|inversion H; subst; exact Hwf].
    destruct (V11_restart_shape _ _ _ _ _ H) as [Hs _].
    unfold on_grid_and_simple. rewrite Hs. apply V11_initial_snake_ok.
  - inversion H; subst; assumption.
Qed.

Lemma V11_poll_simple fuel rng evs : forall k g g' k',
  V11.poll fuel rng evs k g = Done (g', k') ->
  on_grid_and_simple g -> on_grid_and_simple g'.
Proof.
  induction evs as [|ev evs IH]; intros k g g' k' H Hwf; simpl in H.
  - inversion H; subst; assumption.
  - destruct (V11.on_event fuel rng ev k g) as [[g1 k1]| | |] eqn:E; simpl in H;
      try discriminate.
    eapply IH; [exact H|]. eapply V11_on_event_simple; eassumption.
Qed.

Lemma V11_update_simple fuel rng k s s' k' :
  V11.update fuel rng k s = Done (s', k') ->
  on_grid_and_simple (V11.the_game s) -> on_grid_and_simple (V11.the_game s').
Proof.
  destruct s as [g st]. intros H Hwf.
  apply (proj1 (V11_update_game fuel rng k g st)) in H.
  eapply V1_update_simple; eassumption.
Qed.

Lemma V11_frame_game fuel rng dt evs k s s' off k' :
  V11.frame fuel rng dt evs k s = Done (s', off, k') ->
  exists g1 k1 s2 k2,
    V11.poll fuel rng evs k (V11.the_game s) = Done (g1, k1)
    /\ V11.update fuel rng k1 (V11.mkState g1 (V11.shake_time s)) = Done (s2, k2)
    /\ V11.the_game s' = V11.the_game s2.
Proof.
  unfold V11.frame. intros H.
  destruct (V11.poll fuel rng evs k (V11.the_game s)) as [[g1 k1]| | |]; simpl in H;
    try discriminate.
  destruct (V11.update fuel rng k1 _) as [[s2 k2]| | |] eqn:E; simpl in H;
    try discriminate.
  destruct (V11.shake_offset rng k2 _) as [[[ox oy] k3]| | |]; simpl in H;
    try discriminate.
  inversion H; subst. exists g1, k1, s2, k2. repeat split; try reflexivity. exact E.
Qed.

(** C5.  In every game [main] can hold (built by the initial construction,
    changed by any event of the loop, restart included, by any tick or by any
    whole iteration) every segment of the snake lies on the grid and no two
    segments share a cell.  Both files. *)
Theorem snake_stays_on_grid_and_simple :
  forall (g : game) (s : V11.state),
    V1.reachable g -> V11.reachable s ->
    ((forall p, In p (snake g) -> 0 <= fst p < GRID_WIDTH /\ 0 <= snd p < GRID_HEIGHT)
     /\ NoDup (snake g))
    /\ ((forall p, In p (snake (V11.the_game s)) ->
           0 <= fst p < GRID_WIDTH /\ 0 <= snd p < GRID_HEIGHT)
        /\ NoDup (snake (V11.the_game s))).
Proof.
  intros g s Hg Hs.
  assert (H1 : on_grid_and_simple g).
  { induction Hg as [fuel rng k g k' Hinit | fuel rng ev k g running g' k' Hg IH Hev
                    | fuel rng k g g' k' Hg IH Hupd].
    - destruct (V1_init_shape _ _ _ _ _ Hinit) as [Hsn _].
      unfold on_grid_and_simple. rewrite Hsn. apply V1_initial_snake_ok.
    - eapply V1_on_event_simple; eassumption.
    - eapply V1_update_simple; eassumption. }
  assert (H2 : on_grid_and_simple (V11.the_game s)).
  { clear Hg H1.
    induction Hs as [fuel rng k s k' Hinit | fuel rng ev k s g' k' Hs IH Hev
                    | fuel rng k s s' k' Hs IH Hupd
                    | fuel rng dt evs k s s' off k' Hs IH Hfr].
    - rewrite V11_init_as_restart in Hinit.
      destruct (V11.restart fuel rng k) as [[g0 k0]| | |] eqn:E; simpl in Hinit;
        try discriminate.
      inversion Hinit; subst. cbn [V11.the_game].
      destruct (V11_restart_shape _ _ _ _ _ E) as [Hsn _].
      unfold on_grid_and_simple. rewrite Hsn. apply V11_initial_snake_ok.
    - cbn [V11.the_game]. eapply V11_on_event_simple; eassumption.
    - eapply V11_update_simple; eassumption.
    - destruct (V11_frame_game _ _ _ _ _ _ _ _ _ Hfr) as [g1 [k1 [s2 [k2 [Hp [Hu Heq]]]]]].
      rewrite Heq. eapply V11_update_simple; [exact Hu|]. cbn [V11.the_game].
      eapply V11_poll_simple; eassumption. }
  destruct H1 as [Ha Hb], H2 as [Hc Hd].
  rewrite Forall_forall in Ha, Hc.
  split; (split; [intros p Hp; apply in_grid_spec; auto | assumption]).
Qed.

Lemma snake_stays_on_grid_and_simple_witness :
  NoDup [(17, 15); (16, 15); (15, 15)] /\ NoDup [(14, 15); (15, 15)].
Proof.
  assert (Hg : V1.reachable
                 (mkGame [(17, 15); (16, 15); (15, 15)] (-1, 0) (-1, 0) (0, 0) 0 false)).
  { apply (V1.reach_init 1 (fun _ => 0) 0%nat _ 2%nat). reflexivity. }
  assert (Hs : V11.reachable
                 (V11.mkState (mkGame [(14, 15); (15, 15)] (1, 0) (1, 0) (0, 0) 0 false)
                              0%float)).
  { apply (V11.reach_init 1 (fun _ => 0) 0%nat _ 2%nat). reflexivity. }
  destruct (snake_stays_on_grid_and_simple _ _ Hg Hs) as [[_ H1] [_ H2]].
  split; [exact H1 | exact H2].
Defined.

(** ** C6 *)

Lemma V1_init_returns fuel rng k n :
  (n < fuel)%nat ->
  ~ In (food_draw rng (k + 2 * n)) V1.initial_snake ->
  exists g k', V1.init fuel rng k = Done (g, k').
Proof.
  intros Hn Hfree. unfold V1.init.
  destruct (random_food_position_complete rng _ n fuel k Hn Hfree) as [p [k' Hp]].
  rewrite Hp. simpl. eauto.
Qed.

Lemma V11_init_returns fuel rng k n :
  (n < fuel)%nat ->
  ~ In (food_draw rng (k + 2 * n)) V11.initial_snake ->
  exists s k', V11.init fuel rng k = Done (s, k').
Proof.
  intros Hn Hfree. unfold V11.init. rewrite random_food_same.
  destruct (random_food_position_complete rng _ n fuel k Hn Hfree) as [p [k' Hp]].
  rewrite Hp. simpl. eauto.
Qed.

(** C6.  With the game over, the R key runs the very construction [main]
    starts the game with, at the current state of the random source: the same
    snake (three segments headed left in the first file, two headed right in
    V1.1), committed and pending direction as at the start, score 0, the game
    in play, and a food cell drawn again, on the grid and off the new snake;
    that construction returns as soon as a draw is free.  With the game in
    play, and on the start screen, the R key changes nothing. *)
Theorem restart_rebuilds_initial_game :
  forall fuel rng k (g : game),
    (game_over g = true ->
       V1.on_event fuel rng (KEYDOWN K_r) k g
         = ('(g0, k') <- V1.init fuel rng k ;; Done (true, g0, k'))
       /\ V11.on_event fuel rng (KEYDOWN K_r) k g
         = ('(s0, k') <- V11.init fuel rng k ;; Done (V11.the_game s0, k')))
    /\ (forall g0 k', V1.init fuel rng k = Done (g0, k') ->
          snake g0 = [(17, 15); (16, 15); (15, 15)]
          /\ direction g0 = (-1, 0) /\ next_direction g0 = (-1, 0)
          /\ score g0 = 0 /\ game_over g0 = false
          /\ in_grid (food g0) = true /\ ~ In (food g0) (snake g0))
    /\ (forall s0 k', V11.init fuel rng k = Done (s0, k') ->
          snake (V11.the_game s0) = [(14, 15); (15, 15)]
          /\ direction (V11.the_game s0) = (1, 0)
          /\ next_direction (V11.the_game s0) = (1, 0)
          /\ score (V11.the_game s0) = 0 /\ game_over (V11.the_game s0) = false
          /\ in_grid (food (V11.the_game s0)) = true
          /\ ~ In (food (V11.the_game s0)) (snake (V11.the_game s0)))
    /\ (forall n, (n < fuel)%nat ->
          (~ In (food_draw rng (k + 2 * n)) V1.initial_snake ->
             exists g0 k', V1.init fuel rng k = Done (g0, k'))
          /\ (~ In (food_draw rng (k + 2 * n)) V11.initial_snake ->
             exists s0 k', V11.init fuel rng k = Done (s0, k')))
    /\ (game_over g = false ->
          V1.on_event fuel rng (KEYDOWN K_r) k g = Done (true, g, k)
          /\ V11.on_event fuel rng (KEYDOWN K_r) k g = Done (g, k))
    /\ start_screen_event (KEYDOWN K_r) = StayOnStart.
Proof.
  intros fuel rng k g.
  split; [|split; [|split; [|split; [|split]]]].
  - intros Hover. simpl. rewrite Hover. simpl. split.
    + rewrite V1_restart_is_init.
      destruct (V1.init fuel rng k) as [[g0 k0]| | |]; reflexivity.
    + rewrite V11_init_as_restart.
      destruct (V11.restart fuel rng k) as [[g0 k0]| | |]; reflexivity.
  - intros g0 k' H. apply V1_init_shape in H. exact H.
  - intros s0 k' H. rewrite V11_init_as_restart in H.
    destruct (V11.restart fuel rng k) as [[g0 k0]| | |] eqn:E; simpl in H;
      try discriminate.
    inversion H; subst. cbn [V11.the_game]. apply V11_restart_shape in E. exact E.
  - intros n Hn. split; intros Hfree.
    + eapply V1_init_returns; eassumption.
    + eapply V11_init_returns; eassumption.
  - intros Hplay. simpl. rewrite Hplay. split; reflexivity.
  - reflexivity.
Qed.

Lemma restart_rebuilds_initial_game_witness :
  V1.on_event 1 (fun _ => 0) (KEYDOWN K_r) 0
      (mkGame [(5, 5); (6, 5); (6, 6); (5, 6)] (0, -1) (0, -1) (0, 0) 7 true)
    = Done (true, mkGame [(17, 15); (16, 15); (15, 15)] (-1, 0) (-1, 0) (0, 0) 0 false, 2%nat)
  /\ V1.on_event 1 (fun _ => 0) (KEYDOWN K_r) 0 coiled_game = Done (true, coiled_game, 0%nat).
Proof.
  split.
  - exact (proj1 (proj1 (restart_rebuilds_initial_game 1 (fun _ => 0) 0%nat
      (mkGame [(5, 5); (6, 5); (6, 6); (5, 6)] (0, -1) (0, -1) (0, 0) 7 true)) eq_refl)).
  - exact (proj1 (proj1 (proj2 (proj2 (proj2 (proj2
      (restart_rebuilds_initial_game 1 (fun _ => 0) 0%nat coiled_game))))) eq_refl)).
Defined.

(** ** C7 *)

(** C7 (as amended).  Food placement draws cells until one is free.  Whatever
    it returns is a cell of the grid outside the occupancy list; it returns as
    soon as the random source draws a free cell (draw number [n], with fuel
    above [n]); and when the snake occupies every cell of the grid no draw is
    free, so that the loop does not return whatever the fuel.  The two files
    have the same sampler. *)
Theorem food_placement_resamples_until_free :
  forall fuel rng k (snake : list pos),
    (forall p k', V1.random_food_position fuel rng k snake = Done (p, k') ->
       in_grid p = true /\ ~ In p snake)
    /\ (forall n, (n < fuel)%nat -> ~ In (food_draw rng (k + 2 * n)) snake ->
          exists p k', V1.random_food_position fuel rng k snake = Done (p, k'))
    /\ ((forall p, in_grid p = true -> In p snake) ->
          V1.random_food_position fuel rng k snake = Timeout)
    /\ V11.random_food fuel rng k snake = V1.random_food_position fuel rng k snake.
Proof.
  intros fuel rng k snake. split; [|split; [|split]].
  - intros p k' H. eapply random_food_position_sound; eassumption.
  - intros n Hn Hfree. eapply random_food_position_complete; eassumption.
  - intros Hfull. apply random_food_position_full; assumption.
  - apply random_food_same.
Qed.

Lemma food_placement_resamples_until_free_witness :
  (exists p k', V1.random_food_position 2 (fun n => 15 + Z.of_nat n) 0 V1.initial_snake
                  = Done (p, k'))
  /\ V1.random_food_position 5 (fun _ => 0) 0 full_snake = Timeout.
Proof.
  split.
  - apply (proj1 (proj2 (food_placement_resamples_until_free 2 (fun n => 15 + Z.of_nat n)
                           0%nat V1.initial_snake)) 1%nat).
    + apply Nat.lt_1_2.
    + vm_compute. intros H. repeat (destruct H as [H | H]; [discriminate H|]). exact H.
  - apply (proj1 (proj2 (proj2 (food_placement_resamples_until_free 5 (fun _ => 0)
                                  0%nat full_snake)))).
    exact full_snake_covers_grid.
Defined.

(** C7, the claim as worded fails: a snake that fills the 30 x 30 grid leaves
    no free cell, and then no fuel and no random source make either sampler
    return. *)
Lemma food_placement_loops_on_full_grid :
  length full_snake = 900%nat
  /\ ~ (exists fuel rng k, V1.random_food_position fuel rng k full_snake <> Timeout)
  /\ ~ (exists fuel rng k, V11.random_food fuel rng k full_snake <> Timeout).
Proof.
  split; [reflexivity|]. split.
  - intros [fuel [rng [k H]]]. apply H.
    apply random_food_position_full. exact full_snake_covers_grid.
  - intros [fuel [rng [k H]]]. apply H. rewrite random_food_same.
    apply random_food_position_full. exact full_snake_covers_grid.
Qed.

(** ** C8 *)

(** What an event of the first file does to a game when it is not a restart
    that takes effect. *)
Lemma V1_on_event_no_restart fuel rng ev k g :
  game_over g = false \/ ev <> KEYDOWN K_r ->
  exists running,
    V1.on_event fuel rng ev k g =
    Done (running,
          match event_direction ev with
          | Some d => set_next_direction d g
          | None => g
          end, k).
Proof.
  intros H. destruct ev as [|key|]; simpl; eauto.
  destruct key; simpl; eauto.
  - destruct (game_over g); simpl; eauto.
  - destruct (game_over g); simpl; eauto.
    destruct H as [H | H]; [discriminate | congruence].
Qed.

Lemma V1_poll_no_restart fuel rng evs : forall k g,
  game_over g = false \/ ~ In (KEYDOWN K_r) evs ->
  exists running g',
    V1.poll fuel rng evs k g = Done (running, g', k)
    /\ snake g' = snake g /\ direction g' = direction g /\ food g' = food g
    /\ score g' = score g /\ game_over g' = game_over g
    /\ (running = true ->
        next_direction g' = match last_direction_key evs with
                            | Some d => d
                            | None => next_direction g
                            end).
Proof.
  induction evs as [|ev evs IH]; intros k g H; simpl.
  - exists true, g. repeat split; reflexivity.
  - destruct (V1_on_event_no_restart fuel rng ev k g) as [running Hev].
    { destruct H as [H | H]; [left; exact H | right; intros ->; apply H; left; reflexivity]. }
    rewrite Hev. simpl.
    set (g1 := match event_direction ev with
               | Some d => set_next_direction d g
               | None => g
               end).
    assert (Hsame : snake g1 = snake g /\ direction g1 = direction g /\ food g1 = food g
                    /\ score g1 = score g /\ game_over g1 = game_over g).
    { unfold g1. destruct (event_direction ev); repeat split; reflexivity. }
    destruct Hsame as [Hs [Hd [Hf [Hsc Hgo]]]].
    destruct running.
    + destruct (IH k g1) as [running' [g' [Hp [Hs' [Hd' [Hf' [Hsc' [Hgo' Hnd]]]]]]]].
      { destruct H as [H | H]; [left; congruence | right; intros Hin; apply H; right; exact Hin]. }
      exists running', g'. rewrite Hp.
      repeat split; try congruence.
      intros Hr. rewrite (Hnd Hr).
      destruct (last_direction_key evs); [reflexivity|].
      unfold g1. destruct (event_direction ev); reflexivity.
    + exists false, g1. repeat split; try assumption. discriminate.
Qed.

(** What an event of V1.1 does to a game when it is not a restart that takes
    effect: a directional key is obeyed unless it asks for the reverse of the
    committed direction. *)
Lemma V11_on_event_no_restart fuel rng ev k g :
  game_over g = false \/ ev <> KEYDOWN K_r ->
  V11.on_event fuel rng ev k g = Exit
  \/ V11.on_event fuel rng ev k g =
     Done (match event_direction ev with
           | Some d => if negb (pos_eqb (direction g) (opposite d))
                       then set_next_direction d g else g
           | None => g
           end, k).
Proof.
  intros H. destruct ev as [|key|]; simpl; auto.
  destruct key; simpl; auto.
  destruct (game_over g); simpl; auto.
  destruct H as [H | H]; [discriminate | congruence].
Qed.

Lemma V11_poll_no_restart fuel rng evs : forall k g,
  game_over g = false \/ ~ In (KEYDOWN K_r) evs ->
  V11.poll fuel rng evs k g = Exit
  \/ exists g',
    V11.poll fuel rng evs k g = Done (g', k)
    /\ snake g' = snake g /\ direction g' = direction g /\ food g' = food g
    /\ score g' = score g /\ game_over g' = game_over g
    /\ next_direction g' = match last_direction_key (not_reversing (direction g) evs) with
                           | Some d => d
                           | None => next_direction g
                           end.
Proof.
  induction evs as [|ev evs IH]; intros k g H; simpl.
  - right. exists g. repeat split; reflexivity.
  - destruct (V11_on_event_no_restart fuel rng ev k g) as [Hev | Hev].
    { destruct H as [H | H]; [left; exact H | right; intros ->; apply H; left; reflexivity]. }
    { rewrite Hev. left; reflexivity. }
    rewrite Hev. simpl.
    set (g1 := match event_direction ev with
               | Some d => if negb (pos_eqb (direction g) (opposite d))
                           then set_next_direction d g else g
               | None => g
               end).
    assert (Hsame : snake g1 = snake g /\ direction g1 = direction g /\ food g1 = food g
                    /\ score g1 = score g /\ game_over g1 = game_over g).
    { unfold g1. destruct (event_direction ev) as [d|]; [|repeat split; reflexivity].
      destruct (negb _); repeat split; reflexivity. }
    destruct Hsame as [Hs [Hd [Hf [Hsc Hgo]]]].
    destruct (IH k g1) as [Hp | [g' [Hp [Hs' [Hd' [Hf' [Hsc' [Hgo' Hnd]]]]]]]].
    { destruct H as [H | H]; [left; congruence | right; intros Hin; apply H; right; exact Hin]. }
    { left; exact Hp. }
    right. exists g'. rewrite Hp. repeat split; try congruence.
    rewrite Hnd, Hd. unfold g1.
    destruct (event_direction ev) as [d|] eqn:Ed.
    + destruct (negb (pos_eqb (direction g) (opposite d))); simpl.
      * rewrite Ed. destruct (last_direction_key _); reflexivity.
      * reflexivity.
    + simpl. rewrite Ed. destruct (last_direction_key _); reflexivity.
Qed.

(** C8 (as amended).  Take a batch in which no restart takes effect (the
    game is in play, or the batch has no R key).  In [super_snake.py], if the
    loop is still running after the batch, the pending direction is that of
    the last directional key of the batch, whatever the committed direction
    (unchanged when the batch has none).  In [super_snake_V1.1.py] a
    directional key that asks for the exact reverse of the committed direction
    is skipped when it is read, so that the pending direction after the batch
    is that of the last directional key which does not ask for that reverse
    (unchanged when the batch has none).  The batch leaves the rest of the
    game as it was. *)
Theorem pending_direction_after_batch :
  forall fuel rng (evs : list event) k (g : game),
    game_over g = false \/ ~ In (KEYDOWN K_r) evs ->
    (exists running g',
       V1.poll fuel rng evs k g = Done (running, g', k)
       /\ snake g' = snake g /\ direction g' = direction g
       /\ (running = true ->
           next_direction g' = match last_direction_key evs with
                               | Some d => d
                               | None => next_direction g
                               end))
    /\ (V11.poll fuel rng evs k g = Exit
        \/ exists g',
           V11.poll fuel rng evs k g = Done (g', k)
           /\ snake g' = snake g /\ direction g' = direction g
           /\ next_direction g' =
              match last_direction_key (not_reversing (direction g) evs) with
              | Some d => d
              | None => next_direction g
              end).
Proof.
  intros fuel rng evs k g H. split.
  - destruct (V1_poll_no_restart fuel rng evs k g H)
      as [running [g' [Hp [Hs [Hd [_ [_ [_ Hnd]]]]]]]].
    exists running, g'. repeat split; assumption.
  - destruct (V11_poll_no_restart fuel rng evs k g H)
      as [Hp | [g' [Hp [Hs [Hd [_ [_ [_ Hnd]]]]]]]]; [left; exact Hp|].
    right. exists g'. repeat split; assumption.
Qed.

Lemma pending_direction_after_batch_witness :
  (exists running g',
     V1.poll 0 (fun _ => 0) [KEYDOWN K_UP; KEYDOWN K_LEFT] 0
        (mkGame [(14, 15); (15, 15)] (1, 0) (1, 0) (3, 3) 0 false) = Done (running, g', 0%nat)
     /\ (running = true -> next_direction g' = (-1, 0)))
  /\ (exists g',
     V11.poll 0 (fun _ => 0) [KEYDOWN K_UP; KEYDOWN K_LEFT] 0
        (mkGame [(14, 15); (15, 15)] (1, 0) (1, 0) (3, 3) 0 false) = Done (g', 0%nat)
     /\ next_direction g' = (0, -1)).
Proof.
  destruct (pending_direction_after_batch 0 (fun _ => 0) [KEYDOWN K_UP; KEYDOWN K_LEFT] 0%nat
              (mkGame [(14, 15); (15, 15)] (1, 0) (1, 0) (3, 3) 0 false) (or_introl eq_refl))
    as [[running [g' [H1 [_ [_ H2]]]]] [H3 | [g'' [H3 [_ [_ H4]]]]]].
  - discriminate H3.
  - split.
    + exists running, g'. split; [exact H1 | exact H2].
    + exists g''. split; [exact H3 | exact H4].
Defined.

(** C8, the claim as worded fails in V1.1: the snake heads right, the batch is
    UP then LEFT; the last directional key is LEFT, but LEFT reverses the
    committed direction and is skipped, so the pending direction after the
    batch is the one of the earlier key, UP. *)
Lemma earlier_key_wins_in_V11 :
  last_direction_key [KEYDOWN K_UP; KEYDOWN K_LEFT] = Some (-1, 0)
  /\ V11.poll 0 (fun _ => 0) [KEYDOWN K_UP; KEYDOWN K_LEFT] 0
       (mkGame [(14, 15); (15, 15)] (1, 0) (1, 0) (3, 3) 0 false)
     = Done (mkGame [(14, 15); (15, 15)] (1, 0) (0, -1) (3, 3) 0 false, 0%nat)
  /\ V11.poll 0 (fun _ => 0) [KEYDOWN K_LEFT] 0
       (mkGame [(14, 15); (15, 15)] (1, 0) (1, 0) (3, 3) 0 false)
     = Done (mkGame [(14, 15); (15, 15)] (1, 0) (1, 0) (3, 3) 0 false, 0%nat).
Proof. repeat split. Qed.

(** * Floating-point arithmetic: how far a rounded result is from the exact one *)

Lemma digits2_pos_size p : digits2_pos p = Pos.size p.
Proof. induction p; simpl; congruence. Qed.

Lemma Zdigits2_bounds p :
  2 ^ (Zdigits2 (Zpos p) - 1) <= Zpos p < 2 ^ Zdigits2 (Zpos p).
Proof.
  change (Zdigits2 (Zpos p)) with (Zpos (digits2_pos p)). rewrite digits2_pos_size.
  pose proof (Pos.size_gt p) as Hgt. pose proof (Pos.size_le p) as Hle.
  apply Pos2Z.pos_lt_pos in Hgt. apply Pos2Z.pos_le_pos in Hle.
  rewrite Pos2Z.inj_pow in Hgt, Hle.
  replace (Z.pos (Pos.size p)) with (Z.succ (Z.pos (Pos.size p) - 1)) in Hle by lia.
  rewrite Z.pow_succ_r in Hle by lia.
  rewrite (Pos2Z.inj_xO p) in Hle. lia.
Qed.

Lemma shr_1_m mrs : 0 <= shr_m mrs -> shr_m (shr_1 mrs) = shr_m mrs / 2.
Proof.
  destruct mrs as [m r s]. simpl. intros Hm.
  destruct m as [|p|p]; [reflexivity| |lia].
  destruct p; simpl.
  - rewrite Pos2Z.inj_xI. Z.div_mod_to_equations. lia.
  - rewrite Pos2Z.inj_xO. Z.div_mod_to_equations. lia.
  - reflexivity.
Qed.

Lemma pow2_xI p : 2 ^ Zpos p~1 = 2 * 2 ^ Zpos p * 2 ^ Zpos p.
Proof.
  rewrite (Pos2Z.inj_xI p).
  replace (2 * Zpos p + 1) with (1 + Zpos p + Zpos p) by lia.
  rewrite !Z.pow_add_r by lia. reflexivity.
Qed.

Lemma pow2_xO p : 2 ^ Zpos p~0 = 2 ^ Zpos p * 2 ^ Zpos p.
Proof.
  rewrite (Pos2Z.inj_xO p).
  replace (2 * Zpos p) with (Zpos p + Zpos p) by lia.
  rewrite !Z.pow_add_r by lia. reflexivity.
Qed.

Lemma pow2_pos n : 0 <= n -> 0 < 2 ^ n.
Proof. intros. apply Z.pow_pos_nonneg; lia. Qed.

Lemma iter_shr_m p : forall mrs,
  0 <= shr_m mrs ->
  shr_m (SpecFloat.iter_pos shr_1 p mrs) = shr_m mrs / 2 ^ Zpos p.
Proof.
  pose proof (pow2_pos (Zpos p) (Pos2Z.is_nonneg p)) as Hpow.
  induction p as [p IH|p IH|]; intros mrs Hm; simpl SpecFloat.iter_pos.
  - pose proof (pow2_pos (Zpos p) (Pos2Z.is_nonneg p)) as Hp.
    assert (H1 : 0 <= shr_m (shr_1 mrs)).
    { rewrite shr_1_m by assumption. apply Z.div_pos; lia. }
    assert (H2 : 0 <= shr_m (SpecFloat.iter_pos shr_1 p (shr_1 mrs))).
    { rewrite IH by assumption. apply Z.div_pos; assumption. }
    rewrite IH by assumption. rewrite IH by assumption. rewrite shr_1_m by assumption.
    rewrite pow2_xI. rewrite <- !Z.div_div by lia. reflexivity.
  - pose proof (pow2_pos (Zpos p) (Pos2Z.is_nonneg p)) as Hp.
    assert (H2 : 0 <= shr_m (SpecFloat.iter_pos shr_1 p mrs)).
    { rewrite IH by assumption. apply Z.div_pos; assumption. }
    rewrite IH by assumption. rewrite IH by assumption.
    rewrite pow2_xO. rewrite <- !Z.div_div by lia. reflexivity.
  - rewrite shr_1_m by assumption. reflexivity.
Qed.

Lemma round_nearest_even_bounds m l : m <= round_nearest_even m l <= m + 1.
Proof.
  destruct l as [|[| |]]; simpl; try lia. destruct (Z.even m); lia.
Qed.

Lemma shr_fexp_spec m e l :
  0 <= m ->
  let n := fexp 53 1024 (Zdigits2 m + e) - e in
  (n <= 0 /\ shr_fexp 53 1024 m e l = (shr_record_of_loc m l, e))
  \/ (0 < n /\ exists mrs, shr_fexp 53 1024 m e l = (mrs, e + n)
                           /\ shr_m mrs = m / 2 ^ n).
Proof.
  intros Hm n. unfold shr_fexp. fold n. unfold shr.
  destruct n as [|p|p] eqn:En.
  - left. split; [lia | reflexivity].
  - right. split; [lia|]. eexists. split; [reflexivity|].
    rewrite iter_shr_m; destruct l as [|[| |]]; simpl; try reflexivity; assumption.
  - left. split; [lia | reflexivity].
Qed.

Lemma bpow_pos e : (0 < bpow e)%R.
Proof. apply powerRZ_lt; lra. Qed.

Lemma bpow_add a b : bpow (a + b) = (bpow a * bpow b)%R.
Proof. apply powerRZ_add; lra. Qed.

Lemma bpow_IZR n : 0 <= n -> bpow n = IZR (2 ^ n).
Proof.
  intros Hn. destruct n as [|p|p]; [reflexivity| |lia].
  unfold powerRZ. rewrite pow_IZR, positive_nat_Z. reflexivity.
Qed.

Lemma bpow_ge_1 n : 0 <= n -> (1 <= bpow n)%R.
Proof.
  intros Hn. rewrite bpow_IZR by assumption. apply IZR_le.
  pose proof (pow2_pos n Hn). lia.
Qed.

Lemma bpow_le a b : a <= b -> (bpow a <= bpow b)%R.
Proof.
  intros H. replace b with (a + (b - a)) by lia. rewrite bpow_add.
  pose proof (bpow_pos a). pose proof (bpow_ge_1 (b - a) ltac:(lia)). nra.
Qed.

Lemma bpow_lt_inv a b : (bpow a < bpow b)%R -> a < b.
Proof.
  intros H. destruct (Z_lt_le_dec a b) as [|Hle]; [assumption|].
  apply bpow_le in Hle. lra.
Qed.

Lemma bpow_succ a : bpow (a + 1) = (2 * bpow a)%R.
Proof. rewrite bpow_add. simpl. lra. Qed.

Lemma div_pow2_R m n :
  0 <= m -> 0 <= n ->
  (IZR (m / 2 ^ n) * bpow n <= IZR m < (IZR (m / 2 ^ n) + 1) * bpow n)%R.
Proof.
  intros Hm Hn. rewrite bpow_IZR by assumption.
  pose proof (pow2_pos n Hn) as Hp.
  pose proof (Z.div_mod m (2 ^ n) ltac:(lia)) as Hdm.
  pose proof (Z.mod_pos_bound m (2 ^ n) Hp) as Hb.
  rewrite <- (plus_IZR _ 1), <- !mult_IZR. split; [apply IZR_le | apply IZR_lt]; nia.
Qed.

(** One right shift to the exponent the format asks for. *)
Lemma shr_fexp_R m e l :
  0 <= m ->
  exists mrs e',
    shr_fexp 53 1024 m e l = (mrs, e')
    /\ 0 <= shr_m mrs
    /\ e' = Z.max e (fexp 53 1024 (Zdigits2 m + e))
    /\ (IZR (shr_m mrs) * bpow e' <= IZR m * bpow e < (IZR (shr_m mrs) + 1) * bpow e')%R
    /\ (e' = e -> mrs = shr_record_of_loc m l).
Proof.
  intros Hm.
  destruct (shr_fexp_spec m e l Hm) as [[Hn H] | [Hn [mrs [H Hmrs]]]].
  - exists (shr_record_of_loc m l), e. rewrite H.
    assert (Hs : shr_m (shr_record_of_loc m l) = m) by (destruct l as [|[| |]]; reflexivity).
    rewrite Hs. repeat split; try lia.
    + pose proof (bpow_pos e). lra.
    + pose proof (bpow_pos e). lra.
  - set (n := fexp 53 1024 (Zdigits2 m + e) - e) in *.
    exists mrs, (e + n). rewrite H, Hmrs.
    pose proof (div_pow2_R m n Hm ltac:(lia)) as [H1 H2].
    pose proof (bpow_pos e) as He. pose proof (pow2_pos n ltac:(lia)) as Hp.
    rewrite bpow_add.
    repeat split; try lia.
    + apply Z.div_pos; lia.
    + nra.
    + nra.
Qed.

Lemma SF2R_finite_or_zero s m e :
  0 <= m ->
  exists r,
    match m with
    | Z0 => S754_zero s
    | Zpos p => if e <=? 1024 - 53 then S754_finite s p e else S754_infinity s
    | Zneg _ => S754_nan
    end = r
    /\ (e <= 971 -> SF_finite r = true /\ SF2R r = (IZR (cond_Zopp s m) * bpow e)%R).
Proof.
  intros Hm. eexists. split; [reflexivity|]. intros He.
  destruct m as [|p|p]; [| |lia].
  - simpl. split; [reflexivity|]. destruct s; simpl; lra.
  - change (1024 - 53) with 971. destruct (Z.leb_spec e 971); [|lia].
    split; reflexivity.
Qed.

Lemma Rabs_cond_Zopp s (a b : Z) (x y : R) :
  (Rabs (IZR (cond_Zopp s a) * x - IZR (cond_Zopp s b) * y)
   = Rabs (IZR a * x - IZR b * y))%R.
Proof.
  destruct s; simpl; [|reflexivity].
  rewrite !opp_IZR.
  replace (- IZR a * x - - IZR b * y)%R with (- (IZR a * x - IZR b * y))%R by ring.
  apply Rabs_Ropp.
Qed.

(** Rounding a positive mantissa [M] with exponent [E] whose value is under
    [2^b]: the result is finite and within [2^(b-51)] of the value. *)
Lemma round_aux_bound s M E b :
  (IZR (Zpos M) * bpow E < bpow b)%R ->
  -1000 <= b <= 900 ->
  SF_finite (binary_round_aux 53 1024 s (Zpos M) E loc_Exact) = true
  /\ (Rabs (SF2R (binary_round_aux 53 1024 s (Zpos M) E loc_Exact)
            - IZR (cond_Zopp s (Zpos M)) * bpow E) <= bpow (b - 51))%R.
Proof.
  intros HV Hb.
  pose proof (Zdigits2_bounds M) as [Hd1 Hd2].
  set (d := Zdigits2 (Zpos M)) in *.
  assert (Hdpos : 1 <= d) by (unfold d; simpl; lia).
  pose proof (bpow_pos E) as HE0.
  assert (HdE : d + E <= b).
  { assert (bpow (d - 1 + E) < bpow b)%R.
    { rewrite bpow_add, (bpow_IZR (d - 1)) by lia.
      apply IZR_le in Hd1. nra. }
    apply bpow_lt_inv in H. lia. }
  assert (HEb : E < b).
  { apply bpow_lt_inv. assert (1 <= IZR (Zpos M))%R by (apply IZR_le; lia). nra. }
  unfold binary_round_aux.
  destruct (shr_fexp_R (Zpos M) E loc_Exact ltac:(lia))
    as [mrs1 [e1 [H1 [Hm1 [He1 [[Hlo1 Hhi1] Hex1]]]]]].
  rewrite H1. fold d in He1.
  destruct (Z.eq_dec e1 E) as [Heq | Hne].
  - (* no shift: the result is exact *)
    rewrite (Hex1 Heq). simpl shr_record_of_loc. simpl loc_of_shr_record.
    simpl round_nearest_even. cbn [shr_m]. rewrite Heq, H1, (Hex1 Heq).
    cbn [shr_record_of_loc shr_m].
    change (1024 - 53) with 971. destruct (Z.leb_spec e1 971); [|lia].
    split; [reflexivity|]. cbn [SF2R]. rewrite Heq.
    replace (_ - _)%R with 0%R by ring. rewrite Rabs_R0.
    pose proof (bpow_pos (b - 51)). lra.
  - (* a shift: two roundings, each under one unit of the new exponent *)
    assert (He1v : e1 = fexp 53 1024 (d + E)) by lia.
    assert (He1b : e1 <= b - 53) by (unfold fexp, SpecFloat.emin in He1v; lia).
    assert (He1lo : -1074 <= e1) by (unfold fexp, SpecFloat.emin in He1v; lia).
    pose proof (round_nearest_even_bounds (shr_m mrs1) (loc_of_shr_record mrs1)) as Hrne.
    set (m1 := round_nearest_even (shr_m mrs1) (loc_of_shr_record mrs1)) in *.
    destruct (shr_fexp_R m1 e1 loc_Exact ltac:(lia))
      as [mrs2 [e2 [H2 [Hm2 [He2 [[Hlo2 Hhi2] _]]]]]].
    rewrite H2.
    pose proof (bpow_pos e1) as He1p. pose proof (bpow_pos e2) as He2p.
    assert (Hm1R : (IZR (shr_m mrs1) <= IZR m1 <= IZR (shr_m mrs1) + 1)%R).
    { rewrite <- (plus_IZR _ 1). split; apply IZR_le; lia. }
    assert (Hb53 : (bpow (b - 51) = 4 * bpow (b - 53))%R).
    { replace (b - 51) with (b - 53 + 1 + 1) by lia. rewrite !bpow_succ. ring. }
    assert (Hb52 : (bpow (b - 52) = 2 * bpow (b - 53))%R).
    { replace (b - 52) with (b - 53 + 1) by lia. rewrite !bpow_succ. ring. }
    assert (Hbb : (bpow b = bpow 53 * bpow (b - 53))%R).
    { rewrite <- bpow_add. f_equal. lia. }
    assert (H53 : (2 <= bpow 53)%R).
    { replace 53 with (52 + 1) by reflexivity. rewrite bpow_succ.
      pose proof (bpow_ge_1 52 ltac:(lia)). lra. }
    pose proof (bpow_le e1 (b - 53) He1b) as Hle1.
    pose proof (bpow_pos (b - 53)) as Hp53.
    assert (He2b : e2 <= b - 52).
    { destruct (Z.max_spec e1 (fexp 53 1024 (Zdigits2 m1 + e1))) as [[Hlt Hmax] | [Hge Hmax]];
        rewrite Hmax in He2; [|lia].
      destruct m1 as [|q1|q1] eqn:Em1; [| |lia].
      - simpl in Hlt. unfold fexp, SpecFloat.emin in Hlt. lia.
      - pose proof (Zdigits2_bounds q1) as [Hq1 _].
        set (d1 := Zdigits2 (Zpos q1)) in *.
        assert (d1 + e1 <= b + 1).
        { assert (bpow (d1 - 1 + e1) < bpow (b + 1))%R.
          { assert (1 <= d1) by (unfold d1; simpl; lia).
            rewrite bpow_add, (bpow_IZR (d1 - 1)) by lia.
            apply IZR_le in Hq1. rewrite bpow_succ. nra. }
          apply bpow_lt_inv in H. lia. }
        unfold fexp, SpecFloat.emin in He2. lia. }
    pose proof (bpow_le e2 (b - 52) He2b) as Hle2.
    destruct (SF2R_finite_or_zero s (shr_m mrs2) e2 Hm2) as [r [Hr Hfin]].
    rewrite Hr. destruct (Hfin ltac:(lia)) as [Hf Hval].
    split; [exact Hf|]. rewrite Hval, Rabs_cond_Zopp.
    apply Rabs_le. split; nra.
Qed.

Lemma iter_xO m d : Zpos (Pos.iter xO m d) = Zpos m * 2 ^ Zpos d.
Proof.
  induction d as [|d IH] using Pos.peano_ind.
  - simpl. rewrite (Pos2Z.inj_xO m). lia.
  - rewrite Pos.iter_succ, (Pos2Z.inj_xO (Pos.iter xO m d)), IH, Pos2Z.inj_succ.
    rewrite Z.pow_succ_r by lia. ring.
Qed.

Lemma shl_align_R mx ex ex' :
  (IZR (Zpos (fst (shl_align mx ex ex'))) * bpow (snd (shl_align mx ex ex'))
   = IZR (Zpos mx) * bpow ex)%R
  /\ (ex' <= ex -> snd (shl_align mx ex ex') = ex').
Proof.
  unfold shl_align. destruct (ex' - ex) as [|p|p] eqn:E; cbn [fst snd].
  - split; [reflexivity | lia].
  - split; [reflexivity | lia].
  - split; [|lia]. rewrite iter_xO, mult_IZR, <- bpow_IZR by lia.
    rewrite Rmult_assoc, <- bpow_add. do 2 f_equal. lia.
Qed.

Lemma binary_round_bound s m e b :
  (IZR (Zpos m) * bpow e < bpow b)%R ->
  -1000 <= b <= 900 ->
  SF_finite (binary_round 53 1024 s m e) = true
  /\ (Rabs (SF2R (binary_round 53 1024 s m e) - IZR (cond_Zopp s (Zpos m)) * bpow e)
      <= bpow (b - 51))%R.
Proof.
  intros HV Hb. unfold binary_round.
  pose proof (shl_align_R m e (fexp 53 1024 (Zpos (digits2_pos m) + e))) as [Hal _].
  destruct (shl_align m e _) as [mz ez]. cbn [fst snd] in Hal.
  rewrite <- Hal in HV.
  destruct (round_aux_bound s mz ez b HV Hb) as [Hf Hr].
  split; [exact Hf|].
  replace (IZR (cond_Zopp s (Zpos m)) * bpow e)%R
    with (IZR (cond_Zopp s (Zpos mz)) * bpow ez)%R; [exact Hr|].
  destruct s; simpl; [|exact Hal].
  change (IZR (Zneg mz)) with (IZR (- Zpos mz)). change (IZR (Zneg m)) with (IZR (- Zpos m)).
  rewrite !opp_IZR. lra.
Qed.

Lemma binary_normalize_bound m e b :
  (Rabs (IZR m * bpow e) < bpow b)%R ->
  -1000 <= b <= 900 ->
  SF_finite (binary_normalize 53 1024 m e false) = true
  /\ (Rabs (SF2R (binary_normalize 53 1024 m e false) - IZR m * bpow e) <= bpow (b - 51))%R.
Proof.
  intros HV Hb. pose proof (bpow_pos e) as He. pose proof (bpow_pos (b - 51)) as Hb51.
  destruct m as [|p|p]; simpl binary_normalize.
  - split; [reflexivity|]. simpl. rewrite Rmult_0_l, Rminus_0_r, Rabs_R0. lra.
  - apply (binary_round_bound false p e b); [|exact Hb].
    rewrite Rabs_pos_eq in HV; [exact HV|].
    assert (0 < IZR (Zpos p))%R by (apply IZR_lt; lia). nra.
  - apply (binary_round_bound true p e b); [|exact Hb].
    change (IZR (Zneg p)) with (IZR (- Zpos p)) in HV. rewrite opp_IZR in HV.
    replace (- IZR (Zpos p) * bpow e)%R with (- (IZR (Zpos p) * bpow e))%R in HV by ring.
    rewrite Rabs_Ropp, Rabs_pos_eq in HV; [exact HV|].
    assert (0 < IZR (Zpos p))%R by (apply IZR_lt; lia). nra.
Qed.

Lemma SF2R_finite s m e :
  SF2R (S754_finite s m e) = (IZR (cond_Zopp s (Zpos m)) * bpow e)%R.
Proof. reflexivity. Qed.

Lemma IZR_cond_Zopp s m : IZR (cond_Zopp s m) = ((if s then -1 else 1) * IZR m)%R.
Proof. destruct s; simpl; [rewrite opp_IZR|]; ring. Qed.

Lemma SFmul_bound x y b :
  SF_finite x = true -> SF_finite y = true ->
  (Rabs (SF2R x * SF2R y) < bpow b)%R ->
  -1000 <= b <= 900 ->
  SF_finite (SFmul 53 1024 x y) = true
  /\ (Rabs (SF2R (SFmul 53 1024 x y) - SF2R x * SF2R y) <= bpow (b - 51))%R.
Proof.
  intros Hx Hy HV Hb. pose proof (bpow_pos (b - 51)) as Hb51.
  destruct x as [sx|sx| |sx mx ex]; try discriminate;
    destruct y as [sy|sy| |sy my ey]; try discriminate;
    try (split; [reflexivity|]; simpl; rewrite ?Rmult_0_l, ?Rmult_0_r, Rminus_0_r, Rabs_R0; lra).
  assert (Hprod : (IZR (cond_Zopp (xorb sx sy) (Zpos (mx * my))) * bpow (ex + ey)
                   = SF2R (S754_finite sx mx ex) * SF2R (S754_finite sy my ey))%R).
  { rewrite !SF2R_finite, !IZR_cond_Zopp, bpow_add, Pos2Z.inj_mul, mult_IZR.
    destruct sx, sy; simpl; ring. }
  rewrite <- Hprod in *. simpl SFmul.
  apply round_aux_bound; [|exact Hb].
  rewrite IZR_cond_Zopp, Rmult_assoc, Rabs_mult in HV.
  assert (Hs : Rabs (if xorb sx sy then -1 else 1) = 1%R).
  { destruct (xorb sx sy); unfold Rabs; destruct (Rcase_abs _); lra. }
  rewrite Hs, Rmult_1_l, Rabs_pos_eq in HV; [exact HV|].
  pose proof (bpow_pos (ex + ey)).
  assert (0 < IZR (Zpos (mx * my)))%R by (apply IZR_lt; lia). nra.
Qed.

Lemma SFadd_bound x y b :
  SF_finite x = true -> SF_finite y = true ->
  (Rabs (SF2R x + SF2R y) < bpow b)%R ->
  -1000 <= b <= 900 ->
  SF_finite (SFadd 53 1024 x y) = true
  /\ (Rabs (SF2R (SFadd 53 1024 x y) - (SF2R x + SF2R y)) <= bpow (b - 51))%R.
Proof.
  intros Hx Hy HV Hb. pose proof (bpow_pos (b - 51)) as Hb51.
  assert (Hzero : forall v : R, (Rabs (v - v) <= bpow (b - 51))%R).
  { intros v. replace (v - v)%R with 0%R by ring. rewrite Rabs_R0. lra. }
  destruct x as [sx|sx| |sx mx ex]; try discriminate;
    destruct y as [sy|sy| |sy my ey]; try discriminate.
  - split; [destruct sx, sy; reflexivity|].
    replace (SF2R (SFadd 53 1024 (S754_zero sx) (S754_zero sy))) with 0%R
      by (destruct sx, sy; reflexivity).
    simpl. rewrite Rplus_0_l, Rminus_0_r, Rabs_R0. lra.
  - split; [reflexivity|]. simpl SFadd. cbn [SF2R].
    rewrite Rplus_0_l. apply Hzero.
  - split; [reflexivity|]. simpl SFadd. cbn [SF2R].
    rewrite Rplus_0_r. apply Hzero.
  - set (ez := Z.min ex ey).
    pose proof (shl_align_R mx ex ez) as [Hax Hex].
    pose proof (shl_align_R my ey ez) as [Hay Hey].
    specialize (Hex ltac:(unfold ez; lia)). specialize (Hey ltac:(unfold ez; lia)).
    rewrite Hex in Hax. rewrite Hey in Hay.
    assert (Hsum : (IZR (cond_Zopp sx (Zpos (fst (shl_align mx ex ez)))
                         + cond_Zopp sy (Zpos (fst (shl_align my ey ez)))) * bpow ez
                    = SF2R (S754_finite sx mx ex) + SF2R (S754_finite sy my ey))%R).
    { rewrite plus_IZR, !SF2R_finite, !IZR_cond_Zopp.
      destruct sx, sy; lra. }
    rewrite <- Hsum in *.
    change (SFadd 53 1024 (S754_finite sx mx ex) (S754_finite sy my ey))
      with (binary_normalize 53 1024
              (cond_Zopp sx (Zpos (fst (shl_align mx ex ez)))
               + cond_Zopp sy (Zpos (fst (shl_align my ey ez)))) ez false).
    apply binary_normalize_bound; assumption.
Qed.

Lemma mul_bound (x y : float) b :
  float_finite x = true -> float_finite y = true ->
  (Rabs (float_value x * float_value y) < bpow b)%R ->
  -1000 <= b <= 900 ->
  float_finite (x * y) = true
  /\ (Rabs (float_value (x * y) - float_value x * float_value y) <= bpow (b - 51))%R.
Proof.
  unfold float_finite, float_value. rewrite FloatAxioms.mul_spec. apply SFmul_bound.
Qed.

Lemma add_bound (x y : float) b :
  float_finite x = true -> float_finite y = true ->
  (Rabs (float_value x + float_value y) < bpow b)%R ->
  -1000 <= b <= 900 ->
  float_finite (x + y) = true
  /\ (Rabs (float_value (x + y) - (float_value x + float_value y)) <= bpow (b - 51))%R.
Proof.
  unfold float_finite, float_value. rewrite FloatAxioms.add_spec. apply SFadd_bound.
Qed.

Lemma Rabs_le_inv (x a : R) : (Rabs x <= a)%R -> (- a <= x <= a)%R.
Proof. unfold Rabs. destruct (Rcase_abs x); lra. Qed.

Lemma bpow_neg_IZR n : 0 <= n -> bpow (- n) = (/ IZR (2 ^ n))%R.
Proof. intros Hn. rewrite powerRZ_neg', bpow_IZR by assumption. reflexivity. Qed.

Lemma of_uint63_bound n :
  0 <= n < 2 ^ 53 ->
  float_finite (of_uint63 (Uint63.of_Z n)) = true
  /\ (IZR n - 4 <= float_value (of_uint63 (Uint63.of_Z n)) <= IZR n + 4)%R.
Proof.
  intros Hn. unfold float_finite, float_value.
  rewrite of_uint63_spec, Uint63.of_Z_spec. unfold prec, emax.
  rewrite Z.mod_small by (change wB with (2 ^ 63); lia).
  destruct (binary_normalize_bound n 0 53) as [Hf Hr]; [| lia |].
  - simpl (bpow 0). rewrite Rmult_1_r, Rabs_pos_eq by (apply IZR_le; lia).
    rewrite (bpow_IZR 53) by lia. apply IZR_lt. lia.
  - split; [exact Hf|]. simpl (bpow 0) in Hr. rewrite Rmult_1_r in Hr.
    change (53 - 51) with 2 in Hr. simpl (bpow 2) in Hr.
    apply Rabs_le_inv in Hr. lra.
Qed.

Lemma bpow_le_eps e : e <= -40 -> (bpow e <= eps)%R.
Proof.
  intros H. apply bpow_le in H. change (-40) with (- (40)) in H.
  rewrite bpow_neg_IZR in H by lia. exact H.
Qed.

Lemma eps_pos : (0 < eps)%R.
Proof. unfold eps. lra. Qed.

Lemma float_value_2pm53 : float_finite 0x1p-53 = true /\ float_value 0x1p-53 = (/ 9007199254740992)%R.
Proof.
  split; [reflexivity|]. unfold float_value.
  change (Prim2SF 0x1p-53) with (S754_finite false 4503599627370496 (-105)).
  rewrite SF2R_finite. change (-105) with (- (105)). rewrite bpow_neg_IZR by lia.
  change (2 ^ 105) with 40564819207303340847894502572032. simpl cond_Zopp. lra.
Qed.

Lemma random_random_range raw :
  float_finite (random_random raw) = true
  /\ (- eps <= float_value (random_random raw) <= 1 + eps)%R.
Proof.
  unfold random_random.
  pose proof (Z.mod_pos_bound raw (2 ^ 53) ltac:(lia)) as Hn.
  set (n := raw mod 2 ^ 53) in *.
  destruct (of_uint63_bound n Hn) as [Hf0 Hr0].
  destruct float_value_2pm53 as [Hfc Hc].
  assert (HnR : (0 <= IZR n <= 9007199254740991)%R).
  { split; apply IZR_le; lia. }
  destruct (mul_bound (of_uint63 (Uint63.of_Z n)) 0x1p-53 1 Hf0 Hfc) as [Hf Hr]; [| lia |].
  - rewrite Hc. simpl (bpow 1). apply Rabs_def1; lra.
  - split; [exact Hf|]. rewrite Hc in Hr. apply Rabs_le_inv in Hr.
    pose proof (bpow_le_eps (1 - 51) ltac:(lia)) as He.
    change (1 - 51) with (-50) in *. change (-50) with (- (50)) in Hr.
    rewrite bpow_neg_IZR in Hr by lia. change (2 ^ 50) with 1125899906842624 in Hr.
    unfold eps in *. lra.
Qed.

Lemma float_const (x : float) s m k :
  Prim2SF x = S754_finite s m (- k) -> 0 <= k ->
  float_finite x = true
  /\ float_value x = (IZR (cond_Zopp s (Zpos m)) / IZR (2 ^ k))%R.
Proof.
  intros H Hk. unfold float_finite, float_value. rewrite H. split; [reflexivity|].
  rewrite SF2R_finite, bpow_neg_IZR by assumption. reflexivity.
Qed.

Lemma float_value_2 : float_finite 2 = true /\ float_value 2 = 2%R.
Proof.
  destruct (float_const 2 false 4503599627370496 51 eq_refl ltac:(lia)) as [Hf Hv].
  split; [exact Hf|]. rewrite Hv. change (2 ^ 51) with 2251799813685248.
  simpl cond_Zopp. lra.
Qed.

Lemma float_value_m2 : float_finite (-2) = true /\ float_value (-2) = (-2)%R.
Proof.
  destruct (float_const (-2) true 4503599627370496 51 eq_refl ltac:(lia)) as [Hf Hv].
  split; [exact Hf|]. rewrite Hv. change (2 ^ 51) with 2251799813685248.
  simpl cond_Zopp. lra.
Qed.

Lemma float_value_1 : float_finite 1 = true /\ float_value 1 = 1%R.
Proof.
  destruct (float_const 1 false 4503599627370496 52 eq_refl ltac:(lia)) as [Hf Hv].
  split; [exact Hf|]. rewrite Hv. change (2 ^ 52) with 4503599627370496.
  simpl cond_Zopp. lra.
Qed.

Lemma float_value_m1 : float_finite (-1) = true /\ float_value (-1) = (-1)%R.
Proof.
  destruct (float_const (-1) true 4503599627370496 52 eq_refl ltac:(lia)) as [Hf Hv].
  split; [exact Hf|]. rewrite Hv. change (2 ^ 52) with 4503599627370496.
  simpl cond_Zopp. lra.
Qed.

Lemma float_value_12 : float_finite 12 = true /\ float_value 12 = 12%R.
Proof.
  destruct (float_const 12 false 6755399441055744 49 eq_refl ltac:(lia)) as [Hf Hv].
  split; [exact Hf|]. rewrite Hv. change (2 ^ 49) with 562949953421312.
  simpl cond_Zopp. lra.
Qed.

(** [int] of a finite float under [N + 1] in magnitude. *)
Lemma int_of_float_bound (p : float) (N : Z) :
  float_finite p = true -> 0 <= N ->
  (Rabs (float_value p) < IZR (N + 1))%R ->
  exists z, int_of_float p = Done z /\ - N <= z <= N.
Proof.
  unfold float_finite, float_value, int_of_float. intros Hf HN HV.
  destruct (Prim2SF p) as [s|s| |s m e]; try discriminate.
  - exists 0. split; [reflexivity | lia].
  - eexists. split; [reflexivity|].
    rewrite SF2R_finite, IZR_cond_Zopp, Rabs_mult, Rabs_mult in HV.
    assert (Hs : Rabs (if s then -1 else 1) = 1%R).
    { destruct s; unfold Rabs; destruct (Rcase_abs _); lra. }
    pose proof (bpow_pos e) as He.
    assert (Hm : (0 < IZR (Zpos m))%R) by (apply IZR_lt; lia).
    rewrite Hs, Rmult_1_l, !Rabs_pos_eq in HV by lra.
    assert (Hsh : 0 <= Z.shiftl (Zpos m) e < N + 1).
    { split; [apply Z.shiftl_nonneg; lia|].
      destruct (Z_le_gt_dec 0 e) as [Hpos | Hneg].
      - rewrite Z.shiftl_mul_pow2 by assumption. apply lt_IZR.
        rewrite mult_IZR, <- bpow_IZR by assumption. exact HV.
      - rewrite Z.shiftl_div_pow2 by lia. apply lt_IZR.
        pose proof (div_pow2_R (Zpos m) (- e) ltac:(lia) ltac:(lia)) as [Hlo _].
        pose proof (bpow_pos (- e)) as Hne.
        assert (Hinv : (bpow e * bpow (- e) = 1)%R).
        { rewrite <- bpow_add. replace (e + - e) with 0 by lia. reflexivity. }
        nra. }
    destruct s; simpl; lia.
Qed.

(** The scaled jitter [(a + c * random()) * 12] for [(a, c)] either [(-1, 2)]
    or [(1, -2)] truncates to an integer between -12 and 12. *)
Lemma jitter_bound (a c : float) raw :
  float_finite a = true -> float_finite c = true ->
  (float_value a = (-1)%R /\ float_value c = 2%R)
  \/ (float_value a = 1%R /\ float_value c = (-2)%R) ->
  exists z, int_of_float ((a + c * random_random raw) * 12)%float = Done z
            /\ -12 <= z <= 12.
Proof.
  intros Hfa Hfc Hac.
  destruct (random_random_range raw) as [Hfr Hr].
  pose proof eps_pos as Heps.
  assert (Heps' : (eps <= / 1000)%R) by (unfold eps; lra).
  set (r := random_random raw) in *.
  (* c * r *)
  destruct (mul_bound c r 2 Hfc Hfr) as [Hft Ht]; [| lia |].
  { simpl (bpow 2). apply Rabs_def1; destruct Hac as [[_ ->] | [_ ->]]; nra. }
  apply Rabs_le_inv in Ht.
  pose proof (bpow_le_eps (2 - 51) ltac:(lia)) as He1.
  set (t := (c * r)%float) in *.
  (* a + c * r *)
  destruct (add_bound a t 2 Hfa Hft) as [Hfu Hu]; [| lia |].
  { simpl (bpow 2). apply Rabs_def1; destruct Hac as [[Ha Hc] | [Ha Hc]];
      rewrite Ha; rewrite Hc in Ht; nra. }
  apply Rabs_le_inv in Hu.
  set (u := (a + t)%float) in *.
  assert (Hub : (-1 - 4 * eps <= float_value u <= 1 + 4 * eps)%R).
  { destruct Hac as [[Ha Hc] | [Ha Hc]]; rewrite Ha in Hu; rewrite Hc in Ht; nra. }
  (* (a + c * r) * 12 *)
  destruct float_value_12 as [Hf12 H12].
  destruct (mul_bound u 12 4 Hfu Hf12) as [Hfp Hp]; [| lia |].
  { rewrite H12. simpl (bpow 4). apply Rabs_def1; lra. }
  apply Rabs_le_inv in Hp. rewrite H12 in Hp.
  pose proof (bpow_le_eps (4 - 51) ltac:(lia)) as He2.
  apply (int_of_float_bound _ 12 Hfp ltac:(lia)).
  change (12 + 1) with 13. apply Rabs_def1; lra.
Qed.

(** * The screen shake *)

Lemma shake_amplitude : (float_of_int V11.SHAKE_INTENSITY * 0.12)%float = 12%float.
Proof. reflexivity. Qed.

(** The offsets of a frame: always computed, never beyond 12 pixels, and
    both 0 with no draw when the shake time is not positive. *)
Lemma shake_offset_returns rng k (st : float) :
  exists ox oy k',
    V11.shake_offset rng k st = Done (ox, oy, k')
    /\ -12 <= ox <= 12 /\ -12 <= oy <= 12
    /\ ((0 <? st)%float = false -> ox = 0 /\ oy = 0 /\ k' = k).
Proof.
  unfold V11.shake_offset. destruct (0 <? st)%float.
  - rewrite shake_amplitude. unfold random_uniform.
    change (1 - -1)%float with 2%float. change (-1 - 1)%float with (-2)%float.
    destruct float_value_1 as [Hf1 H1]. destruct float_value_m1 as [Hfm1 Hm1].
    destruct float_value_2 as [Hf2 H2]. destruct float_value_m2 as [Hfm2 Hm2].
    destruct (jitter_bound (-1) 2 (rng k) Hfm1 Hf2 (or_introl (conj Hm1 H2)))
      as [ox [Hox Hbx]].
    destruct (jitter_bound 1 (-2) (rng (S k)) Hf1 Hfm2 (or_intror (conj H1 Hm2)))
      as [oy [Hoy Hby]].
    rewrite Hox. cbn [bind]. rewrite Hoy. cbn [bind].
    exists ox, oy, (S (S k)). repeat split; try lia; discriminate.
  - exists 0, 0, k. repeat split; lia.
Qed.

(** ** C3 *)

Lemma V1_frame_game_over fuel rng evs k g :
  game_over g = true -> ~ In (KEYDOWN K_r) evs ->
  V1.frame fuel rng evs k g = Exit
  \/ exists g', V1.frame fuel rng evs k g = Done (g', k)
                /\ game_over g' = true /\ same_board g g'.
Proof.
  intros Hover Hno. unfold V1.frame.
  destruct (V1_poll_no_restart fuel rng evs k g (or_intror Hno))
    as [running [g' [Hp [Hs [_ [Hf [Hsc [Hgo _]]]]]]]].
  rewrite Hp. cbn [bind]. destruct running; cbn [negb]; [|left; reflexivity].
  right. exists g'. rewrite update_game_over by congruence.
  repeat split; congruence.
Qed.

Lemma V1_frames_game_over fuel rng batches : forall k g,
  game_over g = true ->
  Forall (fun evs => ~ In (KEYDOWN K_r) evs) batches ->
  V1.frames fuel rng batches k g = Exit
  \/ exists g', V1.frames fuel rng batches k g = Done (g', k)
                /\ game_over g' = true /\ same_board g g'.
Proof.
  induction batches as [|evs batches IH]; intros k g Hover Hall; simpl.
  - right. exists g. repeat split; auto.
  - inversion Hall as [|? ? Hevs Hrest]; subst.
    destruct (V1_frame_game_over fuel rng evs k g Hover Hevs)
      as [Hf | [g1 [Hf [Hover1 [Hs1 [Hf1 Hsc1]]]]]]; rewrite Hf; cbn [bind].
    + left; reflexivity.
    + destruct (IH k g1 Hover1 Hrest) as [Hfs | [g2 [Hfs [Hover2 [Hs2 [Hf2 Hsc2]]]]]].
      * left; exact Hfs.
      * right. exists g2. rewrite Hfs. repeat split; congruence.
Qed.

Lemma V11_update_game_over fuel rng k s :
  game_over (V11.the_game s) = true -> V11.update fuel rng k s = Done (s, k).
Proof. intros H. unfold V11.update. rewrite H. reflexivity. Qed.

Lemma V11_frame_game_over fuel rng dt evs k s :
  game_over (V11.the_game s) = true -> ~ In (KEYDOWN K_r) evs ->
  V11.frame fuel rng dt evs k s = Exit
  \/ exists s' off k', V11.frame fuel rng dt evs k s = Done (s', off, k')
                       /\ game_over (V11.the_game s') = true
                       /\ same_board (V11.the_game s) (V11.the_game s').
Proof.
  intros Hover Hno. unfold V11.frame.
  destruct (V11_poll_no_restart fuel rng evs k (V11.the_game s) (or_intror Hno))
    as [Hp | [g' [Hp [Hs [_ [Hf [Hsc [Hgo _]]]]]]]]; rewrite Hp; cbn [bind].
  - left; reflexivity.
  - right. rewrite V11_update_game_over by (cbn [V11.the_game]; congruence).
    cbn [bind V11.the_game V11.shake_time].
    destruct (shake_offset_returns rng k (V11.decay_shake (V11.shake_time s) dt))
      as [ox [oy [k' [Hoff _]]]].
    rewrite Hoff. cbn [bind]. eexists; eexists; eexists. split; [reflexivity|].
    cbn [V11.the_game]. repeat split; congruence.
Qed.

Lemma V11_frames_game_over fuel rng inputs : forall k s,
  game_over (V11.the_game s) = true ->
  Forall (fun i => ~ In (KEYDOWN K_r) (snd i)) inputs ->
  V11.frames fuel rng inputs k s = Exit
  \/ exists s' k', V11.frames fuel rng inputs k s = Done (s', k')
                   /\ game_over (V11.the_game s') = true
                   /\ same_board (V11.the_game s) (V11.the_game s').
Proof.
  induction inputs as [|[dt evs] inputs IH]; intros k s Hover Hall; simpl.
  - right. exists s, k. repeat split; auto.
  - inversion Hall as [|? ? Hevs Hrest]; subst. simpl in Hevs.
    destruct (V11_frame_game_over fuel rng dt evs k s Hover Hevs)
      as [Hf | [s1 [off [k1 [Hf [Hover1 [Hs1 [Hf1 Hsc1]]]]]]]]; rewrite Hf; cbn [bind].
    + left; reflexivity.
    + destruct (IH k1 s1 Hover1 Hrest) as [Hfs | [s2 [k2 [Hfs [Hover2 [Hs2 [Hf2 Hsc2]]]]]]].
      * left; exact Hfs.
      * right. exists s2, k2. rewrite Hfs. repeat split; congruence.
Qed.

(** C3.  A tick in play whose attempted head is off the grid or on a segment
    of the snake ends the game and leaves snake, food and score exactly as
    they were (the attempted head is not appended).  From then on, whatever
    the iterations of the loop and their events, as long as no R key comes
    either the loop has been left or the game is still over with the same
    snake, food and score.  Both files. *)
Theorem collision_freezes_game :
  forall fuel rng k (g : game) (st : float) (head : pos),
    game_over g = false ->
    last_segment (snake g) = Some head ->
    in_grid (attempted_head g head) = false \/ In (attempted_head g head) (snake g) ->
    exists g1,
      V1.update fuel rng k g = Done (g1, k)
      /\ V11.update fuel rng k (V11.mkState g st) = Done (V11.mkState g1 st, k)
      /\ game_over g1 = true
      /\ snake g1 = snake g /\ food g1 = food g /\ score g1 = score g
      /\ (forall batches,
            Forall (fun evs => ~ In (KEYDOWN K_r) evs) batches ->
            V1.frames fuel rng batches k g1 = Exit
            \/ exists g2, V1.frames fuel rng batches k g1 = Done (g2, k)
                          /\ game_over g2 = true
                          /\ snake g2 = snake g /\ food g2 = food g /\ score g2 = score g)
      /\ (forall inputs,
            Forall (fun i => ~ In (KEYDOWN K_r) (snd i)) inputs ->
            V11.frames fuel rng inputs k (V11.mkState g1 st) = Exit
            \/ exists s2 k2,
                 V11.frames fuel rng inputs k (V11.mkState g1 st) = Done (s2, k2)
                 /\ game_over (V11.the_game s2) = true
                 /\ snake (V11.the_game s2) = snake g
                 /\ food (V11.the_game s2) = food g
                 /\ score (V11.the_game s2) = score g).
Proof.
  intros fuel rng k g st head Hplay Hhead Hcol.
  apply collides_true_iff in Hcol.
  pose proof (update_collision fuel rng k g head Hplay Hhead Hcol) as H1.
  set (g1 := mkGame (snake g) (V1.commit_direction g) (next_direction g) (food g)
                    (score g) true) in *.
  assert (Hover1 : game_over g1 = true) by reflexivity.
  exists g1. split; [exact H1|]. split.
  { rewrite V11_update_as_V1. cbn [V11.the_game V11.shake_time]. rewrite H1.
    cbn [bind]. replace (score g1) with (score g) by reflexivity.
    rewrite Z.eqb_refl. reflexivity. }
  split; [exact Hover1|]. split; [reflexivity|]. split; [reflexivity|].
  split; [reflexivity|]. split.
  - intros batches Hall.
    destruct (V1_frames_game_over fuel rng batches k g1 Hover1 Hall)
      as [Hf | [g2 [Hf [Hover [Hs [Hfo Hsc]]]]]]; [left; exact Hf|].
    right. exists g2. repeat split; assumption.
  - intros inputs Hall.
    destruct (V11_frames_game_over fuel rng inputs k (V11.mkState g1 st) Hover1 Hall)
      as [Hf | [s2 [k2 [Hf [Hover [Hs [Hfo Hsc]]]]]]]; [left; exact Hf|].
    right. exists s2, k2. repeat split; assumption.
Qed.

Lemma collision_freezes_game_witness :
  exists g1,
    V1.update 1 (fun _ => 0) 0
        (mkGame [(27, 15); (28, 15); (29, 15)] (1, 0) (1, 0) (3, 3) 0 false) = Done (g1, 0%nat)
    /\ game_over g1 = true
    /\ snake g1 = [(27, 15); (28, 15); (29, 15)].
Proof.
  destruct (collision_freezes_game 1 (fun _ => 0) 0%nat
              (mkGame [(27, 15); (28, 15); (29, 15)] (1, 0) (1, 0) (3, 3) 0 false)
              0%float (29, 15) eq_refl eq_refl (or_introl eq_refl))
    as [g1 [H1 [_ [H3 [H4 _]]]]].
  exists g1. repeat split; assumption.
Defined.

(** ** C10 *)

(** C10.  In [super_snake_V1.1.py] the amplitude [shake_intensity * 0.12] is
    the float 12 whatever the shake time.  The offsets of a frame are always
    computed ([int] is never applied to an infinity or a NaN), each lies
    between -12 and 12, and both are 0 when the shake time is not positive,
    0 in particular.  A frame whose events and tick go through returns, with
    such offsets, and the game it leaves is the one the tick of the first
    file computes from the polled game: neither the shake time nor the
    offsets enter it. *)
Theorem shake_offsets_bounded :
  forall fuel rng (dt : float) (evs : list event) k (s : V11.state) (st : float),
    (float_of_int V11.SHAKE_INTENSITY * 0.12)%float = 12%float
    /\ (exists ox oy k',
          V11.shake_offset rng k st = Done (ox, oy, k')
          /\ -12 <= ox <= 12 /\ -12 <= oy <= 12
          /\ ((0 <? st)%float = false -> ox = 0 /\ oy = 0))
    /\ V11.shake_offset rng k 0%float = Done (0, 0, k)
    /\ (forall g1 k1 s2 k2,
          V11.poll fuel rng evs k (V11.the_game s) = Done (g1, k1) ->
          V11.update fuel rng k1 (V11.mkState g1 (V11.shake_time s)) = Done (s2, k2) ->
          V1.update fuel rng k1 g1 = Done (V11.the_game s2, k2)
          /\ exists ox oy k3,
               V11.frame fuel rng dt evs k s
                 = Done (V11.mkState (V11.the_game s2)
                                     (V11.decay_shake (V11.shake_time s2) dt),
                         (ox, oy), k3)
               /\ -12 <= ox <= 12 /\ -12 <= oy <= 12
               /\ ((0 <? V11.decay_shake (V11.shake_time s2) dt)%float = false ->
                   ox = 0 /\ oy = 0)).
Proof.
  intros fuel rng dt evs k s st.
  split; [exact shake_amplitude|]. split.
  { destruct (shake_offset_returns rng k st) as [ox [oy [k' [H [Hx [Hy Hz]]]]]].
    exists ox, oy, k'. repeat split; try lia; try assumption; apply Hz; assumption. }
  split; [reflexivity|].
  intros g1 k1 s2 k2 Hp Hu. split.
  { apply (proj1 (V11_update_game fuel rng k1 g1 (V11.shake_time s))). exact Hu. }
  destruct (shake_offset_returns rng k2 (V11.decay_shake (V11.shake_time s2) dt))
    as [ox [oy [k3 [H [Hx [Hy Hz]]]]]].
  exists ox, oy, k3. unfold V11.frame. rewrite Hp. cbn [bind]. rewrite Hu. cbn [bind].
  rewrite H. cbn [bind].
  repeat split; try lia; try assumption; apply Hz; assumption.
Qed.

(** * Further properties *)

Lemma V1_first_game_reachable : V1.reachable V1_first_game.
Proof. apply (V1.reach_init 1 (fun _ => 0) 0%nat _ 2%nat). reflexivity. Qed.

Lemma V11_first_state_reachable : V11.reachable V11_first_state.
Proof. apply (V11.reach_init 1 (fun _ => 0) 0%nat _ 2%nat). reflexivity. Qed.

Lemma last_segment_inv (l : list pos) (p : pos) :
  last_segment l = Some p -> exists l', l = l' ++ [p].
Proof.
  induction l as [|q l IH]; simpl; [discriminate|].
  destruct l as [|q' l'].
  - intros H; inversion H; subst. exists []. reflexivity.
  - intros H. destruct (IH H) as [l0 Hl0]. exists (q :: l0). rewrite Hl0. reflexivity.
Qed.

Lemma unit_direction_adjacent (p d : pos) :
  unit_direction d -> adjacent p (fst p + fst d, snd p + snd d).
Proof.
  unfold unit_direction, adjacent. destruct p as [x y].
  intros [-> | [-> | [-> | ->]]]; simpl; lia.
Qed.

Lemma unit_direction_not_self_opposite (d : pos) : unit_direction d -> d <> opposite d.
Proof.
  unfold unit_direction, opposite.
  intros [-> | [-> | [-> | ->]]]; simpl; intros H; inversion H.
Qed.

Lemma connected_app (l : list pos) (p q : pos) :
  connected (l ++ [p]) -> adjacent p q -> connected (l ++ [p; q]).
Proof.
  induction l as [|a l IH]; simpl; intros Hc Hadj.
  - split; [assumption | exact I].
  - destruct l as [|b l']; simpl in *.
    + destruct Hc as [Hab _]. repeat split; assumption.
    + destruct Hc as [Hab Hc]. split; [assumption|]. apply IH; assumption.
Qed.

Lemma connected_tl (l : list pos) : connected l -> connected (tl l).
Proof.
  destruct l as [|a [|b l]]; simpl; try tauto.
Qed.

Lemma commit_direction_unit (g : game) :
  unit_direction (direction g) -> unit_direction (next_direction g) ->
  unit_direction (V1.commit_direction g).
Proof. intros Hd Hn. unfold V1.commit_direction. destruct (negb _); assumption. Qed.

Lemma set_next_direction_invariant n0 d g :
  unit_direction d -> game_invariant n0 g -> game_invariant n0 (set_next_direction d g).
Proof.
  unfold game_invariant. simpl. intros Hd H. tauto.
Qed.

Lemma initial_game_invariant n0 (g : game) d :
  2 <= n0 ->
  Z.of_nat (length (snake g)) = n0 ->
  connected (snake g) ->
  (exists l neck head, snake g = l ++ [neck; head]
     /\ head = (fst neck + fst d, snd neck + snd d)) ->
  unit_direction d ->
  direction g = d -> next_direction g = d ->
  score g = 0 -> in_grid (food g) = true -> ~ In (food g) (snake g) ->
  game_invariant n0 g.
Proof.
  intros Hn Hlen Hc Hh Hd Hdir Hnext Hsc Hgrid Hfree. unfold game_invariant.
  rewrite Hdir, Hnext, Hsc. repeat split; try assumption; try lia. intros _. exact Hh.
Qed.

Lemma V1_init_invariant fuel rng k g k' :
  V1.init fuel rng k = Done (g, k') -> game_invariant 3 g.
Proof.
  intros H. destruct (V1_init_shape _ _ _ _ _ H) as [Hs [Hd [Hn [Hsc [_ [Hg Hf]]]]]].
  apply (initial_game_invariant 3 g (-1, 0)); try assumption; try lia.
  - rewrite Hs. reflexivity.
  - rewrite Hs. simpl. unfold adjacent. simpl. repeat split; lia.
  - rewrite Hs. exists [(17, 15)], (16, 15), (15, 15). split; reflexivity.
  - right; right; left; reflexivity.
Qed.

Lemma V11_restart_invariant fuel rng k g k' :
  V11.restart fuel rng k = Done (g, k') -> game_invariant 2 g.
Proof.
  intros H. destruct (V11_restart_shape _ _ _ _ _ H) as [Hs [Hd [Hn [Hsc [_ [Hg Hf]]]]]].
  apply (initial_game_invariant 2 g (1, 0)); try assumption; try lia.
  - rewrite Hs. reflexivity.
  - rewrite Hs. simpl. unfold adjacent. simpl. repeat split; lia.
  - rewrite Hs. exists [], (14, 15), (15, 15). split; reflexivity.
  - right; right; right; reflexivity.
Qed.

(** A tick keeps the invariant. *)
Lemma V1_update_invariant n0 fuel rng k g g' k' :
  2 <= n0 ->
  V1.update fuel rng k g = Done (g', k') ->
  game_invariant n0 g -> game_invariant n0 g'.
Proof.
  intros Hn0 H Hinv. destruct (game_over g) eqn:Hplay.
  { rewrite update_game_over in H by assumption. inversion H; subst; assumption. }
  destruct (last_segment (snake g)) as [head|] eqn:Hhead.
  2:{ unfold V1.update in H. rewrite Hplay, Hhead in H. discriminate. }
  destruct Hinv as [Hlen [Hsc [Hfg [Hff [Hd [Hnd [Hc Hh]]]]]]].
  pose proof (commit_direction_unit g Hd Hnd) as Hcd.
  destruct (last_segment_inv _ _ Hhead) as [l' Hl'].
  rewrite (update_playing _ _ _ _ head Hplay Hhead) in H. cbv zeta in H.
  destruct (V1.collides (attempted_head g head) (snake g)) eqn:Hcol.
  - inversion H; subst. unfold game_invariant. simpl.
    repeat split; try assumption. discriminate.
  - assert (Hadj : adjacent head (attempted_head g head)).
    { apply unit_direction_adjacent. exact Hcd. }
    assert (Hcon : connected (snake g ++ [attempted_head g head])).
    { rewrite Hl', <- app_assoc. simpl. apply connected_app; [|exact Hadj].
      rewrite <- Hl'. exact Hc. }
    assert (Hhd : snake g ++ [attempted_head g head] = l' ++ [head; attempted_head g head]).
    { rewrite Hl', <- app_assoc. reflexivity. }
    destruct (pos_eqb (attempted_head g head) (food g)) eqn:Hfood.
    + destruct (V1.random_food_position fuel rng k _) as [[p k1]| | |] eqn:E;
        simpl in H; try discriminate.
      inversion H; subst. unfold game_invariant. simpl.
      destruct (random_food_position_sound _ _ _ _ _ _ E) as [Hpg Hpf].
      repeat split; try assumption; try lia.
      * rewrite length_app. simpl. lia.
      * intros _. exists l', head, (attempted_head g head). split; [exact Hhd | reflexivity].
    + inversion H; subst. unfold game_invariant. simpl.
      apply pos_eqb_neq in Hfood.
      assert (Hl'ne : l' <> []).
      { intros ->. rewrite Hl' in Hlen. simpl in Hlen. lia. }
      assert (Htl : tl (snake g ++ [attempted_head g head])
                    = tl l' ++ [head; attempted_head g head]).
      { rewrite Hhd. destruct l'; [congruence | reflexivity]. }
      repeat split; try assumption.
      * rewrite length_tl_app. exact Hlen.
      * intros Hin. destruct (snake g) as [|a sn] eqn:Es; simpl in Hin.
        -- destruct Hin.
        -- apply in_app_or in Hin. destruct Hin as [Hin | [Heq | []]];
             [apply Hff; right; exact Hin | congruence].
      * apply connected_tl. exact Hcon.
      * intros _. exists (tl l'), head, (attempted_head g head).
        split; [exact Htl | reflexivity].
Qed.

Lemma V1_on_event_invariant fuel rng ev k g running g' k' :
  V1.on_event fuel rng ev k g = Done (running, g', k') ->
  game_invariant 3 g -> game_invariant 3 g'.
Proof.
  intros H Hinv. destruct ev as [|key|]; simpl in H.
  - inversion H; subst; assumption.
  - destruct key; simpl in H;
      try (inversion H; subst; first
             [ assumption
             | apply set_next_direction_invariant; [unfold unit_direction; tauto | assumption] ]).
    + destruct (game_over g); simpl in H; inversion H; subst; assumption.
    + destruct (game_over g); simpl in H; [|inversion H; subst; assumption].
      rewrite V1_restart_is_init in H.
      destruct (V1.init fuel rng k) as [[g1 k1]| | |] eqn:E; simpl in H; try discriminate.
      inversion H; subst. eapply V1_init_invariant; eassumption.
  - inversion H; subst; assumption.
Qed.

Lemma V1_reachable_invariant g : V1.reachable g -> game_invariant 3 g.
Proof.
  induction 1 as [fuel rng k g k' Hinit | fuel rng ev k g running g' k' Hg IH Hev
                 | fuel rng k g g' k' Hg IH Hupd].
  - eapply V1_init_invariant; eassumption.
  - eapply V1_on_event_invariant; eassumption.
  - eapply V1_update_invariant; [lia | eassumption | assumption].
Qed.

(** What V1.1 adds: the pending direction is never the reverse of the
    committed one. *)
Lemma V11_on_event_invariant fuel rng ev k g g' k' :
  V11.on_event fuel rng ev k g = Done (g', k') ->
  game_invariant 2 g /\ next_direction g <> opposite (direction g) ->
  game_invariant 2 g' /\ next_direction g' <> opposite (direction g').
Proof.
  intros H [Hinv Hrev]. destruct ev as [|key|]; simpl in H.
  - discriminate.
  - destruct key; simpl in H; try discriminate;
      try (inversion H; subst; split; assumption);
      try (destruct (pos_eqb (direction g) _) eqn:E; simpl in H; inversion H; subst;
           [ split; assumption
           | split; [ apply set_next_direction_invariant;
                      [unfold unit_direction; tauto | assumption]
                    | simpl; apply pos_eqb_neq in E; intros Heq; apply E;
                      destruct (direction g) as [x y]; unfold opposite in Heq; simpl in Heq;
                      inversion Heq; f_equal; lia ] ]).
    destruct (game_over g); simpl in H; [|inversion H; subst; split; assumption].
    split; [eapply V11_restart_invariant; eassumption|].
    destruct (V11_restart_shape _ _ _ _ _ H) as [_ [Hd [Hn _]]].
    rewrite Hd, Hn. discriminate.
  - inversion H; subst; split; assumption.
Qed.

Lemma V11_poll_invariant fuel rng evs : forall k g g' k',
  V11.poll fuel rng evs k g = Done (g', k') ->
  game_invariant 2 g /\ next_direction g <> opposite (direction g) ->
  game_invariant 2 g' /\ next_direction g' <> opposite (direction g').
Proof.
  induction evs as [|ev evs IH]; intros k g g' k' H Hinv; simpl in H.
  - inversion H; subst; assumption.
  - destruct (V11.on_event fuel rng ev k g) as [[g1 k1]| | |] eqn:E; simpl in H;
      try discriminate.
    eapply IH; [exact H|]. eapply V11_on_event_invariant; eassumption.
Qed.

Lemma update_directions fuel rng k g g' k' :
  V1.update fuel rng k g = Done (g', k') ->
  g' = g
  \/ (direction g' = V1.commit_direction g /\ next_direction g' = next_direction g).
Proof.
  intros H. destruct (game_over g) eqn:Hplay.
  { rewrite update_game_over in H by assumption. inversion H; subst. left; reflexivity. }
  right. destruct (last_segment (snake g)) as [head|] eqn:Hhead.
  2:{ unfold V1.update in H. rewrite Hplay, Hhead in H. discriminate. }
  rewrite (update_playing _ _ _ _ head Hplay Hhead) in H. cbv zeta in H.
  destruct (V1.collides _ _).
  - inversion H; subst. split; reflexivity.
  - destruct (pos_eqb _ _).
    + destruct (V1.random_food_position _ _ _ _) as [[p k1]| | |]; simpl in H;
        try discriminate.
      inversion H; subst. split; reflexivity.
    + inversion H; subst. split; reflexivity.
Qed.

Lemma V11_update_invariant fuel rng k s s' k' :
  V11.update fuel rng k s = Done (s', k') ->
  game_invariant 2 (V11.the_game s)
  /\ next_direction (V11.the_game s) <> opposite (direction (V11.the_game s)) ->
  game_invariant 2 (V11.the_game s')
  /\ next_direction (V11.the_game s') <> opposite (direction (V11.the_game s')).
Proof.
  destruct s as [g st]. cbn [V11.the_game]. intros H [Hinv Hrev].
  apply (proj1 (V11_update_game fuel rng k g st)) in H.
  split; [eapply V1_update_invariant; [| exact H | exact Hinv]; lia|].
  destruct (update_directions _ _ _ _ _ _ H) as [-> | [Hd Hn]]; [exact Hrev|].
  rewrite Hd, Hn, (commit_direction_other g Hrev).
  apply unit_direction_not_self_opposite.
  destruct Hinv as [_ [_ [_ [_ [_ [Hnd _]]]]]]. exact Hnd.
Qed.

Lemma V11_reachable_invariant s :
  V11.reachable s ->
  game_invariant 2 (V11.the_game s)
  /\ next_direction (V11.the_game s) <> opposite (direction (V11.the_game s)).
Proof.
  induction 1 as [fuel rng k s k' Hinit | fuel rng ev k s g' k' Hs IH Hev
                 | fuel rng k s s' k' Hs IH Hupd
                 | fuel rng dt evs k s s' off k' Hs IH Hfr].
  - rewrite V11_init_as_restart in Hinit.
    destruct (V11.restart fuel rng k) as [[g0 k0]| | |] eqn:E; simpl in Hinit;
      try discriminate.
    inversion Hinit; subst. cbn [V11.the_game].
    split; [eapply V11_restart_invariant; eassumption|].
    destruct (V11_restart_shape _ _ _ _ _ E) as [_ [Hd [Hn _]]].
    rewrite Hd, Hn. discriminate.
  - cbn [V11.the_game]. eapply V11_on_event_invariant; eassumption.
  - eapply V11_update_invariant; eassumption.
  - destruct (V11_frame_game _ _ _ _ _ _ _ _ _ Hfr) as [g1 [k1 [s2 [k2 [Hp [Hu Heq]]]]]].
    rewrite Heq. eapply V11_update_invariant; [exact Hu|]. cbn [V11.the_game].
    eapply V11_poll_invariant; eassumption.
Qed.

(** ** The food sampler *)

Lemma random_food_position_first fuel rng snake : forall k p k',
  V1.random_food_position fuel rng k snake = Done (p, k') <->
  exists n, (n < fuel)%nat
    /\ (forall i, (i < n)%nat -> In (food_draw rng (k + 2 * i)) snake)
    /\ ~ In (food_draw rng (k + 2 * n)) snake
    /\ p = food_draw rng (k + 2 * n)
    /\ k' = (k + 2 * (n + 1))%nat.
Proof.
  induction fuel as [|fuel IH]; intros k p k'.
  - split; [discriminate | intros [n [Hn _]]; lia].
  - rewrite random_food_position_unfold.
    destruct (contains (food_draw rng k) snake) eqn:E; simpl.
    + apply contains_In in E. rewrite IH. split.
      * intros [n [Hn [Hocc [Hfree [Hp Hk]]]]]. exists (S n).
        split; [lia|]. split; [|split; [same_draw Hfree | split; [same_draw Hp | lia]]].
        intros i Hi. destruct i as [|i]; [same_draw E|].
        assert (Hi' : (i < n)%nat) by lia. specialize (Hocc i Hi'). same_draw Hocc.
      * intros [n [Hn [Hocc [Hfree [Hp Hk]]]]]. destruct n as [|n].
        -- exfalso. apply Hfree. same_draw E.
        -- exists n.
           split; [lia|]. split; [|split; [same_draw Hfree | split; [same_draw Hp | lia]]].
           intros i Hi. assert (Hi' : (S i < S n)%nat) by lia.
           specialize (Hocc (S i) Hi'). same_draw Hocc.
    + apply contains_not_In in E. split.
      * intros H. inversion H; subst. exists 0%nat.
        split; [lia|]. split; [intros i Hi; lia|].
        split; [same_draw E|]. split; [|lia].
        f_equal. lia.
      * intros [n [Hn [Hocc [Hfree [Hp Hk]]]]]. destruct n as [|n].
        -- subst. f_equal. f_equal; [f_equal; lia | lia].
        -- exfalso. apply E. specialize (Hocc 0%nat ltac:(lia)). same_draw Hocc.
Qed.

(** X1.  Both samplers return the first draw that falls on a free cell: the
    call returns position [p] with cursor [k'] exactly when, for some [n]
    under the fuel, the first [n] draws are all on the snake, draw [n] is
    free and is [p], and two raw values were consumed per draw. *)
Theorem sampler_returns_first_free_draw :
  forall fuel rng k (snake : list pos) (p : pos) (k' : nat),
    (V1.random_food_position fuel rng k snake = Done (p, k') <->
     exists n, (n < fuel)%nat
       /\ (forall i, (i < n)%nat -> In (food_draw rng (k + 2 * i)) snake)
       /\ ~ In (food_draw rng (k + 2 * n)) snake
       /\ p = food_draw rng (k + 2 * n)
       /\ k' = (k + 2 * (n + 1))%nat)
    /\ (V11.random_food fuel rng k snake = Done (p, k') <->
        V1.random_food_position fuel rng k snake = Done (p, k')).
Proof.
  intros fuel rng k snake p k'. split.
  - apply random_food_position_first.
  - rewrite random_food_same. tauto.
Qed.

(** ** What holds throughout a run *)

(** X2.  In every game [main] can hold the score is the number of segments
    the snake has grown by: its length is the score plus 3 in
    [super_snake.py] and plus 2 in V1.1; the score is never negative. *)
Theorem score_counts_growth :
  forall (g : game) (s : V11.state),
    V1.reachable g -> V11.reachable s ->
    (Z.of_nat (length (snake g)) = score g + 3 /\ 0 <= score g)
    /\ (Z.of_nat (length (snake (V11.the_game s))) = score (V11.the_game s) + 2
        /\ 0 <= score (V11.the_game s)).
Proof.
  intros g s Hg Hs.
  destruct (V1_reachable_invariant g Hg) as [H1 [H2 _]].
  destruct (V11_reachable_invariant s Hs) as [[H3 [H4 _]] _].
  repeat split; assumption.
Qed.

Lemma score_counts_growth_witness :
  (Z.of_nat (length (snake V1_first_game)) = score V1_first_game + 3
   /\ 0 <= score V1_first_game)
  /\ (Z.of_nat (length (snake (V11.the_game V11_first_state)))
        = score (V11.the_game V11_first_state) + 2
      /\ 0 <= score (V11.the_game V11_first_state)).
Proof.
  exact (score_counts_growth V1_first_game V11_first_state
           V1_first_game_reachable V11_first_state_reachable).
Defined.

(** X4.  In every game [main] can hold the food is on the grid and on no
    segment of the snake.  Both files. *)
Theorem food_is_never_on_the_snake :
  forall (g : game) (s : V11.state),
    V1.reachable g -> V11.reachable s ->
    (in_grid (food g) = true /\ ~ In (food g) (snake g))
    /\ (in_grid (food (V11.the_game s)) = true
        /\ ~ In (food (V11.the_game s)) (snake (V11.the_game s))).
Proof.
  intros g s Hg Hs.
  destruct (V1_reachable_invariant g Hg) as [_ [_ [H1 [H2 _]]]].
  destruct (V11_reachable_invariant s Hs) as [[_ [_ [H3 [H4 _]]]] _].
  repeat split; assumption.
Qed.

Lemma food_is_never_on_the_snake_witness :
  (in_grid (food V1_first_game) = true /\ ~ In (food V1_first_game) (snake V1_first_game))
  /\ (in_grid (food (V11.the_game V11_first_state)) = true
      /\ ~ In (food (V11.the_game V11_first_state))
              (snake (V11.the_game V11_first_state))).
Proof.
  exact (food_is_never_on_the_snake V1_first_game V11_first_state
           V1_first_game_reachable V11_first_state_reachable).
Defined.

(** X5.  In every game [main] can hold the committed and the pending
    direction are each one of the four unit moves: no event and no tick ever
    produces a diagonal or a null direction.  Both files. *)
Theorem directions_are_unit_moves :
  forall (g : game) (s : V11.state),
    V1.reachable g -> V11.reachable s ->
    (unit_direction (direction g) /\ unit_direction (next_direction g))
    /\ (unit_direction (direction (V11.the_game s))
        /\ unit_direction (next_direction (V11.the_game s))).
Proof.
  intros g s Hg Hs.
  destruct (V1_reachable_invariant g Hg) as [_ [_ [_ [_ [H1 [H2 _]]]]]].
  destruct (V11_reachable_invariant s Hs) as [[_ [_ [_ [_ [H3 [H4 _]]]]]] _].
  repeat split; assumption.
Qed.

Lemma directions_are_unit_moves_witness :
  (unit_direction (direction V1_first_game)
   /\ unit_direction (next_direction V1_first_game))
  /\ (unit_direction (direction (V11.the_game V11_first_state))
      /\ unit_direction (next_direction (V11.the_game V11_first_state))).
Proof.
  exact (directions_are_unit_moves V1_first_game V11_first_state
           V1_first_game_reachable V11_first_state_reachable).
Defined.

(** X6.  In every game [main] can hold each segment of the snake is side by
    side with the next one (Manhattan distance 1): the body is one unbroken
    path from tail to head.  Both files. *)
Theorem snake_is_connected :
  forall (g : game) (s : V11.state),
    V1.reachable g -> V11.reachable s ->
    connected (snake g) /\ connected (snake (V11.the_game s)).
Proof.
  intros g s Hg Hs.
  destruct (V1_reachable_invariant g Hg) as [_ [_ [_ [_ [_ [_ [H1 _]]]]]]].
  destruct (V11_reachable_invariant s Hs) as [[_ [_ [_ [_ [_ [_ [H2 _]]]]]]] _].
  split; assumption.
Qed.

Lemma snake_is_connected_witness :
  connected (snake V1_first_game) /\ connected (snake (V11.the_game V11_first_state)).
Proof.
  exact (snake_is_connected V1_first_game V11_first_state
           V1_first_game_reachable V11_first_state_reachable).
Defined.

(** X7.  In [super_snake_V1.1.py] the pending direction of a reachable state
    is never the reverse of the committed one (the guards on the keys see to
    it), so that the reversal test of the tick never fires there: the tick
    always commits the pending direction. *)
Theorem V11_pending_is_never_a_reversal :
  forall (s : V11.state),
    V11.reachable s ->
    next_direction (V11.the_game s) <> opposite (direction (V11.the_game s))
    /\ V11.commit_direction (V11.the_game s) = next_direction (V11.the_game s).
Proof.
  intros s Hs. destruct (V11_reachable_invariant s Hs) as [_ Hrev].
  split; [exact Hrev|]. rewrite commit_direction_same.
  apply commit_direction_other. exact Hrev.
Qed.

Lemma V11_pending_is_never_a_reversal_witness :
  next_direction (V11.the_game V11_first_state)
    <> opposite (direction (V11.the_game V11_first_state))
  /\ V11.commit_direction (V11.the_game V11_first_state)
     = next_direction (V11.the_game V11_first_state).
Proof.
  exact (V11_pending_is_never_a_reversal V11_first_state V11_first_state_reachable).
Defined.

Lemma commit_direction_not_reverse (g : game) :
  unit_direction (direction g) -> V1.commit_direction g <> opposite (direction g).
Proof.
  intros Hd Heq. unfold V1.commit_direction in Heq.
  destruct (pos_eqb _ (direction g)) eqn:E; simpl in Heq.
  - apply (unit_direction_not_self_opposite _ Hd). exact Heq.
  - apply pos_eqb_neq in E. apply E. rewrite Heq.
    destruct (direction g) as [x y]. unfold opposite. simpl. f_equal; lia.
Qed.

Lemma neck_invariant n0 (g : game) :
  game_invariant n0 g -> game_over g = false ->
  exists l neck head,
    snake g = l ++ [neck; head]
    /\ last_segment (snake g) = Some head
    /\ adjacent neck head
    /\ attempted_head g head <> neck.
Proof.
  intros [_ [_ [_ [_ [Hd [_ [_ Hh]]]]]]] Hplay.
  destruct (Hh Hplay) as [l [neck [head [Hs Hhead]]]].
  exists l, neck, head. split; [exact Hs|]. split.
  { rewrite Hs. replace (l ++ [neck; head]) with ((l ++ [neck]) ++ [head])
      by (rewrite <- app_assoc; reflexivity). apply last_segment_app. }
  split.
  { rewrite Hhead. apply unit_direction_adjacent. exact Hd. }
  intros Heq. apply (commit_direction_not_reverse g Hd).
  unfold attempted_head in Heq. rewrite Hhead in Heq. simpl in Heq.
  destruct neck as [nx ny]. simpl in Heq. inversion Heq.
  destruct (V1.commit_direction g) as [cx cy], (direction g) as [dx dy].
  unfold opposite. simpl in *. f_equal; lia.
Qed.

(** X8.  In every reachable game in play the snake has a head and a segment
    right behind it, and the cell the tick tries is never that segment: the
    tick never runs the head back into its own neck, whatever key was
    pressed.  Both files. *)
Theorem tick_never_tries_the_neck :
  forall (g : game) (s : V11.state),
    V1.reachable g -> V11.reachable s ->
    (game_over g = false ->
       exists l neck head,
         snake g = l ++ [neck; head]
         /\ last_segment (snake g) = Some head
         /\ adjacent neck head
         /\ attempted_head g head <> neck)
    /\ (game_over (V11.the_game s) = false ->
       exists l neck head,
         snake (V11.the_game s) = l ++ [neck; head]
         /\ last_segment (snake (V11.the_game s)) = Some head
         /\ adjacent neck head
         /\ attempted_head (V11.the_game s) head <> neck).
Proof.
  intros g s Hg Hs. split.
  - apply (neck_invariant 3). apply V1_reachable_invariant. exact Hg.
  - apply (neck_invariant 2). apply V11_reachable_invariant. exact Hs.
Qed.

Lemma tick_never_tries_the_neck_witness :
  (exists l neck head,
     snake V1_first_game = l ++ [neck; head]
     /\ last_segment (snake V1_first_game) = Some head
     /\ adjacent neck head
     /\ attempted_head V1_first_game head <> neck)
  /\ (exists l neck head,
     snake (V11.the_game V11_first_state) = l ++ [neck; head]
     /\ last_segment (snake (V11.the_game V11_first_state)) = Some head
     /\ adjacent neck head
     /\ attempted_head (V11.the_game V11_first_state) head <> neck).
Proof.
  destruct (tick_never_tries_the_neck V1_first_game V11_first_state
              V1_first_game_reachable V11_first_state_reachable) as [H1 H2].
  split; [exact (H1 eq_refl) | exact (H2 eq_refl)].
Defined.

(** ** No exception *)

Lemma V1_restart_outcome fuel rng k :
  V1.restart fuel rng k = Timeout \/ exists g k', V1.restart fuel rng k = Done (g, k').
Proof.
  unfold V1.restart.
  destruct (random_food_position_outcome fuel rng
              (rev (map (fun i => (GRID_WIDTH / 2 + i, GRID_HEIGHT / 2)) [0; 1; 2])) k)
    as [H | [p [k' H]]]; rewrite H; simpl; eauto.
Qed.

Lemma V11_restart_outcome fuel rng k :
  V11.restart fuel rng k = Timeout \/ exists g k', V11.restart fuel rng k = Done (g, k').
Proof.
  unfold V11.restart. rewrite random_food_same.
  destruct (random_food_position_outcome fuel rng
              [(GRID_WIDTH / 2 - 1, GRID_HEIGHT / 2); (GRID_WIDTH / 2, GRID_HEIGHT / 2)] k)
    as [H | [p [k' H]]]; rewrite H; simpl; eauto.
Qed.

Lemma V1_on_event_outcome fuel rng ev k g :
  V1.on_event fuel rng ev k g = Timeout
  \/ exists running g' k', V1.on_event fuel rng ev k g = Done (running, g', k').
Proof.
  destruct ev as [|key|]; simpl; eauto 6.
  destruct key; simpl; eauto 6.
  - destruct (game_over g); simpl; eauto 6.
  - destruct (game_over g); simpl; eauto 6.
    destruct (V1_restart_outcome fuel rng k) as [H | [g' [k' H]]]; rewrite H; simpl; eauto 6.
Qed.

Lemma V1_poll_outcome fuel rng evs : forall k g,
  V1.reachable g ->
  V1.poll fuel rng evs k g = Timeout
  \/ exists running g' k', V1.poll fuel rng evs k g = Done (running, g', k')
                           /\ V1.reachable g'.
Proof.
  induction evs as [|ev evs IH]; intros k g Hg; simpl.
  - right. exists true, g, k. split; [reflexivity | assumption].
  - destruct (V1_on_event_outcome fuel rng ev k g) as [H | [running [g1 [k1 H]]]];
      rewrite H; simpl; [left; reflexivity|].
    assert (Hg1 : V1.reachable g1) by (eapply V1.reach_event; eassumption).
    destruct running; [apply IH; exact Hg1|].
    right. exists false, g1, k1. split; [reflexivity | assumption].
Qed.

Lemma update_outcome n0 fuel rng k g :
  2 <= n0 -> game_invariant n0 g ->
  V1.update fuel rng k g = Timeout \/ exists g' k', V1.update fuel rng k g = Done (g', k').
Proof.
  intros Hn0 Hinv. destruct (game_over g) eqn:Hplay.
  { rewrite update_game_over by assumption. eauto. }
  destruct (neck_invariant n0 g Hinv Hplay) as [l [neck [head [_ [Hhead _]]]]].
  rewrite (update_playing _ _ _ _ head Hplay Hhead). cbv zeta.
  destruct (V1.collides _ _); [eauto|].
  destruct (pos_eqb _ _); [|eauto].
  destruct (random_food_position_outcome fuel rng (snake g ++ [attempted_head g head]) k)
    as [H | [p [k' H]]]; rewrite H; simpl; eauto.
Qed.

Lemma V11_on_event_outcome fuel rng ev k g :
  V11.on_event fuel rng ev k g = Timeout \/ V11.on_event fuel rng ev k g = Exit
  \/ exists g' k', V11.on_event fuel rng ev k g = Done (g', k').
Proof.
  destruct ev as [|key|]; simpl; eauto 6.
  destruct key; simpl; eauto 6.
  destruct (game_over g); simpl; eauto 6.
  destruct (V11_restart_outcome fuel rng k) as [H | [g' [k' H]]]; rewrite H; eauto 6.
Qed.

Lemma V11_poll_outcome fuel rng evs : forall k g,
  V11.poll fuel rng evs k g = Timeout \/ V11.poll fuel rng evs k g = Exit
  \/ exists g' k', V11.poll fuel rng evs k g = Done (g', k').
Proof.
  induction evs as [|ev evs IH]; intros k g; simpl; [eauto 6|].
  destruct (V11_on_event_outcome fuel rng ev k g) as [H | [H | [g1 [k1 H]]]];
    rewrite H; simpl; auto.
Qed.

(** X3.  From a reachable state no iteration of the game loop raises: the
    snake is never empty when its head is read and [int] never meets an
    infinity or a NaN.  An iteration either returns, or leaves the loop, or
    is still drawing food cells when the fuel is spent.  Both files. *)
Theorem frames_never_raise :
  forall (g : game) (s : V11.state) fuel rng (dt : float) (evs : list event) k (e : exn),
    V1.reachable g -> V11.reachable s ->
    V1.update fuel rng k g <> Raise e
    /\ V1.frame fuel rng evs k g <> Raise e
    /\ V11.frame fuel rng dt evs k s <> Raise e.
Proof.
  intros g s fuel rng dt evs k e Hg Hs. split; [|split].
  - destruct (update_outcome 3 fuel rng k g ltac:(lia) (V1_reachable_invariant g Hg))
      as [H | [g' [k' H]]]; rewrite H; discriminate.
  - unfold V1.frame.
    destruct (V1_poll_outcome fuel rng evs k g Hg) as [H | [running [g1 [k1 [H Hg1]]]]];
      rewrite H; simpl; [discriminate|].
    destruct running; simpl; [|discriminate].
    destruct (update_outcome 3 fuel rng k1 g1 ltac:(lia) (V1_reachable_invariant g1 Hg1))
      as [Hu | [g' [k' Hu]]]; rewrite Hu; discriminate.
  - unfold V11.frame.
    destruct (V11_poll_outcome fuel rng evs k (V11.the_game s)) as [H | [H | [g1 [k1 H]]]];
      rewrite H; simpl; try discriminate.
    assert (Hinv : game_invariant 2 g1).
    { eapply V11_poll_invariant; [exact H|]. apply V11_reachable_invariant. exact Hs. }
    rewrite V11_update_as_V1. cbn [V11.the_game V11.shake_time].
    destruct (update_outcome 2 fuel rng k1 g1 ltac:(lia) Hinv) as [Hu | [g' [k' Hu]]];
      rewrite Hu; simpl; [discriminate|].
    match goal with
    | |- context [V11.shake_offset rng k' ?st] =>
        destruct (shake_offset_returns rng k' st) as [ox [oy [k3 [Ho _]]]]; rewrite Ho
    end.
    simpl. discriminate.
Qed.

Lemma frames_never_raise_witness :
  V1.update 1 (fun _ => 0) 0 V1_first_game <> Raise IndexError
  /\ V1.frame 1 (fun _ => 0) [KEYDOWN K_UP] 0 V1_first_game <> Raise IndexError
  /\ V11.frame 1 (fun _ => 0) 0.066%float [KEYDOWN K_UP] 0 V11_first_state
     <> Raise IndexError.
Proof.
  exact (frames_never_raise V1_first_game V11_first_state 1 (fun _ => 0) 0.066%float
           [KEYDOWN K_UP] 0%nat IndexError V1_first_game_reachable
           V11_first_state_reachable).
Defined.

(** ** The start screen and the end of the loop *)

(** X9.  One batch of events on the start screen (either file): the process
    ends exactly when the batch holds a QUIT or an ESC key, wherever it is in
    the batch; otherwise the loop is still on the start screen afterwards
    exactly when it was before and the batch holds no SPACE key.  All other
    events, the R key and the direction keys among them, change nothing. *)
Theorem start_screen_batch :
  forall (evs : list event) (in_start : bool),
    (start_screen_events evs in_start = Exit <->
       In QUIT evs \/ In (KEYDOWN K_ESCAPE) evs)
    /\ (forall b, start_screen_events evs in_start = Done b ->
          b = in_start && negb (existsb (fun ev => match ev with
                                                   | KEYDOWN K_SPACE => true
                                                   | _ => false
                                                   end) evs))
    /\ (forall e, start_screen_events evs in_start <> Raise e)
    /\ start_screen_events evs in_start <> Timeout.
Proof.
  induction evs as [|ev evs IH]; intros in_start.
  - simpl. repeat split; try discriminate; try tauto.
    intros b H. inversion H. destruct b; reflexivity.
  - assert (Hcases :
      (ev = QUIT \/ ev = KEYDOWN K_ESCAPE)
      \/ (ev = KEYDOWN K_SPACE)
      \/ (ev <> QUIT /\ ev <> KEYDOWN K_ESCAPE /\ ev <> KEYDOWN K_SPACE
          /\ start_screen_event ev = StayOnStart
          /\ match ev with KEYDOWN K_SPACE => true | _ => false end = false)).
    { destruct ev as [|key|]; [left; left; reflexivity | | right; right; repeat split; discriminate].
      destruct key; try (right; right; repeat split; discriminate);
        first [left; right; reflexivity | right; left; reflexivity]. }
    destruct Hcases as [[-> | ->] | [-> | [H1 [H2 [H3 [H4 H5]]]]]].
    + simpl. repeat split; try discriminate; tauto.
    + simpl. repeat split; try discriminate; tauto.
    + cbn [start_screen_events start_screen_event key_eqb existsb].
      destruct (IH false) as [He [Hd [Hr Ht]]]. split; [|split; [|split]].
      * rewrite He. cbn [In]. split; [tauto|].
        intros [[H | H] | [H | H]]; try discriminate; tauto.
      * intros b H. rewrite (Hd b H). simpl. rewrite andb_false_r. reflexivity.
      * exact Hr.
      * exact Ht.
    + cbn [start_screen_events existsb]. rewrite H4, H5.
      destruct (IH in_start) as [He [Hd [Hr Ht]]]. split; [|split; [|split]].
      * rewrite He. cbn [In]. split; [tauto|].
        intros [[H | H] | [H | H]]; try congruence; tauto.
      * intros b H. rewrite (Hd b H). reflexivity.
      * exact Hr.
      * exact Ht.
Qed.

Lemma V1_poll_stopped fuel rng evs : forall k g g' k' more,
  V1.poll fuel rng evs k g = Done (false, g', k') ->
  V1.poll fuel rng (evs ++ more) k g = Done (false, g', k').
Proof.
  induction evs as [|ev evs IH]; intros k g g' k' more H; simpl in *.
  - discriminate.
  - destruct (V1.on_event fuel rng ev k g) as [[[running g1] k1]| | |]; simpl in *;
      try discriminate.
    destruct running; [apply IH; exact H | exact H].
Qed.

Lemma V11_poll_stopped fuel rng evs : forall k g more,
  V11.poll fuel rng evs k g = Exit ->
  V11.poll fuel rng (evs ++ more) k g = Exit.
Proof.
  induction evs as [|ev evs IH]; intros k g more H; simpl in *.
  - discriminate.
  - destruct (V11.on_event fuel rng ev k g) as [[g1 k1]| | |]; simpl in *;
      try discriminate; [apply IH; exact H | reflexivity].
Qed.

(** X10.  Once a batch has made the loop stop (a QUIT or an ESC key), the
    events that follow in the same batch are not read: appending any events,
    an R key on a finished game among them, leaves the outcome as it is.  In
    [super_snake.py] the loop is left with the game as it was at the stop;
    in V1.1 the process ends. *)
Theorem events_after_quit_are_discarded :
  forall fuel rng (evs more : list event) k (g g' : game) k',
    (V1.poll fuel rng evs k g = Done (false, g', k') ->
       V1.poll fuel rng (evs ++ more) k g = Done (false, g', k')
       /\ V1.frame fuel rng (evs ++ more) k g = Exit)
    /\ (V11.poll fuel rng evs k g = Exit ->
       V11.poll fuel rng (evs ++ more) k g = Exit)
    /\ V1.poll fuel rng (QUIT :: more) k g = Done (false, g, k)
    /\ V1.poll fuel rng (KEYDOWN K_ESCAPE :: more) k g = Done (false, g, k)
    /\ V11.poll fuel rng (QUIT :: more) k g = Exit
    /\ V11.poll fuel rng (KEYDOWN K_ESCAPE :: more) k g = Exit.
Proof.
  intros fuel rng evs more k g g' k'. split; [|split].
  - intros H. pose proof (V1_poll_stopped fuel rng evs k g g' k' more H) as H'.
    split; [exact H'|]. unfold V1.frame. rewrite H'. reflexivity.
  - apply V11_poll_stopped.
  - repeat split.
Qed.

Lemma events_after_quit_are_discarded_witness :
  V1.poll 1 (fun _ => 0) ([KEYDOWN K_UP; QUIT] ++ [KEYDOWN K_r]) 0
      (mkGame [(5, 5); (6, 5)] (1, 0) (1, 0) (0, 0) 0 true)
    = Done (false, mkGame [(5, 5); (6, 5)] (1, 0) (0, -1) (0, 0) 0 true, 0%nat)
  /\ V11.poll 1 (fun _ => 0) ([KEYDOWN K_ESCAPE] ++ [KEYDOWN K_r]) 0
      (mkGame [(5, 5); (6, 5)] (1, 0) (1, 0) (0, 0) 0 true) = Exit.
Proof.
  split.
  - exact (proj1 (proj1 (events_after_quit_are_discarded 1 (fun _ => 0)
             [KEYDOWN K_UP; QUIT] [KEYDOWN K_r] 0%nat
             (mkGame [(5, 5); (6, 5)] (1, 0) (1, 0) (0, 0) 0 true)
             (mkGame [(5, 5); (6, 5)] (1, 0) (0, -1) (0, 0) 0 true) 0%nat) eq_refl)).
  - exact (proj1 (proj2 (events_after_quit_are_discarded 1 (fun _ => 0)
             [KEYDOWN K_ESCAPE] [KEYDOWN K_r] 0%nat
             (mkGame [(5, 5); (6, 5)] (1, 0) (1, 0) (0, 0) 0 true)
             (mkGame [(5, 5); (6, 5)] (1, 0) (1, 0) (0, 0) 0 true) 0%nat)) eq_refl).
Defined.

(** ** How long the snake can get *)

Lemma V1_reachable_simple g : V1.reachable g -> on_grid_and_simple g.
Proof.
  induction 1 as [fuel rng k g k' Hinit | fuel rng ev k g running g' k' Hg IH Hev
                 | fuel rng k g g' k' Hg IH Hupd].
  - destruct (V1_init_shape _ _ _ _ _ Hinit) as [Hsn _].
    unfold on_grid_and_simple. rewrite Hsn. apply V1_initial_snake_ok.
  - eapply V1_on_event_simple; eassumption.
  - eapply V1_update_simple; eassumption.
Qed.

Lemma V11_reachable_simple s : V11.reachable s -> on_grid_and_simple (V11.the_game s).
Proof.
  induction 1 as [fuel rng k s k' Hinit | fuel rng ev k s g' k' Hs IH Hev
                 | fuel rng k s s' k' Hs IH Hupd
                 | fuel rng dt evs k s s' off k' Hs IH Hfr].
  - rewrite V11_init_as_restart in Hinit.
    destruct (V11.restart fuel rng k) as [[g0 k0]| | |] eqn:E; simpl in Hinit;
      try discriminate.
    inversion Hinit; subst. cbn [V11.the_game].
    destruct (V11_restart_shape _ _ _ _ _ E) as [Hsn _].
    unfold on_grid_and_simple. rewrite Hsn. apply V11_initial_snake_ok.
  - cbn [V11.the_game]. eapply V11_on_event_simple; eassumption.
  - eapply V11_update_simple; eassumption.
  - destruct (V11_frame_game _ _ _ _ _ _ _ _ _ Hfr) as [g1 [k1 [s2 [k2 [Hp [Hu Heq]]]]]].
    rewrite Heq. eapply V11_update_simple; [exact Hu|]. cbn [V11.the_game].
    eapply V11_poll_simple; eassumption.
Qed.

Lemma full_snake_length : length full_snake = 900%nat.
Proof. reflexivity. Qed.

Lemma simple_snake_length (l : list pos) :
  Forall (fun p => in_grid p = true) l -> NoDup l -> (length l <= 900)%nat.
Proof.
  intros Hall Hnd. rewrite <- full_snake_length. apply NoDup_incl_length; [exact Hnd|].
  intros p Hp. apply full_snake_covers_grid. rewrite Forall_forall in Hall. auto.
Qed.

(** X11.  The snake never has more segments than the grid has cells: at most
    900.  The score therefore never exceeds 897 in [super_snake.py] and 898
    in V1.1. *)
Theorem score_is_bounded :
  forall (g : game) (s : V11.state),
    V1.reachable g -> V11.reachable s ->
    ((length (snake g) <= 900)%nat /\ score g <= 897)
    /\ ((length (snake (V11.the_game s)) <= 900)%nat /\ score (V11.the_game s) <= 898).
Proof.
  intros g s Hg Hs.
  destruct (V1_reachable_simple g Hg) as [Ha Hb].
  destruct (V11_reachable_simple s Hs) as [Hc Hd].
  pose proof (simple_snake_length _ Ha Hb) as H1.
  pose proof (simple_snake_length _ Hc Hd) as H2.
  destruct (V1_reachable_invariant g Hg) as [H3 _].
  destruct (V11_reachable_invariant s Hs) as [[H4 _] _].
  repeat split; try assumption; lia.
Qed.

Lemma score_is_bounded_witness :
  ((length (snake V1_first_game) <= 900)%nat /\ score V1_first_game <= 897)
  /\ ((length (snake (V11.the_game V11_first_state)) <= 900)%nat
      /\ score (V11.the_game V11_first_state) <= 898).
Proof.
  exact (score_is_bounded V1_first_game V11_first_state
           V1_first_game_reachable V11_first_state_reachable).
Defined.

Lemma distinct_NoDup (l : list pos) : distinct l = true -> NoDup l.
Proof.
  induction l as [|p l IH]; simpl; intros H; [constructor|].
  apply andb_true_iff in H. destruct H as [Hp Hl].
  constructor; [|apply IH; exact Hl].
  apply contains_not_In. apply negb_true_iff. exact Hp.
Qed.

Lemma all_in_grid (l : list pos) :
  forallb in_grid l = true -> Forall (fun p => in_grid p = true) l.
Proof. intros H. apply Forall_forall. apply forallb_forall. exact H. Qed.

(** X12.  The bite that would fill the grid never completes: when a snake of
    899 distinct cells of the grid eats, the grown snake covers all 900
    cells, so the food sampler finds no free cell and the tick does not
    return, whatever the fuel and the random source.  Both files. *)
Theorem the_last_bite_never_returns :
  forall fuel rng k (g : game) (st : float) (head : pos),
    Forall (fun p => in_grid p = true) (snake g) ->
    NoDup (snake g) ->
    length (snake g) = 899%nat ->
    game_over g = false ->
    last_segment (snake g) = Some head ->
    V1.collides (attempted_head g head) (snake g) = false ->
    attempted_head g head = food g ->
    V1.update fuel rng k g = Timeout
    /\ V11.update fuel rng k (V11.mkState g st) = Timeout.
Proof.
  intros fuel rng k g st head Hall Hnd Hlen Hplay Hhead Hcol Hfood.
  pose proof (update_eat fuel rng k g head Hplay Hhead Hcol Hfood) as H1.
  apply collides_false_iff in Hcol. destruct Hcol as [Hgrid Hfree].
  destruct (on_grid_and_simple_grow _ _ Hall Hnd Hgrid Hfree) as [Hall' Hnd'].
  assert (Hfull : forall p, in_grid p = true -> In p (snake g ++ [attempted_head g head])).
  { intros p Hp.
    assert (Hincl : incl full_snake (snake g ++ [attempted_head g head])).
    { apply NoDup_length_incl; [exact Hnd' | |].
      - rewrite length_app, Hlen, full_snake_length. simpl. lia.
      - intros q Hq. apply full_snake_covers_grid. rewrite Forall_forall in Hall'. auto. }
    apply Hincl. apply full_snake_covers_grid. exact Hp. }
  rewrite (random_food_position_full rng _ Hfull) in H1. simpl in H1.
  split; [exact H1|].
  rewrite V11_update_as_V1. cbn [V11.the_game]. rewrite H1. reflexivity.
Qed.

Lemma the_last_bite_never_returns_witness :
  V1.update 7 (fun n => Z.of_nat n) 0 last_bite_game = Timeout
  /\ V11.update 7 (fun n => Z.of_nat n) 0 (V11.mkState last_bite_game 0%float) = Timeout.
Proof.
  apply (the_last_bite_never_returns 7 (fun n => Z.of_nat n) 0%nat last_bite_game 0%float
           (1, 29)).
  - apply all_in_grid. vm_compute. reflexivity.
  - apply distinct_NoDup. vm_compute. reflexivity.
  - vm_compute. reflexivity.
  - reflexivity.
  - vm_compute. reflexivity.
  - vm_compute. reflexivity.
  - vm_compute. reflexivity.
Defined.

(** ** Drawing *)

Lemma c_int_small (z : Z) : - 2 ^ 31 <= z < 2 ^ 31 -> c_int z = Some z.
Proof.
  intros H. unfold c_int.
  replace ((- 2 ^ 63 <=? z) && (z <? 2 ^ 63)) with true
    by (symmetry; apply andb_true_iff; split; [apply Z.leb_le | apply Z.ltb_lt];
        change (2 ^ 63) with 9223372036854775808;
        change (2 ^ 31) with 2147483648 in H; lia).
  f_equal. rewrite Z.mod_small; lia.
Qed.

(** Far from the grid they do: a coordinate past 2^31 comes back negative,
    and one past the C long is refused. *)
Lemma cell_rect_far_away :
  cell_rect (107374183, 0) = Some (-2147483636, 0, 20, 20)
  /\ cell_rect (2 ^ 62, 0) = None.
Proof. split; vm_compute; reflexivity. Qed.

(** For a cell of the grid the conversions change nothing. *)
Lemma cell_rect_in_grid (p : pos) : in_grid p = true -> cell_rect p = Some (cell_square p).
Proof.
  intros H. apply in_grid_spec in H. destruct p as [x y]. cbn [fst snd] in H.
  unfold cell_rect, Rect, cell_square, CELL_SIZE, GRID_WIDTH, GRID_HEIGHT in *.
  cbn [fst snd].
  rewrite !c_int_small by (change (2 ^ 31) with 2147483648; lia).
  reflexivity.
Qed.

Lemma cell_square_covers (p : pos) (px py : Z) :
  rect_covers (cell_square p) px py <-> p = (px / CELL_SIZE, py / CELL_SIZE).
Proof.
  destruct p as [x y]. unfold rect_covers, cell_square, CELL_SIZE. cbn [fst snd].
  split.
  - intros [Hx Hy]. f_equal.
    + apply (Z.div_unique px 20 x (px - x * 20)); lia.
    + apply (Z.div_unique py 20 y (py - y * 20)); lia.
  - intros H. inversion H; subst.
    pose proof (Z.div_mod px 20 ltac:(lia)). pose proof (Z.mod_pos_bound px 20 ltac:(lia)).
    pose proof (Z.div_mod py 20 ltac:(lia)). pose proof (Z.mod_pos_bound py 20 ltac:(lia)).
    lia.
Qed.

Lemma cell_square_inside (p : pos) (px py : Z) :
  in_grid p = true -> rect_covers (cell_square p) px py ->
  0 <= px < WIDTH /\ 0 <= py < HEIGHT.
Proof.
  intros Hp H. apply in_grid_spec in Hp. destruct p as [x y].
  unfold rect_covers, cell_square, CELL_SIZE, WIDTH, HEIGHT, GRID_WIDTH, GRID_HEIGHT,
    CELL_SIZE in *. cbn [fst snd] in *. lia.
Qed.

(** X13.  For a cell of the grid, [draw_cell] paints the square whose corner
    is 20 times the cell and whose side is 20 (the conversion of the
    coordinates to C ints changes nothing there).  That square covers exactly
    the pixels whose coordinates, divided by the cell size, give the cell.
    Hence the squares of two different cells of the grid share no pixel, and
    each lies inside the 600 x 600 surface. *)
Theorem cell_squares_tile_the_window :
  forall (p q : pos) (px py : Z),
    in_grid p = true -> in_grid q = true ->
    exists rp rq,
      cell_rect p = Some rp /\ cell_rect q = Some rq
      /\ rp = (fst p * 20, snd p * 20, 20, 20)
      /\ draw_cell [] p RED = Some [(rp, RED)]
      /\ (rect_covers rp px py <-> p = (px / CELL_SIZE, py / CELL_SIZE))
      /\ (rect_covers rp px py -> rect_covers rq px py -> p = q)
      /\ (rect_covers rp px py -> 0 <= px < WIDTH /\ 0 <= py < HEIGHT).
Proof.
  intros p q px py Hp Hq. exists (cell_square p), (cell_square q).
  split; [apply cell_rect_in_grid; exact Hp|].
  split; [apply cell_rect_in_grid; exact Hq|].
  split; [reflexivity|].
  split; [unfold draw_cell; rewrite (cell_rect_in_grid p Hp); reflexivity|].
  split; [apply cell_square_covers|]. split.
  - intros H1 H2. apply cell_square_covers in H1, H2. congruence.
  - apply cell_square_inside. exact Hp.
Qed.

Lemma cell_squares_tile_the_window_witness :
  exists rp rq,
    cell_rect (29, 0) = Some rp /\ cell_rect (0, 29) = Some rq
    /\ rp = (580, 0, 20, 20)
    /\ draw_cell [] (29, 0) RED = Some [(rp, RED)]
    /\ (rect_covers rp 599 0 <-> (29, 0) = (599 / CELL_SIZE, 0 / CELL_SIZE))
    /\ (rect_covers rp 599 0 -> rect_covers rq 599 0 -> (29, 0) = (0, 29))
    /\ (rect_covers rp 599 0 -> 0 <= 599 < WIDTH /\ 0 <= 0 < HEIGHT).
Proof.
  exact (cell_squares_tile_the_window (29, 0) (0, 29) 599 0 eq_refl eq_refl).
Defined.

Lemma draw_parts_head body : forall (l : list pos) (head : pos) surface i n,
  Forall (fun p => in_grid p = true) (l ++ [head]) ->
  n = (i + length l + 1)%nat ->
  draw_parts body n surface i (l ++ [head]) =
  Some (surface ++ map (fun p => (cell_square p, body)) l ++ [(cell_square head, GREEN)]).
Proof.
  induction l as [|p l IH]; intros head surface i n Hall Hn; simpl.
  - unfold draw_cell. rewrite (cell_rect_in_grid head (Forall_inv Hall)).
    replace (Z.of_nat i =? Z.of_nat n - 1) with true
      by (symmetry; apply Z.eqb_eq; simpl in Hn; lia).
    reflexivity.
  - simpl in Hall.
    unfold draw_cell. rewrite (cell_rect_in_grid p (Forall_inv Hall)).
    replace (Z.of_nat i =? Z.of_nat n - 1) with false
      by (symmetry; apply Z.eqb_neq; simpl in Hn; lia).
    rewrite (IH head _ (S i) n (Forall_inv_tail Hall)) by (simpl in Hn; lia).
    rewrite <- app_assoc. reflexivity.
Qed.

Lemma scene_squares body (g : game) (l : list pos) (head : pos) :
  snake g = l ++ [head] ->
  Forall (fun p => in_grid p = true) (food g :: snake g) ->
  match draw_cell [] (food g) RED with
  | Some surface => draw_parts body (length (snake g)) surface 0 (snake g)
  | None => None
  end
  = Some ((cell_square (food g), RED)
          :: map (fun p => (cell_square p, body)) l ++ [(cell_square head, GREEN)]).
Proof.
  intros Hs Hall. inversion Hall as [|? ? Hf Hsn]; subst.
  unfold draw_cell. rewrite (cell_rect_in_grid _ Hf).
  rewrite Hs in Hsn. rewrite Hs.
  rewrite (draw_parts_head body l head _ 0 (length (l ++ [head])) Hsn).
  - reflexivity.
  - rewrite length_app. simpl. lia.
Qed.

Lemma scene_rects body (c : pos) (l : list pos) (head : pos) :
  map fst ((cell_square c, RED)
           :: map (fun p => (cell_square p, body)) l ++ [(cell_square head, GREEN)])
  = map cell_square (c :: l ++ [head]).
Proof.
  cbn [map fst]. f_equal. rewrite !map_app, map_map. reflexivity.
Qed.

Lemma scene_disjoint (scene : list (rect * color)) (cells : list pos) :
  map fst scene = map cell_square cells ->
  NoDup cells ->
  Forall (fun p => in_grid p = true) cells ->
  forall i j r1 c1 r2 c2 px py,
    nth_error scene i = Some (r1, c1) ->
    nth_error scene j = Some (r2, c2) ->
    rect_covers r1 px py -> rect_covers r2 px py ->
    i = j /\ 0 <= px < WIDTH /\ 0 <= py < HEIGHT.
Proof.
  intros Hmap Hnd Hall i j r1 c1 r2 c2 px py Hi Hj H1 H2.
  assert (Hcell : forall n r c, nth_error scene n = Some (r, c) ->
            exists p, nth_error cells n = Some p /\ r = cell_square p).
  { intros n r c Hn. apply (map_nth_error fst) in Hn. rewrite Hmap in Hn. simpl in Hn.
    rewrite nth_error_map in Hn.
    destruct (nth_error cells n) as [p|]; simpl in Hn; [|discriminate].
    exists p. split; congruence. }
  destruct (Hcell i r1 c1 Hi) as [p1 [Hp1 ->]].
  destruct (Hcell j r2 c2 Hj) as [p2 [Hp2 ->]].
  split.
  - apply cell_square_covers in H1. apply cell_square_covers in H2.
    rewrite NoDup_nth_error in Hnd. apply Hnd.
    + apply nth_error_Some. congruence.
    + congruence.
  - assert (Hin : In p1 cells) by (eapply nth_error_In; eassumption).
    rewrite Forall_forall in Hall. apply (cell_square_inside p1); [auto | exact H1].
Qed.

Lemma food_and_snake_cells n0 (g : game) :
  on_grid_and_simple g -> game_invariant n0 g ->
  NoDup (food g :: snake g) /\ Forall (fun p => in_grid p = true) (food g :: snake g).
Proof.
  intros [Hall Hnd] [_ [_ [Hfg [Hff _]]]].
  split; constructor; assumption.
Qed.

(** X14.  What each file draws for a reachable game, on an empty surface:
    no call raises; first comes the food in red, then the segments from the
    tail on in the body colour, and last the head, the only square in the
    head colour.  No two of these squares share a pixel, and every pixel they
    cover is inside the 600 x 600 surface they are drawn on: the window in
    [super_snake.py], [game_surf] in V1.1.  (V1.1 then copies [game_surf] to
    the window at the shake offset; where the squares land in the window
    during a shake is not part of this statement.) *)
Theorem scene_of_a_reachable_game :
  forall (g : game) (s : V11.state),
    V1.reachable g -> V11.reachable s ->
    (exists l head screen,
       snake g = l ++ [head]
       /\ draw_scene_V1 [] g = Some screen
       /\ screen
          = (cell_square (food g), RED)
            :: map (fun p => (cell_square p, (0, 160, 0))) l ++ [(cell_square head, GREEN)]
       /\ forall i j r1 c1 r2 c2 px py,
            nth_error screen i = Some (r1, c1) ->
            nth_error screen j = Some (r2, c2) ->
            rect_covers r1 px py -> rect_covers r2 px py ->
            i = j /\ 0 <= px < WIDTH /\ 0 <= py < HEIGHT)
    /\ (exists l head game_surf,
       snake (V11.the_game s) = l ++ [head]
       /\ draw_scene_V11 [] (V11.the_game s) = Some game_surf
       /\ game_surf
          = (cell_square (food (V11.the_game s)), RED)
            :: map (fun p => (cell_square p, DARK_GREEN)) l ++ [(cell_square head, GREEN)]
       /\ forall i j r1 c1 r2 c2 px py,
            nth_error game_surf i = Some (r1, c1) ->
            nth_error game_surf j = Some (r2, c2) ->
            rect_covers r1 px py -> rect_covers r2 px py ->
            i = j /\ 0 <= px < WIDTH /\ 0 <= py < HEIGHT).
Proof.
  intros g s Hg Hs.
  assert (Hgen : forall body n0 (g0 : game),
            2 <= n0 -> on_grid_and_simple g0 -> game_invariant n0 g0 ->
            exists l head surface,
              snake g0 = l ++ [head]
              /\ match draw_cell [] (food g0) RED with
                 | Some surface => draw_parts body (length (snake g0)) surface 0 (snake g0)
                 | None => None
                 end = Some surface
              /\ surface
                 = (cell_square (food g0), RED)
                   :: map (fun p => (cell_square p, body)) l ++ [(cell_square head, GREEN)]
              /\ forall i j r1 c1 r2 c2 px py,
                   nth_error surface i = Some (r1, c1) ->
                   nth_error surface j = Some (r2, c2) ->
                   rect_covers r1 px py -> rect_covers r2 px py ->
                   i = j /\ 0 <= px < WIDTH /\ 0 <= py < HEIGHT).
  { intros body n0 g0 Hn0 Hsimple Hinv.
    assert (Hne : exists l head, snake g0 = l ++ [head]).
    { destruct (snake g0) as [|a sn] eqn:Es.
      - destruct Hinv as [Hlen [Hsc _]]. rewrite Es in Hlen. simpl in Hlen. lia.
      - destruct (@exists_last _ (a :: sn) ltac:(discriminate)) as [l [head Hl]].
        exists l, head. exact Hl. }
    destruct Hne as [l [head Hl]].
    destruct (food_and_snake_cells n0 g0 Hsimple Hinv) as [Hnd Hall].
    exists l, head. eexists. split; [exact Hl|].
    split; [apply scene_squares; [exact Hl | exact Hall]|].
    split; [reflexivity|].
    apply (scene_disjoint _ (food g0 :: snake g0)); try assumption.
    rewrite Hl. apply scene_rects. }
  split.
  - apply (Hgen (0, 160, 0) 3 g); [lia | apply V1_reachable_simple; exact Hg
                                  | apply V1_reachable_invariant; exact Hg].
  - apply (Hgen DARK_GREEN 2 (V11.the_game s));
      [lia | apply V11_reachable_simple; exact Hs | apply V11_reachable_invariant; exact Hs].
Qed.

Lemma scene_of_a_reachable_game_witness :
  (exists l head screen,
     snake V1_first_game = l ++ [head]
     /\ draw_scene_V1 [] V1_first_game = Some screen
     /\ screen
        = (cell_square (food V1_first_game), RED)
          :: map (fun p => (cell_square p, (0, 160, 0))) l ++ [(cell_square head, GREEN)])
  /\ (exists l head game_surf,
     snake (V11.the_game V11_first_state) = l ++ [head]
     /\ draw_scene_V11 [] (V11.the_game V11_first_state) = Some game_surf
     /\ game_surf
        = (cell_square (food (V11.the_game V11_first_state)), RED)
          :: map (fun p => (cell_square p, DARK_GREEN)) l ++ [(cell_square head, GREEN)]).
Proof.
  destruct (scene_of_a_reachable_game V1_first_game V11_first_state
              V1_first_game_reachable V11_first_state_reachable)
    as [[l [head [sc [H1 [H2 [H3 _]]]]]] [l' [head' [sc' [H1' [H2' [H3' _]]]]]]].
  split.
  - exists l, head, sc. repeat split; assumption.
  - exists l', head', sc'. repeat split; assumption.
Defined.

(** ** The shake time *)

Lemma float_ltb_leb (x y : float) : (x <? y)%float = true -> (x <=? y)%float = true.
Proof.
  rewrite FloatAxioms.ltb_spec, FloatAxioms.leb_spec. unfold SFltb, SFleb.
  destruct (SFcompare (Prim2SF x) (Prim2SF y)) as [[| |]|]; congruence.
Qed.

Lemma max_zero_nonneg (x : float) : (0 <=? max_zero x)%float = true.
Proof.
  unfold max_zero. destruct (0 <? x)%float eqn:E; [apply float_ltb_leb; exact E | reflexivity].
Qed.

Lemma decay_shake_nonneg (st dt : float) :
  (0 <=? st)%float = true -> (0 <=? V11.decay_shake st dt)%float = true.
Proof.
  intros H. unfold V11.decay_shake.
  destruct (0 <? st)%float; [apply max_zero_nonneg | exact H].
Qed.

Lemma V11_update_shake fuel rng k s s' k' :
  V11.update fuel rng k s = Done (s', k') ->
  V11.shake_time s' = V11.shake_time s \/ V11.shake_time s' = V11.SHAKE_DURATION.
Proof.
  rewrite V11_update_as_V1. intros H.
  destruct (V1.update fuel rng k (V11.the_game s)) as [[g1 k1]| | |]; simpl in H;
    try discriminate.
  inversion H; subst. cbn [V11.shake_time]. destruct (_ =? _); auto.
Qed.

Lemma V11_frame_shake fuel rng dt evs k s s' off k' :
  V11.frame fuel rng dt evs k s = Done (s', off, k') ->
  exists st, (st = V11.shake_time s \/ st = V11.SHAKE_DURATION)
             /\ V11.shake_time s' = V11.decay_shake st dt.
Proof.
  unfold V11.frame. intros H.
  destruct (V11.poll fuel rng evs k (V11.the_game s)) as [[g1 k1]| | |]; simpl in H;
    try discriminate.
  destruct (V11.update fuel rng k1 _) as [[s2 k2]| | |] eqn:E; simpl in H;
    try discriminate.
  destruct (V11.shake_offset rng k2 _) as [[[ox oy] k3]| | |]; simpl in H;
    try discriminate.
  inversion H; subst. exists (V11.shake_time s2). split; [|reflexivity].
  apply V11_update_shake in E. exact E.
Qed.

(** X15.  In every state [main] of V1.1 can hold, [shake_time] is a number
    that is not negative: it is neither below zero nor a NaN, whatever the
    elapsed times the clock reports (negative, infinite or NaN included). *)
Theorem shake_time_is_never_negative :
  forall (s : V11.state),
    V11.reachable s ->
    (0 <=? V11.shake_time s)%float = true
    /\ (V11.shake_time s <? 0)%float = false.
Proof.
  intros s Hs.
  assert (H : (0 <=? V11.shake_time s)%float = true).
  { induction Hs as [fuel rng k s k' Hinit | fuel rng ev k s g' k' Hs IH Hev
                    | fuel rng k s s' k' Hs IH Hupd
                    | fuel rng dt evs k s s' off k' Hs IH Hfr].
    - unfold V11.init in Hinit.
      destruct (V11.random_food fuel rng k _) as [[p k1]| | |]; simpl in Hinit;
        try discriminate.
      inversion Hinit; subst. reflexivity.
    - exact IH.
    - destruct (V11_update_shake _ _ _ _ _ _ Hupd) as [-> | ->]; [exact IH | reflexivity].
    - destruct (V11_frame_shake _ _ _ _ _ _ _ _ _ Hfr) as [st [[-> | ->] ->]];
        apply decay_shake_nonneg; [exact IH | reflexivity]. }
  split; [exact H|].
  rewrite FloatAxioms.leb_spec in H. rewrite FloatAxioms.ltb_spec. unfold SFleb in H. unfold SFltb.
  destruct (Prim2SF (V11.shake_time s)) as [sg|sg| |sg m e];
    change (Prim2SF 0) with (S754_zero false) in *; simpl in *;
    try destruct sg; try reflexivity; try discriminate.
Qed.

Lemma shake_time_is_never_negative_witness :
  (0 <=? V11.shake_time V11_first_state)%float = true
  /\ (V11.shake_time V11_first_state <? 0)%float = false.
Proof.
  exact (shake_time_is_never_negative V11_first_state V11_first_state_reachable).
Defined.

(** ** The two ticks *)

(** X16.  The tick of [super_snake_V1.1.py] is the tick of [super_snake.py]
    with the shake added: from the same game and random source it returns
    exactly when the other does, with the same game and cursor, and its
    [shake_time] is set to [SHAKE_DURATION] when the score went up and left
    alone otherwise.  It times out or raises exactly when the other does. *)
Theorem V11_tick_is_V1_tick_with_shake :
  forall fuel rng k (g : game) (st : float),
    (forall s' k',
       V11.update fuel rng k (V11.mkState g st) = Done (s', k') <->
       V1.update fuel rng k g = Done (V11.the_game s', k')
       /\ V11.shake_time s'
          = (if score g <? score (V11.the_game s') then V11.SHAKE_DURATION else st))
    /\ (V11.update fuel rng k (V11.mkState g st) = Timeout <->
        V1.update fuel rng k g = Timeout)
    /\ (forall e, V11.update fuel rng k (V11.mkState g st) = Raise e <->
                  V1.update fuel rng k g = Raise e).
Proof.
  intros fuel rng k g st.
  assert (Hsc : forall g' k', V1.update fuel rng k g = Done (g', k') ->
            score g' = score g \/ score g' = score g + 1).
  { intros g' k' H. destruct (game_over g) eqn:Hplay.
    { rewrite update_game_over in H by assumption. inversion H; subst. auto. }
    destruct (last_segment (snake g)) as [head|] eqn:Hhead.
    2:{ unfold V1.update in H. rewrite Hplay, Hhead in H. discriminate. }
    rewrite (update_playing _ _ _ _ head Hplay Hhead) in H. cbv zeta in H.
    destruct (V1.collides _ _); [inversion H; subst; auto|].
    destruct (pos_eqb _ _); [|inversion H; subst; auto].
    destruct (V1.random_food_position _ _ _ _) as [[p k1]| | |]; simpl in H;
      try discriminate.
    inversion H; subst. auto. }
  rewrite V11_update_as_V1. cbn [V11.the_game V11.shake_time].
  destruct (V1.update fuel rng k g) as [[g1 k1]| | |] eqn:E; simpl.
  - split; [|split; [split; discriminate | intros e; split; discriminate]].
    intros s' k'. destruct (Hsc g1 k1 eq_refl) as [H | H].
    + rewrite H, Z.eqb_refl. split.
      * intros Heq. inversion Heq; subst. cbn [V11.the_game V11.shake_time].
        rewrite H, Z.ltb_irrefl. split; reflexivity.
      * intros [Heq Hst]. inversion Heq; subst. destruct s' as [g2 st2].
        cbn [V11.the_game V11.shake_time] in *. rewrite H, Z.ltb_irrefl in Hst.
        subst. reflexivity.
    + replace (score g1 =? score g) with false by (symmetry; apply Z.eqb_neq; lia).
      split.
      * intros Heq. inversion Heq; subst. cbn [V11.the_game V11.shake_time].
        replace (score g <? score g1) with true by (symmetry; apply Z.ltb_lt; lia).
        split; reflexivity.
      * intros [Heq Hst]. inversion Heq; subst. destruct s' as [g2 st2].
        cbn [V11.the_game V11.shake_time] in *.
        replace (score g <? score g2) with true in Hst by (symmetry; apply Z.ltb_lt; lia).
        subst. reflexivity.
  - split; [|split; [split; discriminate | intros e; split; discriminate]].
    intros s' k'. split; [discriminate | intros [H _]; discriminate].
  - split; [|split; [split; discriminate | intros e'; split; intros H0; inversion H0; reflexivity]].
    intros s' k'. split; [discriminate | intros [H _]; discriminate].
  - split; [|split; [split; intros H0; reflexivity | intros e; split; discriminate]].
    intros s' k'. split; [discriminate | intros [H _]; discriminate].
Qed.

(** ** Events with no effect, and the frame of a restart *)

Lemma ignored_event_V1 fuel rng ev k g :
  game_over g = false ->
  ev = OTHER_EVENT \/ ev = KEYDOWN K_other \/ ev = KEYDOWN K_SPACE \/ ev = KEYDOWN K_r ->
  V1.on_event fuel rng ev k g = Done (true, g, k)
  /\ V11.on_event fuel rng ev k g = Done (g, k).
Proof.
  intros Hplay [-> | [-> | [-> | ->]]]; simpl; rewrite ?Hplay; split; reflexivity.
Qed.

(** X18.  With the game in play, a batch made only of events the loop has no
    use for leaves the game, the random source and the loop exactly as they
    were.  These events are: an event that is neither a key press nor the
    QUIT of the window ([OTHER_EVENT]: a mouse move, a key release), the
    press of a key the game does not know, of SPACE, and of R, which only
    counts once the game is over.  QUIT and ESCAPE are not among them: they
    end the loop.  Both files. *)
Theorem idle_events_change_nothing :
  forall fuel rng (evs : list event) k (g : game),
    game_over g = false ->
    Forall (fun ev => ev = OTHER_EVENT \/ ev = KEYDOWN K_other
                      \/ ev = KEYDOWN K_SPACE \/ ev = KEYDOWN K_r) evs ->
    V1.poll fuel rng evs k g = Done (true, g, k)
    /\ V11.poll fuel rng evs k g = Done (g, k).
Proof.
  intros fuel rng evs k g Hplay Hall.
  induction Hall as [|ev evs Hev Hall IH]; simpl; [split; reflexivity|].
  destruct (ignored_event_V1 fuel rng ev k g Hplay Hev) as [H1 H2].
  rewrite H1, H2. simpl. exact IH.
Qed.

Lemma idle_events_change_nothing_witness :
  V1.poll 0 (fun _ => 0) [KEYDOWN K_r; OTHER_EVENT; KEYDOWN K_SPACE] 0 V1_first_game
    = Done (true, V1_first_game, 0%nat)
  /\ V11.poll 0 (fun _ => 0) [KEYDOWN K_r; OTHER_EVENT; KEYDOWN K_SPACE] 0 V1_first_game
    = Done (V1_first_game, 0%nat).
Proof.
  apply (idle_events_change_nothing 0 (fun _ => 0)
           [KEYDOWN K_r; OTHER_EVENT; KEYDOWN K_SPACE] 0%nat V1_first_game eq_refl).
  constructor; [right; right; right; reflexivity|].
  constructor; [left; reflexivity|].
  constructor; [right; right; left; reflexivity | constructor].
Defined.


